(** * mobpdf: the markup-to-section parser (parser.js) and its caller (main.js)

    A shallow embedding of the segmentation pipeline of the mobile PDF
    reflow viewer: style analysis, heading classification, the tree walk
    with its set of processed elements, the three merge passes and the
    renderer, followed by the properties the specification states about
    them.

    Conventions of the embedding.
    - A JavaScript string is a [list ascii]; an [ascii] stands for one
      code unit in the range U+0000..U+00FF, so the character classes
      below are the ECMAScript ones restricted to that range.
    - A DOM element is identified by its path from the temporary root
      element (child indices, innermost first); the [Set] of processed
      elements is a [gset] of such paths.
    - The browser's HTML parser is outside the repository: the functions
      that the source applies to an HTML string take the parsed children
      of the temporary root element instead.
    - A font size is a rational number or NaN, a heading level an integer
      or NaN. The code's numbers are doubles: the two agree on the
      numerals that denote a double and on the integers below 2^53 in
      absolute value, and the statements that name the value of a numeral
      or the digits of a level are made for those ([exactDouble],
      [safeLevel]). *)

From Stdlib Require Import List Ascii String ZArith QArith Lia Bool DecimalString.
From stdpp Require Import gmap.
Import ListNotations.
Close Scope Q_scope.
Local Open Scope list_scope.

(** ** Characters and strings *)

Definition text := list ascii.

(** String literals of the source. *)
Definition T (s : string) : text := list_ascii_of_string s.

Definition code (c : ascii) : N := N_of_ascii c.

Definition inRange (lo hi : N) (c : ascii) : bool :=
  ((lo <=? code c) && (code c <=? hi))%N.

(** [\d], [[A-Z]], [[a-z]] and [\w] of ECMAScript regular expressions. *)
Definition isDigit (c : ascii) : bool := inRange 48 57 c.
Definition isUpperAZ (c : ascii) : bool := inRange 65 90 c.
Definition isLowerAZ (c : ascii) : bool := inRange 97 122 c.
Definition isWord (c : ascii) : bool :=
  isUpperAZ c || isLowerAZ c || isDigit c || (code c =? 95)%N.

(** [\s], which is also what [String.prototype.trim] strips: TAB, LF, VT,
    FF, CR, SPACE and NO-BREAK SPACE are the members below U+0100. *)
Definition isSpace (c : ascii) : bool :=
  inRange 9 13 c || (code c =? 32)%N || (code c =? 160)%N.

(** [String.prototype.toLowerCase] on one code unit: A-Z and the Latin-1
    capitals U+00C0..U+00DE (U+00D7, the multiplication sign, is not a
    letter). *)
Definition toLowerCaseChar (c : ascii) : ascii :=
  if isUpperAZ c || (inRange 192 222 c && negb (code c =? 215)%N)
  then ascii_of_N (code c + 32)
  else c.

Definition chr_eqb (a b : ascii) : bool := Ascii.eqb a b.

Definition hyphen : ascii := "-"%char.
Definition newline : ascii := "010"%char.

Fixpoint takeWhile (p : ascii -> bool) (s : text) : text :=
  match s with
  | c :: r => if p c then c :: takeWhile p r else []
  | [] => []
  end.

Fixpoint dropWhile (p : ascii -> bool) (s : text) : text :=
  match s with
  | c :: r => if p c then dropWhile p r else s
  | [] => []
  end.

(** [s.trim()] *)
Definition trimStart (s : text) : text := dropWhile isSpace s.
Definition trimEnd (s : text) : text := rev (dropWhile isSpace (rev s)).
Definition trim (s : text) : text := trimEnd (trimStart s).

(** The last code unit of a string, if any. *)
Definition lastChar (s : text) : option ascii := hd_error (rev s).

(** [s.endsWith(c)] for a one-character string [c]. *)
Definition endsWith (c : ascii) (s : text) : bool :=
  match lastChar s with
  | Some x => chr_eqb x c
  | None => false
  end.

(** [!!s.match(/[.!?]$/)] *)
Definition endsWithPunctuation (s : text) : bool :=
  match lastChar s with
  | Some x => chr_eqb x "."%char || chr_eqb x "!"%char || chr_eqb x "?"%char
  | None => false
  end.

(** [s[0] && s[0].toLowerCase() === s[0]]: the first code unit exists and
    lower-casing leaves it unchanged. *)
Definition startsLowercase (s : text) : bool :=
  match s with
  | c :: _ => chr_eqb (toLowerCaseChar c) c
  | [] => false
  end.

(** [s.slice(0, -1)] *)
Definition sliceDropLast (s : text) : text := removelast s.

(** [s.includes(c)] for a one-character string [c]. *)
Definition includesChar (c : ascii) (s : text) : bool := existsb (chr_eqb c) s.

(** [s.split(sep)] for a one-character separator, and [lines.join(sep)]. *)
Fixpoint split (sep : ascii) (s : text) : list text :=
  match s with
  | [] => [[]]
  | c :: r =>
      if chr_eqb c sep then [] :: split sep r
      else match split sep r with
           | h :: t => (c :: h) :: t
           | [] => [[c]]
           end
  end.

Fixpoint join (sep : ascii) (parts : list text) : text :=
  match parts with
  | [] => []
  | [p] => p
  | p :: rest => p ++ sep :: join sep rest
  end.

(** A literal of a regular expression with the [i] flag, matched at the
    head of [s]; the rest of the input is returned. The literals of the
    source hold ASCII letters, [-] and [:] only, and the only code units
    that match an ASCII letter are its two cases. *)
Fixpoint matchLiteralCI (lit s : text) : option text :=
  match lit, s with
  | [], _ => Some s
  | l :: lit', c :: s' =>
      if chr_eqb (toLowerCaseChar c) (toLowerCaseChar l) && inRange 0 127 c
      then matchLiteralCI lit' s'
      else None
  | _ :: _, [] => None
  end.

(** The leftmost match of an unanchored regular expression: the matcher
    [m] is tried at every start position in turn. *)
Fixpoint search {A : Type} (m : text -> option A) (s : text) : option A :=
  match m s with
  | Some r => Some r
  | None =>
      match s with
      | [] => None
      | _ :: r => search m r
      end
  end.

(** ** Hyphenation repair inside one string *)

(** One match of [/(\w{2,})-\s*\n?\s*([a-z])/] at the head of [s]: group 1,
    group 2 and the input after the match. The greedy [\w{2,}] must stop
    exactly before the hyphen (a shorter run is followed by a word
    character, not by [-]), and [\s*\n?\s*] must take the whole run of
    white space (the next character, [[a-z]], is not white space). *)
Definition matchHyphenated (s : text) : option (text * ascii * text) :=
  let w := takeWhile isWord s in
  if (2 <=? length w)%nat then
    match dropWhile isWord s with
    | h :: r =>
        if chr_eqb h hyphen then
          match dropWhile isSpace r with
          | c :: r' => if isLowerAZ c then Some (w, c, r') else None
          | [] => None
          end
        else None
    | [] => None
    end
  else None.

(** [text.replace(/.../g, '$1$2')]: the leftmost match is replaced and the
    scan resumes after it; where no match starts, one code unit is copied.
    Every step consumes input, so [length s] steps are enough. *)
Fixpoint replaceHyphenated (fuel : nat) (s : text) : text :=
  match fuel with
  | O => s
  | S fuel' =>
      match s with
      | [] => []
      | c :: r =>
          match matchHyphenated s with
          | Some (w, l, rest) => w ++ l :: replaceHyphenated fuel' rest
          | None => c :: replaceHyphenated fuel' r
          end
      end
  end.

Definition fixHyphenatedWords (t : text) : text :=
  replaceHyphenated (length t) t.

(** ** Sections *)

Inductive sectionType := heading | paragraph | image.

(** A JavaScript number that holds an integer or NaN (heading levels). *)
Inductive jsint := NaN | Int (z : Z).

Record imageRef := { src : text }.

Record section := {
  type : sectionType;
  content : text;
  level : jsint;
  images : list imageRef
}.

(** [createSection(type, content, level = 0, images = [])] *)
Definition createSection (ty : sectionType) (c : text) (lv : jsint)
    (imgs : list imageRef) : section :=
  {| type := ty; content := c; level := lv; images := imgs |}.

Definition createSection2 (ty : sectionType) (c : text) : section :=
  createSection ty c (Int 0) [].

Definition createSection3 (ty : sectionType) (c : text) (lv : jsint) : section :=
  createSection ty c lv [].

Definition isParagraph (s : section) : bool :=
  match type s with paragraph => true | _ => false end.

Definition isHeading (s : section) : bool :=
  match type s with heading => true | _ => false end.

Definition jsint_eqb (a b : jsint) : bool :=
  match a, b with
  | Int x, Int y => (x =? y)%Z
  | _, _ => false
  end.

(** ** Pass 1: hyphenated words split across paragraphs *)

(** [current.content = fixHyphenatedWords(current.content)], guarded by
    the truthiness of the content. The assignment changes the section
    object of the input array; the callers do not use that array again
    and its sections are distinct objects, so the pass is a function from
    the sequence given to the sequence returned. *)
Definition fixContent (s : section) : section :=
  match content s with
  | [] => s
  | _ :: _ =>
      {| type := type s; content := fixHyphenatedWords (content s);
         level := level s; images := images s |}
  end.

(** The test of the inner [if]: [current] has already been repaired,
    [next] has not. *)
Definition hyphenMergeable (current next : section) : bool :=
  let currentText := trim (content current) in
  let nextText := trim (content next) in
  endsWith hyphen currentText && (0 <? length nextText)%nat
  && startsLowercase nextText.

Definition hyphenMerge (current next : section) : section :=
  let currentText := trim (content current) in
  let nextText := trim (content next) in
  createSection2 paragraph (fixHyphenatedWords (sliceDropLast currentText ++ nextText)).

Fixpoint mergeHyphenatedWords (sections : list section) : list section :=
  match sections with
  | [] => []
  | current0 :: rest =>
      let current := fixContent current0 in
      match rest with
      | next :: rest' =>
          if isParagraph current && isParagraph next && hyphenMergeable current next
          then hyphenMerge current next :: mergeHyphenatedWords rest'
          else current :: mergeHyphenatedWords rest
      | [] => current :: mergeHyphenatedWords rest
      end
  end.

(** ** Pass 2: adjacent paragraphs *)

Definition shouldMerge (current next : section) : bool :=
  let currentText := trim (content current) in
  let nextText := trim (content next) in
  let currentEndsWithPunctuation := endsWithPunctuation currentText in
  let nextStartsLowercase := startsLowercase nextText in
  let currentEndsWithHyphen := endsWith hyphen currentText in
  let currentIsShortIncomplete :=
    (length currentText <? 100)%nat && negb currentEndsWithPunctuation in
  (negb currentEndsWithPunctuation && nextStartsLowercase)
  || currentEndsWithHyphen
  || (currentIsShortIncomplete && nextStartsLowercase).

Definition mergeParagraphs (current next : section) : section :=
  createSection2 paragraph (content current ++ " "%char :: content next).

(** One execution of the body of the [while] loop: the new sequence and
    the flag [changed]. *)
Fixpoint mergeScan (merged : list section) : list section * bool :=
  match merged with
  | [] => ([], false)
  | current :: rest =>
      match rest with
      | next :: rest' =>
          if isParagraph current && isParagraph next then
            match trim (content next) with
            | [] => let '(out, ch) := mergeScan rest in (current :: out, ch)
            | _ :: _ =>
                if shouldMerge current next
                then let '(out, _) := mergeScan rest' in
                     (mergeParagraphs current next :: out, true)
                else let '(out, ch) := mergeScan rest in (current :: out, ch)
            end
          else let '(out, ch) := mergeScan rest in (current :: out, ch)
      | [] => let '(out, ch) := mergeScan rest in (current :: out, ch)
      end
  end.

(** The [while (changed)] loop. A scan that changes something removes a
    section, so [length sections] iterations are never exhausted. *)
Fixpoint mergeLoop (fuel : nat) (merged : list section) : list section :=
  match fuel with
  | O => merged
  | S fuel' =>
      let '(newMerged, changed) := mergeScan merged in
      if changed then mergeLoop fuel' newMerged else newMerged
  end.

Definition mergeAdjacentParagraphs (sections : list section) : list section :=
  mergeLoop (length sections) sections.

(** ** Pass 3: headings and their continuations *)

Definition continuationWords : list text :=
  map T ["of"; "and"; "the"; "a"; "an"; "in"; "on"; "at"; "to"; "for"; "with"; "by"]%string.

(** [firstLine.match(/^(of|and|the|a|an|in|on|at|to|for|with|by)\s/i)] *)
Definition startsWithContinuationWord (firstLine : text) : bool :=
  existsb (fun w =>
             match matchLiteralCI w firstLine with
             | Some (c :: _) => isSpace c
             | _ => false
             end) continuationWords.

(** [firstLine.match(/^[A-Z]/)] *)
Definition startsUppercase (s : text) : bool :=
  match s with
  | c :: _ => isUpperAZ c
  | [] => false
  end.

Definition firstLineOf (nextText : text) : text :=
  trim (hd [] (split newline nextText)).

Definition looksLikeContinuation (firstLine : text) : bool :=
  (length firstLine <? 50)%nat
  && (startsWithContinuationWord firstLine
      || (negb (startsUppercase firstLine) && (length firstLine <? 30)%nat)).

(** [nextText.split('\n').slice(1).join('\n').trim()] *)
Definition remainingLinesOf (nextText : text) : text :=
  trim (join newline (tl (split newline nextText))).

Fixpoint mergeAdjacentHeadings (sections : list section) : list section :=
  match sections with
  | [] => []
  | current :: rest =>
      match rest with
      | next :: rest' =>
          let nextText := trim (content next) in
          let currentText := trim (content current) in
          let firstLine := firstLineOf nextText in
          if isHeading current && isParagraph next
             && looksLikeContinuation firstLine
             && negb (endsWithPunctuation currentText)
          then
            let merged :=
              createSection heading (content current ++ " "%char :: firstLine)
                            (level current) [] in
            let remainingLines := remainingLinesOf nextText in
            match remainingLines with
            | [] => merged :: mergeAdjacentHeadings rest'
            | _ :: _ =>
                merged :: createSection2 paragraph remainingLines
                       :: mergeAdjacentHeadings rest'
            end
          else if isHeading current && isHeading next
                  && jsint_eqb (level current) (level next)
          then createSection heading (content current ++ " "%char :: content next)
                             (level current) []
               :: mergeAdjacentHeadings rest'
          else current :: mergeAdjacentHeadings rest
      | [] => current :: mergeAdjacentHeadings rest
      end
  end.

(** The three passes in the order [parseHTMLIntoBlocks] applies them. *)
Definition mergePipeline (sections : list section) : list section :=
  mergeAdjacentHeadings (mergeAdjacentParagraphs (mergeHyphenatedWords sections)).


(** ** Renderer *)

Definition dquote : ascii := "034"%char.

(** [div.textContent = text; return div.innerHTML]: the serialisation of
    one text node by the HTML fragment serialisation algorithm. *)
Definition escapeChar (c : ascii) : text :=
  if chr_eqb c "&"%char then T "&amp;"
  else if (code c =? 160)%N then T "&nbsp;"
  else if chr_eqb c "<"%char then T "&lt;"
  else if chr_eqb c ">"%char then T "&gt;"
  else [c].

Definition escapeHtml (t : text) : text := flat_map escapeChar t.

(** The decimal form a template literal gives an integer below 2^53 in
    absolute value. A JavaScript number holds such an integer exactly and
    prints all its digits; beyond that range a number is rounded, and from
    10^21 on it is printed with an exponent, which this function does not
    follow: statements that name the digits are made for [safeLevel]s. *)
Definition Z_to_text (z : Z) : text := T (NilEmpty.string_of_int (Z.to_int z)).

(** [Math.min(section.level || 2, 6)]: zero and NaN are falsy. *)
Definition headingTagLevel (lv : jsint) : Z :=
  let l := match lv with
           | NaN => 2
           | Int z => if (z =? 0)%Z then 2 else z
           end%Z in
  Z.min l 6.

Definition renderImage (im : imageRef) : text :=
  match src im with
  | [] => []
  | _ :: _ =>
      T "<img src=" ++ dquote :: src im
        ++ dquote :: T " alt=" ++ dquote :: dquote :: T " />"
  end.

Definition renderImages (imgs : list imageRef) : text := flat_map renderImage imgs.

Definition renderSection (s : section) : text :=
  match content s, images s with
  | [], [] => []
  | _, _ =>
      match type s with
      | heading =>
          let tag := "h"%char :: Z_to_text (headingTagLevel (level s)) in
          T "<" ++ tag ++ T ">" ++ escapeHtml (content s) ++ T "</" ++ tag ++ T ">"
      | image => renderImages (images s)
      | paragraph =>
          match trim (content s) with
          | [] => []
          | _ :: _ =>
              T "<p>" ++ escapeHtml (content s) ++ T "</p>" ++ renderImages (images s)
          end
      end
  end.


(** ** Markup tree *)

#[local] Set Warnings "-register-all".

(** An element carries the value of [el.tagName.toLowerCase()], its
    attributes in source order and its child nodes; of the other kinds of
    node only text nodes matter to [textContent]. *)
Inductive node :=
| TextNode (data : text)
| Element (tagName : text) (attributes : list (text * text)) (childNodes : list node).

Definition text_eqb (a b : text) : bool := bool_decide (a = b).

Definition tagOf (n : node) : text :=
  match n with
  | Element t _ _ => t
  | TextNode _ => []
  end.

Definition childrenOf (n : node) : list node :=
  match n with
  | Element _ _ ch => ch
  | TextNode _ => []
  end.

Definition isElement (n : node) : bool :=
  match n with
  | Element _ _ _ => true
  | TextNode _ => false
  end.

(** [el.getAttribute(name)]; [None] is [null]. *)
Definition getAttribute (name : text) (n : node) : option text :=
  match n with
  | Element _ attrs _ =>
      option_map snd (find (fun a => text_eqb (fst a) name) attrs)
  | TextNode _ => None
  end.

(** [el.getAttribute(name) || ''] *)
Definition getAttributeOrEmpty (name : text) (n : node) : text :=
  match getAttribute name n with
  | Some v => v
  | None => []
  end.

(** [node.textContent] *)
Fixpoint textContent (n : node) : text :=
  match n with
  | TextNode d => d
  | Element _ _ ch => flat_map textContent ch
  end.

(** [el.querySelectorAll('*')]: the descendant elements in document order. *)
Fixpoint descendantElements (n : node) : list node :=
  match n with
  | TextNode _ => []
  | Element _ _ ch =>
      flat_map (fun c => if isElement c then c :: descendantElements c else []) ch
  end.

(** [el.firstElementChild] *)
Definition firstElementChild (n : node) : option node :=
  find isElement (childrenOf n).

(** The child nodes of a clone of [el] after its first element child has
    been removed. *)
Fixpoint removeFirstElement (ch : list node) : list node :=
  match ch with
  | [] => []
  | c :: r => if isElement c then r else c :: removeFirstElement r
  end.

(** ** Style attribute analysis *)

(** A JavaScript number that holds a font size: NaN, or the exact value
    of the decimal literal it was parsed from. The double of the source
    compares with the integer thresholds as the exact value does, unless
    the literal has more significant digits than a double keeps. *)
Inductive jsnum := FNaN | FNum (q : Q).

Record fontProperties := {
  fontSize : jsnum;
  isBold : bool;
  isItalic : bool
}.

(** [x > k] for an integer constant [k]; false on NaN. *)
Definition gt (x : jsnum) (k : Z) : bool :=
  match x with
  | FNaN => false
  | FNum q => negb (Qle_bool q (inject_Z k))
  end.

(** The truthiness of a number: neither zero nor NaN. *)
Definition truthy (x : jsnum) : bool :=
  match x with
  | FNaN => false
  | FNum q => negb (Qeq_bool q 0)
  end.

(** [Math.max(a, b)] *)
Definition mathMax (a b : jsnum) : jsnum :=
  match a, b with
  | FNum x, FNum y => if Qle_bool x y then FNum y else FNum x
  | _, _ => FNaN
  end.

Definition digitValue (c : ascii) : N := (code c - 48)%N.

(** The value of a run of decimal digits. *)
Definition digitsValue (ds : text) : N :=
  fold_left (fun acc c => (10 * acc + digitValue c)%N) ds 0%N.

Definition pow10 (k : nat) : positive := Nat.iter k (Pos.mul 10) 1%positive.

(** [parseFloat] on a string of digits and dots: the longest prefix of
    the form digits, digits [.] digits or [.] digits, with the value of
    that numeral as a rational. The code's result is the double nearest
    to that value: the two agree on the numerals that denote a double
    ([exactDouble]), and statements that name the value of a numeral are
    made for those. *)
Definition parseFloat (s : text) : jsnum :=
  let ip := takeWhile isDigit s in
  let fp := match dropWhile isDigit s with
            | d :: r => if chr_eqb d "."%char then takeWhile isDigit r else []
            | [] => []
            end in
  match ip ++ fp with
  | [] => FNaN
  | ds => FNum (Qmake (Z.of_N (digitsValue ds)) (pow10 (length fp)))
  end.

(** [parseInt] on a string of decimal digits, possibly empty. *)
Definition parseInt (s : text) : jsint :=
  match takeWhile isDigit s with
  | [] => NaN
  | ds => Int (Z.of_N (digitsValue ds))
  end.

Definition isDigitOrDot (c : ascii) : bool := isDigit c || chr_eqb c "."%char.

(** [/font-size:\s*([\d.]+)pt/i] at the head of [s]: group 1. *)
Definition matchFontSize (s : text) : option text :=
  match matchLiteralCI (T "font-size:") s with
  | Some r =>
      let r1 := dropWhile isSpace r in
      match takeWhile isDigitOrDot r1 with
      | [] => None
      | num =>
          match matchLiteralCI (T "pt") (dropWhile isDigitOrDot r1) with
          | Some _ => Some num
          | None => None
          end
      end
  | None => None
  end.

(** [/font-weight:\s*(bold|\d+)/i] at the head of [s]: group 1. *)
Definition matchFontWeight (s : text) : option text :=
  match matchLiteralCI (T "font-weight:") s with
  | Some r =>
      let r1 := dropWhile isSpace r in
      match matchLiteralCI (T "bold") r1 with
      | Some _ => Some (firstn 4 r1)
      | None =>
          match takeWhile isDigit r1 with
          | [] => None
          | ds => Some ds
          end
      end
  | None => None
  end.

(** [/font-style:\s*italic/i] at the head of [s]. *)
Definition matchFontStyle (s : text) : option unit :=
  match matchLiteralCI (T "font-style:") s with
  | Some r =>
      match matchLiteralCI (T "italic") (dropWhile isSpace r) with
      | Some _ => Some tt
      | None => None
      end
  | None => None
  end.

(** [parseInt(w) >= 600] *)
Definition weightAtLeast600 (w : text) : bool :=
  match parseInt w with
  | Int z => (600 <=? z)%Z
  | NaN => false
  end.

Definition parseStyle (styleAttr : text) : fontProperties :=
  let style := styleAttr in
  let fontSizeMatch := search matchFontSize style in
  let fontSize :=
    match fontSizeMatch with
    | Some g => parseFloat g
    | None => FNum 0
    end in
  let fontWeightMatch := search matchFontWeight style in
  let isBold :=
    match fontWeightMatch with
    | Some g => text_eqb g (T "bold") || weightAtLeast600 g
    | None => false
    end in
  let fontStyleMatch := search matchFontStyle style in
  let isItalic :=
    match fontStyleMatch with
    | Some _ => true
    | None => false
    end in
  {| fontSize := fontSize; isBold := isBold; isItalic := isItalic |}.

Definition isBoldTag (n : node) : bool :=
  text_eqb (tagOf n) (T "b") || text_eqb (tagOf n) (T "strong").

(** The body of the loop over [el.querySelectorAll('*')], on the pair
    [(maxFontSize, isBold)]. *)
Definition accumulateFont (acc : jsnum * bool) (child : node) : jsnum * bool :=
  let childStyle := getAttributeOrEmpty (T "style") child in
  let childProps := parseStyle childStyle in
  (mathMax (fst acc) (fontSize childProps),
   if isBold childProps || isBoldTag child then true else snd acc).

Definition extractFontProperties (el : node) : jsnum * bool :=
  let style := getAttributeOrEmpty (T "style") el in
  let ownStyle := parseStyle style in
  let maxFontSize := mathMax (FNum 0) (fontSize ownStyle) in
  let bold := false || isBold ownStyle in
  let boldTags := filter isBoldTag (descendantElements el) in
  let bold := if (0 <? length boldTags)%nat then true else bold in
  let allElements := descendantElements el in
  fold_left accumulateFont allElements (maxFontSize, bold).

(** ** Heading classifier *)

(** [text.match(/^\d+\./)] *)
Definition startsWithEnumeration (t : text) : bool :=
  match takeWhile isDigit t, dropWhile isDigit t with
  | _ :: _, d :: _ => chr_eqb d "."%char
  | _, _ => false
  end.

Definition isLikelyHeading (t : text) (fontSize : jsnum) (isBold : bool) : bool :=
  gt fontSize 14
  || (gt fontSize 12 && isBold)
  || (isBold && (length t <? 200)%nat && negb (includesChar "."%char t)
      && negb (startsWithEnumeration t))
  || (gt fontSize 16 && (length t <? 300)%nat).

Definition getHeadingLevel (fontSize : jsnum) (isBold : bool) : jsint :=
  if gt fontSize 20 then Int 1
  else if gt fontSize 18 then Int 2
  else if gt fontSize 16 then Int 2
  else if gt fontSize 14 then Int 3
  else if isBold && gt fontSize 12 then Int 3
  else Int 3.

(** ** Segmenter *)

(** The identity of an element: its child indices from the temporary root
    element, innermost first; the root itself is [[]]. *)
Abbreviation path := (list nat).

Abbreviation processedSet := (gset path).

(** The loop of [isParentProcessed], started at [parent]. *)
Fixpoint ancestorProcessed (parent : path) (processedElements : processedSet) : bool :=
  match parent with
  | [] => false
  | _ :: up =>
      bool_decide (parent ∈ processedElements)
      || ancestorProcessed up processedElements
  end.

Definition isParentProcessed (el : path) (processedElements : processedSet) : bool :=
  ancestorProcessed (tl el) processedElements.

(** [tagName.match(/^h[1-6]$/)] *)
Definition isHeadingTag (tag : text) : bool :=
  match tag with
  | [h; d] => chr_eqb h "h"%char && inRange 49 54 d
  | _ => false
  end.

(** [parseInt(tag.charAt(1))] *)
Definition parseIntCharAt1 (tag : text) : jsint :=
  match tag with
  | _ :: d :: _ => parseInt [d]
  | _ => parseInt []
  end.

Record nestedHeading := {
  nested_heading : section;
  remainingText : text
}.

Definition extractNestedHeading (el : node) : option nestedHeading :=
  match firstElementChild el with
  | None => None
  | Some firstChild =>
      let firstTag := tagOf firstChild in
      let '(fontSize, isBold) := extractFontProperties el in
      let headingText := trim (textContent firstChild) in
      match headingText with
      | [] => None
      | _ :: _ =>
          let isHeadingTag := isHeadingTag firstTag in
          let isHeadingStyle :=
            (truthy fontSize && gt fontSize 14)
            || (isBold && (length headingText <? 200)%nat) in
          if negb isHeadingTag && negb isHeadingStyle then None
          else
            let level :=
              if isHeadingTag then parseIntCharAt1 firstTag
              else if gt fontSize 18 then Int 1
              else if gt fontSize 16 then Int 2
              else Int 3 in
            let cloneChildren :=
              match firstElementChild el with
              | Some cloneFirstChild =>
                  if text_eqb (trim (textContent cloneFirstChild)) headingText
                  then removeFirstElement (childrenOf el)
                  else childrenOf el
              | None => childrenOf el
              end in
            let remainingText := trim (flat_map textContent cloneChildren) in
            Some {| nested_heading := createSection3 heading headingText level;
                    remainingText := remainingText |}
      end
  end.

(** The processing functions add the element to the set of processed
    elements and return a section, or return [null] and leave the set as
    it is: they map the set to the result and the new set. *)
Definition processImage (el : node) (id : path) (processedElements : processedSet)
    : option section * processedSet :=
  match getAttribute (T "src") el with
  | None | Some [] => (None, processedElements)
  | Some src =>
      (Some (createSection image [] (Int 0) [{| src := src |}]),
       {[ id ]} ∪ processedElements)
  end.

Definition processHeading (el : node) (id : path) (processedElements : processedSet)
    : option section * processedSet :=
  match trim (textContent el) with
  | [] => (None, processedElements)
  | t =>
      let tagName := tagOf el in
      let level := parseIntCharAt1 tagName in
      (Some (createSection3 heading t level), {[ id ]} ∪ processedElements)
  end.

(** What [processTextElement] returns: [null], one section or an array. *)
Inductive textResult :=
| Null
| One (s : section)
| Many (ss : list section).

Definition isP_or_div (tagName : text) : bool :=
  text_eqb tagName (T "p") || text_eqb tagName (T "div").

Definition processTextElement (el : node) (tagName : text) (id : path)
    (processedElements : processedSet) : textResult * processedSet :=
  match trim (textContent el) with
  | [] => (Null, processedElements)
  | t =>
      let '(fontSize, isBold) := extractFontProperties el in
      match (if isP_or_div tagName then extractNestedHeading el else None) with
      | Some nested =>
          (Many (nested_heading nested ::
                 match remainingText nested with
                 | [] => []
                 | r => [createSection2 paragraph r]
                 end),
           {[ id ]} ∪ processedElements)
      | None =>
          if isLikelyHeading t fontSize isBold then
            let level := getHeadingLevel fontSize isBold in
            (One (createSection3 heading t level), {[ id ]} ∪ processedElements)
          else if isP_or_div tagName then
            (One (createSection2 paragraph t), {[ id ]} ∪ processedElements)
          else if text_eqb tagName (T "span") && (50 <? length t)%nat then
            (One (createSection2 paragraph t), {[ id ]} ∪ processedElements)
          else (Null, processedElements)
      end
  end.

(** A literal of a regular expression without flags, matched at the head
    of [s]. *)
Fixpoint matchLiteral (lit s : text) : option text :=
  match lit, s with
  | [], _ => Some s
  | l :: lit', c :: s' => if chr_eqb c l then matchLiteral lit' s' else None
  | _ :: _, [] => None
  end.

(** [/^page\d+$/.test(id)] *)
Definition isPageId (id : text) : bool :=
  match matchLiteral (T "page") id with
  | Some [] => false
  | Some r => forallb isDigit r
  | None => false
  end.

Definition isPageMarker (el : node) : bool :=
  let tagName := tagOf el in
  if negb (text_eqb tagName (T "div")) then false
  else
    let id := getAttributeOrEmpty (T "id") el in
    isPageId id.

(** The elements a [TreeWalker] with [SHOW_ELEMENT] yields for the subtree
    of [n]: document order, each with its identity. *)
Fixpoint walkNode (id : path) (n : node) : list (path * node) :=
  match n with
  | TextNode _ => []
  | Element _ _ ch =>
      (id, n) ::
      (fix walkChildren (i : nat) (l : list node) : list (path * node) :=
         match l with
         | [] => []
         | c :: r => walkNode (i :: id) c ++ walkChildren (S i) r
         end) 0%nat ch
  end.

(** The elements below the element [id], whose child nodes from index [i]
    on are [l]. *)
Fixpoint walkChildren (id : path) (i : nat) (l : list node) : list (path * node) :=
  match l with
  | [] => []
  | c :: r => walkNode (i :: id) c ++ walkChildren id (S i) r
  end.

(** The state of the loop of [parseHTMLIntoBlocks]. *)
Record walkState := {
  sections : list section;
  processedElements : processedSet
}.

(** One iteration of [while (node = walker.nextNode())]. *)
Definition visit (st : walkState) (idel : path * node) : walkState :=
  let '(id, el) := idel in
  let tagName := tagOf el in
  if bool_decide (id ∈ processedElements st) then st
  else if isPageMarker el then st
  else if isParentProcessed id (processedElements st) then st
  else if text_eqb tagName (T "img") then
    match processImage el id (processedElements st) with
    | (Some section, processed) =>
        {| sections := sections st ++ [section]; processedElements := processed |}
    | (None, processed) =>
        {| sections := sections st; processedElements := processed |}
    end
  else if isHeadingTag tagName then
    match processHeading el id (processedElements st) with
    | (Some section, processed) =>
        {| sections := sections st ++ [section]; processedElements := processed |}
    | (None, processed) =>
        {| sections := sections st; processedElements := processed |}
    end
  else if isP_or_div tagName || text_eqb tagName (T "span") then
    match processTextElement el tagName id (processedElements st) with
    | (Many result, processed) =>
        {| sections := sections st ++ result; processedElements := processed |}
    | (One result, processed) =>
        {| sections := sections st ++ [result]; processedElements := processed |}
    | (Null, processed) =>
        {| sections := sections st; processedElements := processed |}
    end
  else st.

Definition initialState : walkState :=
  {| sections := []; processedElements := ∅ |}.

(** The sections the loop collects for the children [html] of the
    temporary root element. *)
Definition collectSections (html : list node) : list section :=
  sections (fold_left visit (walkChildren [] 0 html) initialState).

Definition parseHTMLIntoBlocks (html : list node) : list section :=
  let sections := collectSections html in
  let mergedSections := mergeHyphenatedWords sections in
  let mergedSections := mergeAdjacentParagraphs mergedSections in
  mergeAdjacentHeadings mergedSections.

(** ** Caller (main.js) *)

(** [extractSectionsFromDocument]: the document is the sequence of its
    pages, each given by the parsed markup of [asHTML]. *)
Definition extractSectionsFromDocument (doc : list (list node)) : list section :=
  fold_left (fun sections pageHTML => sections ++ parseHTMLIntoBlocks pageHTML) doc [].

(** ** Vocabulary of the properties *)

Definition hyphenCount (s : text) : nat := count_occ ascii_dec s hyphen.



Definition lt_sign : ascii := "<"%char.
Definition gt_sign : ascii := ">"%char.


(** No code unit of [s] opens a tag. *)
Definition noLt (s : text) : bool := forallb (fun c => negb (chr_eqb c lt_sign)) s.





(** A level that a JavaScript number holds exactly and that [Z_to_text]
    prints as the template literal does: NaN, or an integer below 2^53 in
    absolute value. *)
Definition safeLevel (lv : jsint) : Prop :=
  match lv with
  | NaN => True
  | Int z => (- 2 ^ 53 < z < 2 ^ 53)%Z
  end.

(** A string with a code unit that [trim] keeps. *)
Definition nonblank (t : text) : Prop := forallb isSpace t = false.

Definition levelInRange (lv : jsint) : Prop :=
  exists k, lv = Int k /\ (1 <= k <= 6)%Z.

(** What holds of every section between the walk and the renderer. *)
Definition wellFormed (s : section) : Prop :=
  match type s with
  | heading => nonblank (content s) /\ levelInRange (level s)
  | paragraph => nonblank (content s)
  | image => True
  end.

Ltac ascii_cases c :=
  destruct c as [[] [] [] [] [] [] [] []]; vm_compute; try reflexivity; try discriminate.

(** The sections a result of [processTextElement] adds to the sequence. *)
Definition resultSections (r : textResult) : list section :=
  match r with
  | Null => []
  | One s => [s]
  | Many ss => ss
  end.

(** What the loop body does with an element that it does not skip, seen
    from an empty set of processed elements: the sections it appends and
    whether it adds the element to the set. *)
Definition visitAlone (el : node) : walkState := visit initialState ([0%nat], el).
Definition emitted (el : node) : list section := sections (visitAlone el).
Definition consumes (el : node) : bool :=
  bool_decide ([0%nat] ∈ processedElements (visitAlone el)).

(** The sections a subtree contributes, given whether an ancestor of its
    root has been processed. *)
Fixpoint segment (blocked : bool) (n : node) : list section :=
  match n with
  | TextNode _ => []
  | Element _ _ ch =>
      (if blocked then [] else emitted n)
      ++ flat_map (segment (blocked || consumes n)) ch
  end.

(** [q] is the element [id] or lies below it. *)
Definition below (id q : path) : Prop := exists k, q = k ++ id.

(** The statement about one subtree: the walk over it appends the
    sections of [segment] and adds only elements of the subtree to the
    set. *)
Definition walkCorrect (n : node) : Prop :=
  forall (id : path) (S : processedSet) (secs : list section),
    id <> [] ->
    (forall q, q ∈ S -> ~ below id q) ->
    exists S',
      fold_left visit (walkNode id n) {| sections := secs; processedElements := S |}
      = {| sections := secs ++ segment (isParentProcessed id S) n;
           processedElements := S' |}
      /\ (forall q, q ∈ S -> q ∈ S')
      /\ (forall q, q ∈ S' -> q ∈ S \/ below id q).

(** The last code unit of [s] that is not white space. *)
Definition lastNonSpace (s : text) : option ascii :=
  hd_error (dropWhile isSpace (rev s)).

(** A paragraph element without attributes that holds one text node, and
    a page-marker element around the markup of page [n]. *)
Definition plainParagraph (t : text) : node := Element (T "p") [] [TextNode t].
Definition pageDiv (n : text) (kids : list node) : node :=
  Element (T "div") [(T "id", T "page" ++ n)] kids.

(** ** Vocabulary of the further properties *)

(** The code units that the hyphenation repair never deletes: all but
    hyphens and white space. *)
Definition keptByRepair (c : ascii) : bool := negb (isSpace c || chr_eqb c hyphen).

(** A place where the hyphenation pattern matches: two word characters,
    a hyphen, white space, a lowercase letter. *)
Definition hyphenBreak (s : text) : Prop :=
  exists pre a b ws l rest,
    s = pre ++ a :: b :: hyphen :: ws ++ l :: rest
    /\ isWord a = true /\ isWord b = true
    /\ forallb isSpace ws = true /\ isLowerAZ l = true.

(** Two adjacent paragraphs of [l] that the hyphen merge of Pass 1 would
    join. *)
Fixpoint pendingMerge (l : list section) : bool :=
  match l with
  | a :: ((b :: _) as r) =>
      (isParagraph a && isParagraph b && hyphenMergeable a b) || pendingMerge r
  | _ => false
  end.

(** A sequence that Pass 1 has nothing left to do on: no content holds a
    place where the hyphenation pattern matches, and no two adjacent
    paragraphs would be joined. *)
Definition settled (l : list section) : Prop :=
  Forall (fun s => ~ hyphenBreak (content s)) l /\ pendingMerge l = false.

(** A paragraph whose trimmed content ends in a hyphen, directly after a
    paragraph whose trimmed content ends in a hyphen. *)
Fixpoint hyphenChain (l : list section) : bool :=
  match l with
  | a :: ((b :: _) as r) =>
      (isParagraph a && isParagraph b
       && endsWith hyphen (trim (content a)) && endsWith hyphen (trim (content b)))
      || hyphenChain r
  | _ => false
  end.

Definition isImage (s : section) : bool :=
  match type s with image => true | _ => false end.

Definition space : ascii := " "%char.

(** The contents of a section sequence, joined by single spaces. *)
Definition joinedContent (l : list section) : text := join space (map content l).

(** An image section as [processImage] creates it: no content, one image
    with a non-empty source. *)
Definition imageFromWalk (s : section) : Prop :=
  content s = [] /\ exists x, images s = [x] /\ src x <> [].

(** [wellFormed], and the image sections are as [processImage] creates
    them. *)
Definition sound (s : section) : Prop :=
  wellFormed s /\ (isImage s = true -> imageFromWalk s).

(** The tag names that the loop of [parseHTMLIntoBlocks] handles. *)
Definition handledTags : list text :=
  map T ["img"; "h1"; "h2"; "h3"; "h4"; "h5"; "h6"; "p"; "div"; "span"]%string.

(** [el.getAttribute('style') || ''], analysed. *)
Definition styleOf (el : node) : fontProperties :=
  parseStyle (getAttributeOrEmpty (T "style") el).

(** What makes the loop of [extractFontProperties] set [isBold]. *)
Definition boldish (child : node) : bool := isBold (styleOf child) || isBoldTag child.

Definition nbsp : ascii := "160"%char.
Definition ampersand : ascii := "&"%char.

(** The code units that [escapeHtml] copies. *)
Definition plainChar (c : ascii) : bool :=
  negb (chr_eqb c ampersand || chr_eqb c nbsp || chr_eqb c lt_sign || chr_eqb c gt_sign).

Definition colon : ascii := ":"%char.

(** The value [parseFloat] gives the digits [ip], a dot and the digits
    [fp]. *)
Definition decimalValue (ip fp : text) : jsnum :=
  FNum (Qmake (Z.of_N (digitsValue (ip ++ fp))) (pow10 (length fp))).

(** A power of two. *)
Fixpoint isPowerOfTwo (p : positive) : bool :=
  match p with
  | xH => true
  | xO p' => isPowerOfTwo p'
  | xI _ => false
  end.

(** A number that a double holds exactly: in lowest terms, an integer
    below 2^53 in absolute value over a power of two that is at most
    2^1074. *)
Definition exactDouble (x : jsnum) : bool :=
  match x with
  | FNaN => false
  | FNum q =>
      let r := Qred q in
      (Z.abs (Qnum r) <? 2 ^ 53)%Z
      && isPowerOfTwo (Qden r)
      && (Pos.size_nat (Qden r) <=? 1075)%nat
  end.

(** The three kinds of section that the walk creates. *)
Inductive walkForm : section -> Prop :=
| walkForm_image (source : text) :
    source <> [] ->
    walkForm (createSection image [] (Int 0) [{| src := source |}])
| walkForm_heading (x : text) (lv : jsint) :
    trim x <> [] -> levelInRange lv ->
    walkForm (createSection3 heading (trim x) lv)
| walkForm_paragraph (x : text) :
    trim x <> [] ->
    walkForm (createSection2 paragraph (trim x)).

(** Neither end of [t] is white space. *)
Definition tidyEnds (t : text) : bool :=
  match t with
  | [] => true
  | c :: _ =>
      negb (isSpace c)
      && match lastChar t with
         | Some x => negb (isSpace x)
         | None => false
         end
  end.

(** A heading or paragraph with text, trimmed, without images; a
    paragraph at level 0. *)
Definition canonical (s : section) : Prop :=
  match type s with
  | heading =>
      content s <> [] /\ trim (content s) = content s /\ images s = []
  | paragraph =>
      content s <> [] /\ trim (content s) = content s /\ images s = []
      /\ level s = Int 0
  | image => True
  end.

(** * Properties *)

(** ** The embedding on the examples of the specification *)

Example fix_across_line_break :
  fixHyphenatedWords (T "it-" ++ newline :: T "eratively") = T "iteratively".
Proof. reflexivity. Qed.

Example fix_keeps_compound :
  fixHyphenatedWords (T "k-means") = T "k-means".
Proof. reflexivity. Qed.

Example hyphen_merge_across_paragraphs :
  mergeHyphenatedWords
    [createSection2 paragraph (T "it-"); createSection2 paragraph (T "eratively")]
  = [createSection2 paragraph (T "iteratively")].
Proof. reflexivity. Qed.

Example heading_continuation :
  mergeAdjacentHeadings
    [createSection3 heading (T "Introduction") (Int 2);
     createSection2 paragraph (T "of deep learning models")]
  = [createSection3 heading (T "Introduction of deep learning models") (Int 2)].
Proof. reflexivity. Qed.

Example style_analysis :
  parseStyle (T "top:72pt;left:10pt;font-size:11.5pt;font-weight:700")
  = {| fontSize := FNum 11.5; isBold := true; isItalic := false |}.
Proof. reflexivity. Qed.

Example styled_heading :
  parseHTMLIntoBlocks
    [Element (T "p") [(T "style", T "font-size:22pt")] [TextNode (T " Deep Clustering ")]]
  = [createSection3 heading (T "Deep Clustering") (Int 1)].
Proof. vm_compute. reflexivity. Qed.

Example nested_bold_heading :
  collectSections
    [Element (T "p") []
       [Element (T "b") [] [TextNode (T "Abstract.")]; TextNode (T " Clustering is a class")]]
  = [createSection3 heading (T "Abstract.") (Int 3);
     createSection2 paragraph (T "Clustering is a class")].
Proof. vm_compute. reflexivity. Qed.

Example short_span_dropped :
  collectSections [Element (T "span") [] [TextNode (T "1")]] = [].
Proof. vm_compute. reflexivity. Qed.

(** ** Induction principles *)

(** Induction for the scans that look at a section and its successor. *)
Lemma pair_induction {A : Type} (Q : list A -> Prop) :
  Q [] ->
  (forall a, Q [a]) ->
  (forall a b l, Q l -> Q (b :: l) -> Q (a :: b :: l)) ->
  forall l, Q l.
Proof.
  intros Hnil Hone Hstep l.
  assert (H : Q l /\ forall a, Q (a :: l)).
  { induction l as [|b l [IH1 IH2]].
    - split; [exact Hnil | exact Hone].
    - split; [apply IH2 | intros a; apply Hstep; [exact IH1 | apply IH2]]. }
  exact (proj1 H).
Qed.

(** Induction over markup trees, with the hypothesis for every child. *)
Lemma node_induction (Q : node -> Prop) :
  (forall d, Q (TextNode d)) ->
  (forall t a ch, Forall Q ch -> Q (Element t a ch)) ->
  forall n, Q n.
Proof.
  intros Htext Helem.
  fix IH 1.
  intros [d | t a ch].
  - apply Htext.
  - apply Helem.
    induction ch as [|c ch IHch].
    + constructor.
    + constructor; [apply IH | exact IHch].
Qed.

(** ** The scans at a section and its successor *)

Lemma mergeHyphenatedWords_two (a b : section) (l : list section) :
  mergeHyphenatedWords (a :: b :: l)
  = if isParagraph (fixContent a) && isParagraph b && hyphenMergeable (fixContent a) b
    then hyphenMerge (fixContent a) b :: mergeHyphenatedWords l
    else fixContent a :: mergeHyphenatedWords (b :: l).
Proof. reflexivity. Qed.

Lemma mergeScan_two (a b : section) (l : list section) :
  mergeScan (a :: b :: l)
  = if isParagraph a && isParagraph b then
      match trim (content b) with
      | [] => let '(out, ch) := mergeScan (b :: l) in (a :: out, ch)
      | _ :: _ =>
          if shouldMerge a b
          then let '(out, _) := mergeScan l in (mergeParagraphs a b :: out, true)
          else let '(out, ch) := mergeScan (b :: l) in (a :: out, ch)
      end
    else let '(out, ch) := mergeScan (b :: l) in (a :: out, ch).
Proof. reflexivity. Qed.

Lemma mergeAdjacentHeadings_two (a b : section) (l : list section) :
  mergeAdjacentHeadings (a :: b :: l)
  = if isHeading a && isParagraph b
       && looksLikeContinuation (firstLineOf (trim (content b)))
       && negb (endsWithPunctuation (trim (content a)))
    then
      match remainingLinesOf (trim (content b)) with
      | [] =>
          createSection heading
            (content a ++ " "%char :: firstLineOf (trim (content b))) (level a) []
          :: mergeAdjacentHeadings l
      | _ :: _ =>
          createSection heading
            (content a ++ " "%char :: firstLineOf (trim (content b))) (level a) []
          :: createSection2 paragraph (remainingLinesOf (trim (content b)))
          :: mergeAdjacentHeadings l
      end
    else if isHeading a && isHeading b && jsint_eqb (level a) (level b)
    then createSection heading (content a ++ " "%char :: content b) (level a) []
         :: mergeAdjacentHeadings l
    else a :: mergeAdjacentHeadings (b :: l).
Proof. reflexivity. Qed.

(** ** Merge monotonicity *)

Lemma mergeScan_length (l : list section) :
  (length (fst (mergeScan l)) <= length l)%nat
  /\ (snd (mergeScan l) = true -> (length (fst (mergeScan l)) < length l)%nat).
Proof.
  induction l as [| a | a b l IH1 IH2] using pair_induction.
  - simpl. split; [lia | discriminate].
  - simpl. split; [lia | discriminate].
  - rewrite mergeScan_two.
    destruct (mergeScan (b :: l)) as [out2 ch2].
    destruct (mergeScan l) as [out1 ch1].
    simpl in IH1, IH2. simpl length.
    destruct (isParagraph a && isParagraph b);
      [destruct (trim (content b)); [|destruct (shouldMerge a b)]|];
      simpl; split; intros; try lia;
      destruct IH2 as [? IH2]; try specialize (IH2 ltac:(assumption)); lia.
Qed.

(** A scan that reports no change returns its input. *)
Lemma mergeScan_unchanged (l : list section) :
  snd (mergeScan l) = false -> fst (mergeScan l) = l.
Proof.
  induction l as [| a | a b l IH1 IH2] using pair_induction.
  - reflexivity.
  - reflexivity.
  - rewrite mergeScan_two.
    destruct (mergeScan (b :: l)) as [out2 ch2].
    destruct (mergeScan l) as [out1 ch1].
    simpl in IH1, IH2.
    destruct (isParagraph a && isParagraph b);
      [destruct (trim (content b)); [|destruct (shouldMerge a b)]|];
      simpl; intros H; try discriminate; rewrite IH2; auto.
Qed.

Lemma mergeLoop_length (fuel : nat) (l : list section) :
  (length (mergeLoop fuel l) <= length l)%nat.
Proof.
  revert l. induction fuel as [|fuel IH]; intros l; simpl.
  - lia.
  - pose proof (mergeScan_length l) as [Hle Hlt].
    destruct (mergeScan l) as [out ch]. simpl in *.
    destruct ch.
    + specialize (IH out). specialize (Hlt eq_refl). lia.
    + exact Hle.
Qed.

(** The loop of Pass 2 ends because a scan reported no change, never
    because the iteration bound was reached: its result is stable. *)
Lemma mergeLoop_stable (fuel : nat) (l : list section) :
  (length l <= fuel)%nat -> snd (mergeScan (mergeLoop fuel l)) = false.
Proof.
  revert l. induction fuel as [|fuel IH]; intros l Hlen; simpl.
  - destruct l; [reflexivity | simpl in Hlen; lia].
  - pose proof (mergeScan_length l) as [Hle Hlt].
    pose proof (mergeScan_unchanged l) as Hun.
    destruct (mergeScan l) as [out ch] eqn:E. simpl in *.
    destruct ch.
    + apply IH. specialize (Hlt eq_refl). lia.
    + rewrite (Hun eq_refl), E. reflexivity.
Qed.

(** Any larger bound on the number of iterations gives the same result. *)
Lemma mergeLoop_enough (n m : nat) (l : list section) :
  (length l <= n)%nat -> (length l <= m)%nat -> mergeLoop n l = mergeLoop m l.
Proof.
  revert m l. induction n as [|n IH]; intros m l Hn Hm.
  - destruct l; [|simpl in Hn; lia]. destruct m; reflexivity.
  - destruct m as [|m].
    + destruct l; [reflexivity | simpl in Hm; lia].
    + simpl. pose proof (mergeScan_length l) as [_ Hlt].
      destruct (mergeScan l) as [out ch]. simpl in Hlt.
      destruct ch; [|reflexivity].
      specialize (Hlt eq_refl). apply IH; lia.
Qed.

Lemma mergeAdjacentParagraphs_stable (l : list section) :
  mergeScan (mergeAdjacentParagraphs l) = (mergeAdjacentParagraphs l, false).
Proof.
  pose proof (mergeLoop_stable (length l) l (Nat.le_refl _)) as H.
  pose proof (mergeScan_unchanged _ H) as H'.
  unfold mergeAdjacentParagraphs.
  destruct (mergeScan (mergeLoop (length l) l)); simpl in *; congruence.
Qed.

Lemma mergeAdjacentHeadings_length (l : list section) :
  (length (mergeAdjacentHeadings l) <= length l)%nat.
Proof.
  induction l as [| a | a b l IH1 IH2] using pair_induction.
  - simpl; lia.
  - simpl; lia.
  - rewrite mergeAdjacentHeadings_two.
    repeat match goal with
           | |- context [if ?c then _ else _] => destruct c
           | |- context [match ?x with [] => _ | _ :: _ => _ end] => destruct x
           end; simpl in *; lia.
Qed.

(** C6. Merge monotonicity: neither Pass 2 ([mergeAdjacentParagraphs]) nor
    Pass 3 ([mergeAdjacentHeadings]) returns more sections than it was
    given, for every input sequence. *)
Theorem merge_monotonicity (sections : list section) :
  (length (mergeAdjacentParagraphs sections) <= length sections)%nat
  /\ (length (mergeAdjacentHeadings sections) <= length sections)%nat.
Proof.
  split.
  - apply mergeLoop_length.
  - apply mergeAdjacentHeadings_length.
Qed.

(** ** Heading levels in the renderer *)

(** C4 (counterexample). A heading of level 0 is rendered as [h2], not as
    the [h1] that clamping into 1..6 would give, and a negative level is
    not clamped at all. *)
Lemma heading_level_zero_renders_h2 :
  renderSection (createSection3 heading (T "x") (Int 0)) = T "<h2>x</h2>"
  /\ renderSection (createSection3 heading (T "x") (Int 0)) <> T "<h1>x</h1>"
  /\ renderSection (createSection3 heading (T "x") (Int (-1))) = T "<h-1>x</h-1>".
Proof.
  split; [reflexivity | split; [discriminate | reflexivity]].
Qed.

(** C4 (amended). A heading section with content or images, whose level
    is NaN or an integer below 2^53 in absolute value, is rendered as the
    tag [h] followed by the number [Math.min(level || 2, 6)] around the
    escaped content: that number is the level itself for levels 1 to 6,
    it is 6 for levels above 6, it is 2 for level 0 and for NaN, and a
    negative level is left as it is. *)
Theorem renderSection_heading_level (s : section) :
  type s = heading ->
  content s <> [] \/ images s <> [] ->
  safeLevel (level s) ->
  let k := headingTagLevel (level s) in
  renderSection s
  = T "<h" ++ Z_to_text k ++ T ">" ++ escapeHtml (content s)
    ++ T "</h" ++ Z_to_text k ++ T ">"
  /\ match level s with
     | NaN => k = 2%Z
     | Int z =>
         ((1 <= z <= 6)%Z -> k = z)
         /\ ((6 < z)%Z -> k = 6%Z)
         /\ (z = 0%Z -> k = 2%Z)
         /\ ((z < 0)%Z -> k = z)
     end.
Proof.
  intros Hty Hne _ k. split.
  - unfold renderSection. rewrite Hty.
    destruct (content s) as [|c cs] eqn:Ec.
    + destruct (images s) as [|i imgs]; [destruct Hne; congruence | reflexivity].
    + reflexivity.
  - subst k. unfold headingTagLevel.
    destruct (level s) as [|z]; [reflexivity|].
    destruct (Z.eqb_spec z 0); repeat split; intros; lia.
Qed.

(** A heading of level 9 is rendered as [h6]. *)
Lemma renderSection_heading_level_witness :
  renderSection (createSection3 heading (T "Title") (Int 9)) = T "<h6>Title</h6>".
Proof.
  apply (renderSection_heading_level (createSection3 heading (T "Title") (Int 9))).
  - reflexivity.
  - left. discriminate.
  - simpl. lia.
Defined.

(** ** Heading classifier *)

Lemma gt_spec (q : Q) (k : Z) : gt (FNum q) k = true <-> (inject_Z k < q)%Q.
Proof.
  unfold gt. rewrite negb_true_iff.
  split.
  - intros H. apply Qnot_le_lt. intros Hle.
    apply Qle_bool_iff in Hle. congruence.
  - intros H. destruct (Qle_bool q (inject_Z k)) eqn:E; [|reflexivity].
    apply Qle_bool_iff in E. exfalso. exact (Qlt_not_le _ _ H E).
Qed.

Lemma gt_mono (x : jsnum) (j k : Z) : (j <= k)%Z -> gt x k = true -> gt x j = true.
Proof.
  destruct x as [|q]; [discriminate|].
  rewrite !gt_spec. intros Hjk H.
  eapply Qle_lt_trans; [|exact H].
  rewrite <- Zle_Qle. exact Hjk.
Qed.

(** C5. Heading level assignment: a block at 22pt is a heading of level 1,
    one at 19pt a heading of level 2, a bold one at 15pt a heading of
    level 3; in general a font size above 20 gives 1, otherwise one above
    18 or above 16 gives 2, otherwise one above 14 gives 3, otherwise a
    bold block above 12 gives 3, and every other case (NaN included)
    gives the fallback 3. *)
Theorem heading_level_assignment (t : text) (q : Q) (b : bool) :
  (isLikelyHeading t (FNum 22) b = true /\ getHeadingLevel (FNum 22) b = Int 1)
  /\ (isLikelyHeading t (FNum 19) b = true /\ getHeadingLevel (FNum 19) b = Int 2)
  /\ (isLikelyHeading t (FNum 15) true = true /\ getHeadingLevel (FNum 15) true = Int 3)
  /\ ((20 < q)%Q -> getHeadingLevel (FNum q) b = Int 1)
  /\ (~ (20 < q)%Q -> (18 < q)%Q \/ (16 < q)%Q -> getHeadingLevel (FNum q) b = Int 2)
  /\ (~ (16 < q)%Q -> (14 < q)%Q -> getHeadingLevel (FNum q) b = Int 3)
  /\ (~ (14 < q)%Q -> b = true -> (12 < q)%Q -> getHeadingLevel (FNum q) b = Int 3)
  /\ (~ (16 < q)%Q -> getHeadingLevel (FNum q) b = Int 3)
  /\ getHeadingLevel FNaN b = Int 3.
Proof.
  assert (Hgt : forall k, gt (FNum q) k = false <-> ~ (inject_Z k < q)%Q).
  { intros k. rewrite <- gt_spec. destruct (gt (FNum q) k); split; congruence. }
  pose proof (gt_mono (FNum q) 18 20 ltac:(lia)) as M1.
  pose proof (gt_mono (FNum q) 16 18 ltac:(lia)) as M2.
  pose proof (gt_mono (FNum q) 14 16 ltac:(lia)) as M3.
  unfold getHeadingLevel.
  repeat split; try reflexivity; intros;
    repeat match goal with
           | H : _ \/ _ |- _ => destruct H
           | H : Qlt ?x q |- _ =>
               apply (proj2 (gt_spec q (Qnum x))) in H; simpl Qnum in H
           | H : ~ Qlt ?x q |- _ =>
               apply (proj2 (Hgt (Qnum x))) in H; simpl Qnum in H
           end;
    destruct (gt (FNum q) 20), (gt (FNum q) 18), (gt (FNum q) 16),
      (gt (FNum q) 14), b, (gt (FNum q) 12);
    simpl; try reflexivity; try discriminate;
    try (specialize (M1 eq_refl); discriminate);
    try (specialize (M2 eq_refl); discriminate);
    try (specialize (M3 eq_refl); discriminate).
Qed.

(** A block at 21.5pt gets level 1. *)
Lemma heading_level_assignment_witness :
  getHeadingLevel (FNum 21.5) false = Int 1.
Proof.
  apply (heading_level_assignment [] 21.5 false).
  reflexivity.
Defined.

(** ** Pass 2: the merge test *)

(** The test of Pass 2 in closed form: the third disjunct of the source
    is subsumed by the first. *)
Lemma shouldMerge_spec (current next : section) :
  shouldMerge current next = true <->
  (endsWithPunctuation (trim (content current)) = false
   /\ startsLowercase (trim (content next)) = true)
  \/ endsWith hyphen (trim (content current)) = true.
Proof.
  unfold shouldMerge.
  destruct (endsWithPunctuation (trim (content current))),
    (startsLowercase (trim (content next))),
    (endsWith hyphen (trim (content current))),
    (length (trim (content current)) <? 100)%nat; simpl;
    split; intros H; try reflexivity; try discriminate; auto;
    destruct H as [[? ?] | ?]; discriminate.
Qed.

(** What the source calls "starts with a lowercase letter" holds of every
    first code unit that lower-casing leaves unchanged. *)
Lemma startsLowercase_spec (s : text) :
  startsLowercase s = true <->
  exists c r, s = c :: r /\ toLowerCaseChar c = c.
Proof.
  unfold startsLowercase, chr_eqb. destruct s as [|c r].
  - split; [discriminate | intros (c & r & H & _); discriminate].
  - rewrite Ascii.eqb_eq. split.
    + intros H. exists c, r. auto.
    + intros (c' & r' & H & H'). inversion H; subst. exact H'.
Qed.

(** It fails only at an uppercase letter: a digit, a bracket or a quote
    passes it like a lowercase letter does. *)
Lemma startsLowercase_not_capital (c : ascii) (r : text) :
  startsLowercase (c :: r)
  = negb (isUpperAZ c || (inRange 192 222 c && negb (code c =? 215)%N)).
Proof. ascii_cases c. Qed.

(** C3. Pass 2 joins the paragraphs "Total" and "42 items" although the
    second begins with a digit, which is no lowercase letter, and the
    first neither ends with a hyphen nor with a lowercase continuation. *)
Theorem pass2_merges_before_digit :
  mergeAdjacentParagraphs
    [createSection2 paragraph (T "Total"); createSection2 paragraph (T "42 items")]
  = [createSection2 paragraph (T "Total 42 items")]
  /\ isLowerAZ "4"%char = false
  /\ trim (T "42 items") <> []
  /\ endsWith hyphen (trim (T "Total")) = false.
Proof.
  repeat split; try reflexivity. discriminate.
Qed.

(** ** Hyphenation repair *)

Lemma takeWhile_dropWhile (p : ascii -> bool) (s : text) :
  takeWhile p s ++ dropWhile p s = s.
Proof.
  induction s as [|c r IH]; simpl; [reflexivity|].
  destruct (p c); simpl; [rewrite IH|]; reflexivity.
Qed.

Lemma takeWhile_all (p : ascii -> bool) (s : text) :
  forallb p (takeWhile p s) = true.
Proof.
  induction s as [|c r IH]; simpl; [reflexivity|].
  destruct (p c) eqn:E; simpl; [rewrite E; exact IH | reflexivity].
Qed.

Lemma dropWhile_head (p : ascii -> bool) (s : text) (c : ascii) (r : text) :
  dropWhile p s = c :: r -> p c = false.
Proof.
  induction s as [|x s IH]; simpl; [discriminate|].
  destruct (p x) eqn:E; [exact IH | intros H; inversion H; subst; exact E].
Qed.

Lemma dropWhile_nil (p : ascii -> bool) (s : text) :
  dropWhile p s = [] <-> forallb p s = true.
Proof.
  induction s as [|x s IH]; simpl; [tauto|].
  destruct (p x); simpl; [exact IH | split; discriminate].
Qed.

(** The shape of the input at a match of the hyphenation pattern. *)
Lemma matchHyphenated_shape (s w rest : text) (l : ascii) :
  matchHyphenated s = Some (w, l, rest) ->
  exists ws,
    s = w ++ hyphen :: ws ++ l :: rest
    /\ forallb isWord w = true /\ (2 <= length w)%nat
    /\ forallb isSpace ws = true /\ isLowerAZ l = true.
Proof.
  unfold matchHyphenated.
  destruct (2 <=? length (takeWhile isWord s))%nat eqn:Elen; [|discriminate].
  destruct (dropWhile isWord s) as [|h r] eqn:Edrop; [discriminate|].
  destruct (chr_eqb h hyphen) eqn:Eh; [|discriminate].
  destruct (dropWhile isSpace r) as [|c r'] eqn:Esp; [discriminate|].
  destruct (isLowerAZ c) eqn:Elow; [|discriminate].
  intros H. inversion H; subst. clear H.
  exists (takeWhile isSpace r).
  apply Ascii.eqb_eq in Eh. subst h.
  repeat split.
  - rewrite <- Esp, takeWhile_dropWhile, <- Edrop, takeWhile_dropWhile. reflexivity.
  - apply takeWhile_all.
  - apply Nat.leb_le. exact Elen.
  - apply takeWhile_all.
  - exact Elow.
Qed.

Lemma matchHyphenated_shorter (s w rest : text) (l : ascii) :
  matchHyphenated s = Some (w, l, rest) -> (length rest < length s)%nat.
Proof.
  intros H. apply matchHyphenated_shape in H as (ws & -> & _).
  rewrite !length_app. simpl. rewrite length_app. simpl. lia.
Qed.

(** The repair does not depend on the number of steps allowed, once that
    number reaches the length of the input: the scan always ends. *)
Lemma replaceHyphenated_fuel (n m : nat) (s : text) :
  (length s <= n)%nat -> (length s <= m)%nat ->
  replaceHyphenated n s = replaceHyphenated m s.
Proof.
  revert m s. induction n as [|n IH]; intros m s Hn Hm.
  - destruct s; [|simpl in Hn; lia]. destruct m; reflexivity.
  - destruct m as [|m].
    + destruct s; [reflexivity | simpl in Hm; lia].
    + simpl. destruct s as [|c r]; [reflexivity|].
      destruct (matchHyphenated (c :: r)) as [[[w l] rest]|] eqn:E.
      * pose proof (matchHyphenated_shorter _ _ _ _ E) as Hlt.
        simpl in Hn, Hm, Hlt. f_equal. f_equal. apply IH; lia.
      * simpl in Hn, Hm. f_equal. apply IH; lia.
Qed.

Lemma hyphenCount_app (a b : text) :
  hyphenCount (a ++ b) = (hyphenCount a + hyphenCount b)%nat.
Proof. apply count_occ_app. Qed.

(** Every repair that changes the string removes a hyphen. *)
Lemma replaceHyphenated_hyphens (fuel : nat) (s : text) :
  replaceHyphenated fuel s = s
  \/ (hyphenCount (replaceHyphenated fuel s) < hyphenCount s)%nat.
Proof.
  revert s. induction fuel as [|fuel IH]; intros s; simpl; [left; reflexivity|].
  destruct s as [|c r]; [left; reflexivity|].
  destruct (matchHyphenated (c :: r)) as [[[w l] rest]|] eqn:E.
  - right. apply matchHyphenated_shape in E as (ws & -> & _).
    assert (Hle : (hyphenCount (replaceHyphenated fuel rest) <= hyphenCount rest)%nat).
    { destruct (IH rest) as [-> | H]; lia. }
    rewrite !hyphenCount_app.
    change (hyphen :: ws ++ l :: rest) with ([hyphen] ++ ws ++ [l] ++ rest).
    change (l :: replaceHyphenated fuel rest)
      with ([l] ++ replaceHyphenated fuel rest).
    rewrite !hyphenCount_app.
    assert (hyphenCount [hyphen] = 1%nat) by reflexivity. lia.
  - destruct (IH r) as [-> | H]; [left; reflexivity | right].
    unfold hyphenCount in *. simpl. destruct (ascii_dec c hyphen); lia.
Qed.

Lemma fixHyphenatedWords_no_hyphen (s : text) :
  hyphenCount s = 0%nat -> fixHyphenatedWords s = s.
Proof.
  intros H. unfold fixHyphenatedWords.
  destruct (replaceHyphenated_hyphens (length s) s) as [-> | Hlt]; [reflexivity | lia].
Qed.

Lemma fixHyphenatedWords_twice (s : text) :
  (hyphenCount s <= 1)%nat ->
  fixHyphenatedWords (fixHyphenatedWords s) = fixHyphenatedWords s.
Proof.
  intros H.
  destruct (replaceHyphenated_hyphens (length s) s) as [E | Hlt];
    fold (fixHyphenatedWords s) in *.
  - rewrite E. exact E.
  - apply fixHyphenatedWords_no_hyphen. lia.
Qed.

Lemma isParagraph_fixContent (s : section) :
  isParagraph (fixContent s) = isParagraph s.
Proof. unfold fixContent. destruct (content s); reflexivity. Qed.

Lemma content_fixContent (s : section) :
  content (fixContent s) = fixHyphenatedWords (content s).
Proof.
  unfold fixContent. destruct (content s) eqn:E; simpl; rewrite ?E; reflexivity.
Qed.

(** Where no repaired paragraph ends in a hyphen, Pass 1 only repairs each
    section's own content. *)
Lemma mergeHyphenatedWords_no_merge (l : list section) :
  Forall (fun s => isParagraph s = true ->
                   endsWith hyphen (trim (content (fixContent s))) = false) l ->
  mergeHyphenatedWords l = map fixContent l.
Proof.
  induction l as [|a l IH]; intros H; [reflexivity|].
  inversion H as [|? ? Ha Hl]; subst.
  specialize (IH Hl).
  destruct l as [|b l'].
  - reflexivity.
  - rewrite mergeHyphenatedWords_two.
    rewrite IH, isParagraph_fixContent.
    destruct (isParagraph a) eqn:Ep.
    + unfold hyphenMergeable. rewrite (Ha eq_refl).
      rewrite andb_false_r. reflexivity.
    + reflexivity.
Qed.

(** C2 (counterexample). Pass 1 is not idempotent: the repair of one match
    can expose the next one ("ab-cd-ef" becomes "abcd-ef", then "abcdef"),
    and so can a merge of two paragraphs ("a-", "b-", "c" become "ab-",
    "c", then "abc"). *)
Lemma pass1_not_idempotent :
  mergeHyphenatedWords (mergeHyphenatedWords [createSection2 paragraph (T "ab-cd-ef")])
  <> mergeHyphenatedWords [createSection2 paragraph (T "ab-cd-ef")]
  /\ mergeHyphenatedWords
       (mergeHyphenatedWords
          [createSection2 paragraph (T "a-"); createSection2 paragraph (T "b-");
           createSection2 paragraph (T "c")])
     <> mergeHyphenatedWords
          [createSection2 paragraph (T "a-"); createSection2 paragraph (T "b-");
           createSection2 paragraph (T "c")].
Proof.
  split; vm_compute; discriminate.
Qed.

(** ** Sanitization *)


Lemma noLt_app (a b : text) : noLt (a ++ b) = noLt a && noLt b.
Proof. apply forallb_app. Qed.










Lemma escapeChar_cases (c : ascii) :
  (c = ampersand /\ escapeChar c = T "&amp;")
  \/ (c = nbsp /\ escapeChar c = T "&nbsp;")
  \/ (c = lt_sign /\ escapeChar c = T "&lt;")
  \/ (c = gt_sign /\ escapeChar c = T "&gt;")
  \/ (plainChar c = true /\ c <> ampersand /\ escapeChar c = [c]).
Proof.
  destruct c as [[] [] [] [] [] [] [] []];
    first [ right; right; right; right; split; [reflexivity | split; [discriminate | reflexivity]]
          | left; split; reflexivity
          | right; left; split; reflexivity
          | right; right; left; split; reflexivity
          | right; right; right; left; split; reflexivity ].
Qed.

Lemma escapeHtml_cons (c : ascii) (r : text) :
  escapeHtml (c :: r) = escapeChar c ++ escapeHtml r.
Proof. reflexivity. Qed.

Lemma escapeHtml_injective (a b : text) : escapeHtml a = escapeHtml b -> a = b.
Proof.
  revert b. induction a as [|x a IH]; intros [|y b] H.
  - reflexivity.
  - rewrite escapeHtml_cons in H.
    destruct (escapeChar_cases y) as [[_ E]|[[_ E]|[[_ E]|[[_ E]|[_ [_ E]]]]]];
      rewrite E in H; discriminate.
  - rewrite escapeHtml_cons in H.
    destruct (escapeChar_cases x) as [[_ E]|[[_ E]|[[_ E]|[[_ E]|[_ [_ E]]]]]];
      rewrite E in H; discriminate.
  - rewrite !escapeHtml_cons in H.
    destruct (escapeChar_cases x) as [[Hx Ex]|[[Hx Ex]|[[Hx Ex]|[[Hx Ex]|[_ [Hx Ex]]]]]];
      destruct (escapeChar_cases y) as [[Hy Ey]|[[Hy Ey]|[[Hy Ey]|[[Hy Ey]|[_ [Hy Ey]]]]]];
      rewrite Ex, Ey in H; cbn [T list_ascii_of_string app] in H;
      try discriminate H;
      try (injection H as H; f_equal; [congruence | apply IH; exact H]);
      try (injection H as H0 H; exfalso; unfold ampersand in *; congruence).
    injection H as H0 H. f_equal; [exact H0 | apply IH, H].
Qed.






(** ** Invariants of the section sequence *)

Lemma lower_not_space (c : ascii) : isLowerAZ c = true -> isSpace c = false.
Proof. ascii_cases c. Qed.

Lemma word_not_space (c : ascii) : isWord c = true -> isSpace c = false.
Proof. ascii_cases c. Qed.

Lemma forallb_rev (p : ascii -> bool) (s : text) : forallb p (rev s) = forallb p s.
Proof.
  induction s as [|c r IH]; [reflexivity|].
  simpl. rewrite forallb_app, IH. simpl. rewrite andb_true_r. apply andb_comm.
Qed.

Lemma trim_nil_iff (s : text) : trim s = [] <-> forallb isSpace s = true.
Proof.
  unfold trim, trimEnd, trimStart.
  rewrite <- dropWhile_nil.
  split.
  - intros H. apply (f_equal (@rev ascii)) in H. rewrite rev_involutive in H.
    simpl in H. apply dropWhile_nil in H. rewrite forallb_rev in H.
    destruct (dropWhile isSpace s) as [|c r] eqn:E; [reflexivity|].
    apply dropWhile_head in E. simpl in H. rewrite E in H. discriminate.
  - intros ->. reflexivity.
Qed.

Lemma trim_nonblank (s : text) : trim s <> [] -> nonblank (trim s).
Proof.
  unfold nonblank. intros H.
  unfold trim, trimEnd in *.
  destruct (dropWhile isSpace (rev (trimStart s))) as [|c r] eqn:E;
    [exfalso; apply H; reflexivity|].
  apply dropWhile_head in E. rewrite forallb_rev. simpl. rewrite E. reflexivity.
Qed.

Lemma nonblank_trim (s : text) : nonblank s <-> trim s <> [].
Proof.
  unfold nonblank. rewrite trim_nil_iff.
  destruct (forallb isSpace s); split; congruence.
Qed.

Lemma nonblank_app_l (a b : text) : nonblank a -> nonblank (a ++ b).
Proof. unfold nonblank. intros H. rewrite forallb_app, H. reflexivity. Qed.

Lemma nonblank_app_r (a b : text) : nonblank b -> nonblank (a ++ b).
Proof. unfold nonblank. intros H. rewrite forallb_app, H. apply andb_false_r. Qed.

Lemma replaceHyphenated_nonblank (fuel : nat) (s : text) :
  nonblank s -> nonblank (replaceHyphenated fuel s).
Proof.
  revert s. induction fuel as [|fuel IH]; intros s H; [exact H|].
  simpl. destruct s as [|c r]; [exact H|].
  destruct (matchHyphenated (c :: r)) as [[[w l] rest]|] eqn:E.
  - apply matchHyphenated_shape in E as (ws & _ & _ & _ & _ & Hl).
    apply nonblank_app_r. unfold nonblank. simpl.
    rewrite (lower_not_space l Hl). reflexivity.
  - unfold nonblank in *. simpl in *.
    destruct (isSpace c); [|reflexivity]. simpl in *. apply IH. exact H.
Qed.

Lemma fixHyphenatedWords_nonblank (s : text) :
  nonblank s -> nonblank (fixHyphenatedWords s).
Proof. apply replaceHyphenated_nonblank. Qed.

Lemma fixContent_wellFormed (s : section) : wellFormed s -> wellFormed (fixContent s).
Proof.
  unfold fixContent. destruct (content s) as [|c r] eqn:E; [tauto|].
  unfold wellFormed. simpl. rewrite E.
  destruct (type s); try tauto.
  - intros [H1 H2]. split; [apply fixHyphenatedWords_nonblank, H1 | exact H2].
  - apply fixHyphenatedWords_nonblank.
Qed.

Lemma mergeHyphenatedWords_wellFormed (l : list section) :
  Forall wellFormed l -> Forall wellFormed (mergeHyphenatedWords l).
Proof.
  induction l as [| a | a b l IH1 IH2] using pair_induction; intros H.
  - constructor.
  - inversion H; subst. simpl. constructor; [apply fixContent_wellFormed|]; assumption.
  - inversion H as [|? ? Ha Hbl]; subst. inversion Hbl as [|? ? Hb Hl]; subst.
    rewrite mergeHyphenatedWords_two.
    destruct (isParagraph (fixContent a) && isParagraph b
              && hyphenMergeable (fixContent a) b) eqn:E.
    + constructor; [|apply IH1, Hl].
      apply andb_prop in E as [_ E]. unfold hyphenMergeable in E.
      apply andb_prop in E as [E _]. apply andb_prop in E as [_ E].
      unfold hyphenMerge, wellFormed. simpl.
      apply fixHyphenatedWords_nonblank, nonblank_app_r, trim_nonblank.
      intros Hnil. rewrite Hnil in E. discriminate.
    + constructor; [apply fixContent_wellFormed, Ha | apply IH2, Hbl].
Qed.

Lemma paragraph_nonblank (s : section) :
  wellFormed s -> isParagraph s = true -> nonblank (content s).
Proof. unfold wellFormed, isParagraph. destruct (type s); intros; try discriminate; tauto. Qed.

Lemma heading_wellFormed (s : section) :
  wellFormed s -> isHeading s = true ->
  nonblank (content s) /\ levelInRange (level s).
Proof. unfold wellFormed, isHeading. destruct (type s); intros; try discriminate; tauto. Qed.

Lemma mergeScan_wellFormed (l : list section) :
  Forall wellFormed l -> Forall wellFormed (fst (mergeScan l)).
Proof.
  induction l as [| a | a b l IH1 IH2] using pair_induction; intros H.
  - constructor.
  - exact H.
  - inversion H as [|? ? Ha Hbl]; subst. inversion Hbl as [|? ? Hb Hl]; subst.
    specialize (IH1 Hl). specialize (IH2 Hbl).
    rewrite mergeScan_two.
    destruct (mergeScan (b :: l)) as [out2 ch2].
    destruct (mergeScan l) as [out1 ch1].
    simpl in IH1, IH2.
    destruct (isParagraph a && isParagraph b) eqn:E;
      [destruct (trim (content b)); [|destruct (shouldMerge a b)]|];
      simpl; constructor; auto.
    apply andb_prop in E as [E _].
    unfold wellFormed. simpl. apply nonblank_app_l, paragraph_nonblank; assumption.
Qed.

Lemma mergeAdjacentParagraphs_wellFormed (l : list section) :
  Forall wellFormed l -> Forall wellFormed (mergeAdjacentParagraphs l).
Proof.
  unfold mergeAdjacentParagraphs. generalize (length l) as fuel. intros fuel.
  revert l. induction fuel as [|fuel IH]; intros l H; [exact H|].
  simpl. pose proof (mergeScan_wellFormed l H) as Hs.
  destruct (mergeScan l) as [out ch]. simpl in Hs.
  destruct ch; [apply IH|]; exact Hs.
Qed.

Lemma mergeAdjacentHeadings_wellFormed (l : list section) :
  Forall wellFormed l -> Forall wellFormed (mergeAdjacentHeadings l).
Proof.
  induction l as [| a | a b l IH1 IH2] using pair_induction; intros H.
  - constructor.
  - exact H.
  - inversion H as [|? ? Ha Hbl]; subst. inversion Hbl as [|? ? Hb Hl]; subst.
    specialize (IH1 Hl). specialize (IH2 Hbl).
    rewrite mergeAdjacentHeadings_two.
    destruct (isHeading a) eqn:Eh; simpl; [|constructor; assumption].
    destruct (heading_wellFormed a Ha Eh) as [Hn Hlv].
    assert (Hm : forall x, wellFormed (createSection heading (content a ++ x) (level a) [])).
    { intros x. unfold wellFormed. simpl. split; [apply nonblank_app_l, Hn | exact Hlv]. }
    destruct (isParagraph b && _ && _).
    + destruct (remainingLinesOf (trim (content b))) as [|c r] eqn:Er.
      * constructor; [apply Hm | exact IH1].
      * constructor; [apply Hm|]. constructor; [|exact IH1].
        unfold wellFormed. simpl. rewrite <- Er. unfold remainingLinesOf.
        apply trim_nonblank. fold (remainingLinesOf (trim (content b))).
        rewrite Er. discriminate.
    + destruct (isHeading b && jsint_eqb (level a) (level b)).
      * constructor; [apply Hm | exact IH1].
      * constructor; assumption.
Qed.

Lemma mergePipeline_wellFormed (l : list section) :
  Forall wellFormed l -> Forall wellFormed (mergePipeline l).
Proof.
  intros H. unfold mergePipeline.
  apply mergeAdjacentHeadings_wellFormed, mergeAdjacentParagraphs_wellFormed,
    mergeHyphenatedWords_wellFormed, H.
Qed.

Lemma isHeadingTag_level (t : text) :
  isHeadingTag t = true -> levelInRange (parseIntCharAt1 t).
Proof.
  destruct t as [|h [|d [|x t]]]; try discriminate.
  simpl. intros H. apply andb_prop in H as [_ H].
  unfold levelInRange.
  destruct d as [[] [] [] [] [] [] [] []]; try discriminate H;
    vm_compute; eexists; (split; [reflexivity | split; discriminate]).
Qed.

Lemma getHeadingLevel_range (fs : jsnum) (b : bool) :
  levelInRange (getHeadingLevel fs b).
Proof.
  unfold getHeadingLevel, levelInRange.
  repeat match goal with |- context [if ?c then _ else _] => destruct c end;
    eexists; (split; [reflexivity | lia]).
Qed.

Lemma extractNestedHeading_wellFormed (el : node) (nh : nestedHeading) :
  extractNestedHeading el = Some nh ->
  wellFormed (nested_heading nh)
  /\ (remainingText nh = [] \/ nonblank (remainingText nh)).
Proof.
  unfold extractNestedHeading.
  destruct (firstElementChild el) as [fc|]; [|discriminate].
  destruct (extractFontProperties el) as [fs b].
  destruct (trim (textContent fc)) as [|c r] eqn:Et; [discriminate|].
  destruct (negb (isHeadingTag (tagOf fc)) && _) eqn:Eg; [discriminate|].
  intros H. inversion H; subst; clear H. simpl. split.
  - unfold wellFormed. simpl. split.
    + rewrite <- Et. apply trim_nonblank. rewrite Et. discriminate.
    + destruct (isHeadingTag (tagOf fc)) eqn:Eh.
      * apply isHeadingTag_level, Eh.
      * unfold levelInRange.
        destruct (gt fs 18); [|destruct (gt fs 16)];
          eexists; (split; [reflexivity | lia]).
  - match goal with |- trim ?x = [] \/ _ => destruct (trim x) eqn:E end.
    + left. reflexivity.
    + right. rewrite <- E. apply trim_nonblank. rewrite E. discriminate.
Qed.

Lemma processHeading_wellFormed (el : node) (id : path) (S S' : processedSet)
    (s : section) :
  isHeadingTag (tagOf el) = true ->
  processHeading el id S = (Some s, S') -> wellFormed s.
Proof.
  intros Ht. unfold processHeading.
  destruct (trim (textContent el)) as [|c r] eqn:Et; [discriminate|].
  intros H. inversion H; subst; clear H.
  unfold wellFormed. simpl. split.
  - rewrite <- Et. apply trim_nonblank. rewrite Et. discriminate.
  - apply isHeadingTag_level, Ht.
Qed.

Lemma processImage_wellFormed (el : node) (id : path) (S S' : processedSet)
    (s : section) :
  processImage el id S = (Some s, S') -> wellFormed s.
Proof.
  unfold processImage.
  destruct (getAttribute (T "src") el) as [[|c r]|]; try discriminate.
  intros H. inversion H; subst. exact I.
Qed.

Lemma processTextElement_wellFormed (el : node) (tagName : text) (id : path)
    (S S' : processedSet) (r : textResult) :
  processTextElement el tagName id S = (r, S') ->
  Forall wellFormed (resultSections r).
Proof.
  unfold processTextElement.
  destruct (trim (textContent el)) as [|c t] eqn:Et.
  { intros H. inversion H; subst. constructor. }
  assert (Hn : nonblank (c :: t)).
  { rewrite <- Et. apply trim_nonblank. rewrite Et. discriminate. }
  destruct (extractFontProperties el) as [fs b].
  destruct (if isP_or_div tagName then extractNestedHeading el else None)
    as [nh|] eqn:En.
  - assert (Hnh : extractNestedHeading el = Some nh)
      by (destruct (isP_or_div tagName); [exact En | discriminate]).
    apply extractNestedHeading_wellFormed in Hnh as [Hh Hr].
    intros H. inversion H; subst; clear H. simpl.
    constructor; [exact Hh|].
    destruct (remainingText nh) as [|x xs] eqn:Er; [constructor|].
    constructor; [|constructor].
    destruct Hr as [Hr | Hr]; [discriminate | exact Hr].
  - destruct (isLikelyHeading (c :: t) fs b).
    + intros H. inversion H; subst. simpl. constructor; [|constructor].
      split; [exact Hn | apply getHeadingLevel_range].
    + destruct (isP_or_div tagName).
      * intros H. inversion H; subst. simpl. constructor; [exact Hn | constructor].
      * destruct (text_eqb tagName (T "span") && _);
          intros H; inversion H; subst; simpl; constructor; [exact Hn | constructor].
Qed.

Lemma visit_wellFormed (st : walkState) (idel : path * node) :
  Forall wellFormed (sections st) -> Forall wellFormed (sections (visit st idel)).
Proof.
  intros H. destruct idel as [id el]. unfold visit.
  destruct (bool_decide (id ∈ processedElements st)); [exact H|].
  destruct (isPageMarker el); [exact H|].
  destruct (isParentProcessed id (processedElements st)); [exact H|].
  destruct (text_eqb (tagOf el) (T "img")).
  { destruct (processImage el id (processedElements st)) as [[s|] S'] eqn:E;
      simpl; [|exact H].
    apply Forall_app. split; [exact H|].
    constructor; [|constructor]. eapply processImage_wellFormed, E. }
  destruct (isHeadingTag (tagOf el)) eqn:Eh.
  { destruct (processHeading el id (processedElements st)) as [[s|] S'] eqn:E;
      simpl; [|exact H].
    apply Forall_app. split; [exact H|].
    constructor; [|constructor]. eapply processHeading_wellFormed; eassumption. }
  destruct (isP_or_div (tagOf el) || text_eqb (tagOf el) (T "span")); [|exact H].
  destruct (processTextElement el (tagOf el) id (processedElements st))
    as [r S'] eqn:E.
  apply processTextElement_wellFormed in E.
  destruct r; simpl in *; [exact H | |]; apply Forall_app; split; assumption.
Qed.

Lemma fold_visit_wellFormed (l : list (path * node)) (st : walkState) :
  Forall wellFormed (sections st) ->
  Forall wellFormed (sections (fold_left visit l st)).
Proof.
  revert st. induction l as [|x l IH]; intros st H; [exact H|].
  simpl. apply IH, visit_wellFormed, H.
Qed.

Lemma collectSections_wellFormed (html : list node) :
  Forall wellFormed (collectSections html).
Proof. apply fold_visit_wellFormed. constructor. Qed.

Lemma parseHTMLIntoBlocks_wellFormed (html : list node) :
  Forall wellFormed (parseHTMLIntoBlocks html).
Proof. apply mergePipeline_wellFormed, collectSections_wellFormed. Qed.

Lemma extractSectionsFromDocument_concat (doc : list (list node)) :
  extractSectionsFromDocument doc = concat (map parseHTMLIntoBlocks doc).
Proof.
  unfold extractSectionsFromDocument.
  assert (H : forall acc,
             fold_left (fun sections pageHTML => sections ++ parseHTMLIntoBlocks pageHTML)
                       doc acc
             = acc ++ concat (map parseHTMLIntoBlocks doc)).
  { induction doc as [|p doc IH]; intros acc; simpl.
    - rewrite app_nil_r. reflexivity.
    - rewrite IH, app_assoc. reflexivity. }
  apply H.
Qed.

Lemma extractSectionsFromDocument_wellFormed (doc : list (list node)) :
  Forall wellFormed (extractSectionsFromDocument doc).
Proof.
  rewrite extractSectionsFromDocument_concat.
  induction doc as [|p doc IH]; simpl; [constructor|].
  apply Forall_app. split; [apply parseHTMLIntoBlocks_wellFormed | exact IH].
Qed.

(** C9. Non-empty section invariant: every section that
    [parseHTMLIntoBlocks] returns after its three merge passes is an image
    section or has non-empty trimmed content. *)
Theorem parseHTMLIntoBlocks_nonempty (html : list node) :
  Forall (fun s => type s = image \/ trim (content s) <> [])
         (parseHTMLIntoBlocks html).
Proof.
  eapply Forall_impl; [apply parseHTMLIntoBlocks_wellFormed|].
  intros s H. unfold wellFormed in H.
  destruct (type s); [right | right | left; reflexivity];
    apply nonblank_trim; tauto.
Qed.

(** C10. Heading level range: every heading section collected by the walk
    (from a heading tag, from the classifier or from a nested heading),
    every one returned by [parseHTMLIntoBlocks] after the merge passes and
    every one returned by [extractSectionsFromDocument] has an integer
    level between 1 and 6, which the renderer uses as it is. *)
Theorem heading_level_range (html : list node) (doc : list (list node)) :
  let inRange := fun s =>
    type s = heading ->
    exists k, level s = Int k /\ (1 <= k <= 6)%Z /\ headingTagLevel (level s) = k in
  Forall inRange (collectSections html)
  /\ Forall inRange (parseHTMLIntoBlocks html)
  /\ Forall inRange (extractSectionsFromDocument doc).
Proof.
  intros inRange.
  assert (H : forall l, Forall wellFormed l -> Forall inRange l).
  { intros l Hl. eapply Forall_impl; [exact Hl|].
    intros s Hs Hty. unfold wellFormed in Hs. rewrite Hty in Hs.
    destruct Hs as [_ (k & Hk & Hr)]. exists k. repeat split; try tauto; try lia.
    rewrite Hk. unfold headingTagLevel.
    destruct (Z.eqb_spec k 0); lia. }
  repeat split; apply H.
  - apply collectSections_wellFormed.
  - apply parseHTMLIntoBlocks_wellFormed.
  - apply extractSectionsFromDocument_wellFormed.
Qed.

(** ** The walk, element by element *)

Lemma dummy_not_processed (d : Decision ([0%nat] ∈ (∅ : processedSet))) :
  @bool_decide _ d = false.
Proof. apply bool_decide_eq_false_2. set_solver. Qed.

Lemma dummy_added (d : Decision ([0%nat] ∈ ({[ [0%nat] ]} ∪ ∅ : processedSet))) :
  @bool_decide _ d = true.
Proof. apply bool_decide_eq_true_2. set_solver. Qed.

Lemma visit_spec (st : walkState) (id : path) (el : node) :
  visit st (id, el)
  = if bool_decide (id ∈ processedElements st)
       || isParentProcessed id (processedElements st)
    then st
    else {| sections := sections st ++ emitted el;
            processedElements :=
              if consumes el then {[ id ]} ∪ processedElements st
              else processedElements st |}.
Proof.
  destruct st as [secs S].
  unfold emitted, consumes, visitAlone, visit, initialState.
  cbn [sections processedElements].
  rewrite dummy_not_processed.
  destruct (bool_decide (id ∈ S)); [reflexivity|]. cbn [orb].
  destruct (isPageMarker el).
  { cbn [sections processedElements]. rewrite dummy_not_processed, app_nil_r.
    destruct (isParentProcessed id S); reflexivity. }
  destruct (isParentProcessed id S); [reflexivity|].
  change (isParentProcessed [0%nat] ∅) with false. cbv iota.
  destruct (text_eqb (tagOf el) (T "img")).
  { unfold processImage.
    destruct (getAttribute (T "src") el) as [[|c r]|];
      cbn [sections processedElements];
      rewrite ?dummy_not_processed, ?dummy_added, ?app_nil_r; reflexivity. }
  destruct (isHeadingTag (tagOf el)).
  { unfold processHeading.
    destruct (trim (textContent el)) as [|c r];
      cbn [sections processedElements];
      rewrite ?dummy_not_processed, ?dummy_added, ?app_nil_r; reflexivity. }
  destruct (isP_or_div (tagOf el) || text_eqb (tagOf el) (T "span")).
  2: { cbn [sections processedElements].
       rewrite dummy_not_processed, app_nil_r. reflexivity. }
  unfold processTextElement.
  destruct (trim (textContent el)) as [|c r].
  { cbn [sections processedElements].
    rewrite dummy_not_processed, app_nil_r. reflexivity. }
  destruct (extractFontProperties el) as [fs b].
  destruct (if isP_or_div (tagOf el) then extractNestedHeading el else None).
  { cbn [sections processedElements]. rewrite dummy_added. reflexivity. }
  destruct (isLikelyHeading (c :: r) fs b).
  { cbn [sections processedElements]. rewrite dummy_added. reflexivity. }
  destruct (isP_or_div (tagOf el)).
  { cbn [sections processedElements]. rewrite dummy_added. reflexivity. }
  destruct (text_eqb (tagOf el) (T "span") && (50 <? length (c :: r))%nat);
    cbn [sections processedElements];
    rewrite ?dummy_not_processed, ?dummy_added, ?app_nil_r; reflexivity.
Qed.

Lemma walkNode_element (id : path) (t : text) (a : list (text * text))
    (ch : list node) :
  walkNode id (Element t a ch) = (id, Element t a ch) :: walkChildren id 0 ch.
Proof.
  simpl. f_equal. generalize 0%nat as i.
  induction ch as [|c r IH]; intros i; simpl; [reflexivity|].
  rewrite IH. reflexivity.
Qed.

Lemma below_refl (id : path) : below id id.
Proof. exists []. reflexivity. Qed.

Lemma below_length (id q : path) : below id q -> (length id <= length q)%nat.
Proof. intros [k ->]. rewrite length_app. lia. Qed.

Lemma below_child (j : nat) (id q : path) : below (j :: id) q -> below id q.
Proof. intros [k ->]. exists (k ++ [j]). rewrite <- app_assoc. reflexivity. Qed.

Lemma below_same_child (i j : nat) (id q : path) :
  below (i :: id) q -> below (j :: id) q -> i = j.
Proof.
  intros [k1 H1] [k2 H2]. rewrite H1 in H2.
  apply app_inj_2 in H2 as [_ H2]; [congruence | reflexivity].
Qed.

(** The ancestor check looks only at paths that are no longer than its
    starting point. *)
Lemma ancestorProcessed_ext (p : path) (S1 S2 : processedSet) :
  (forall q, (length q <= length p)%nat -> q ∈ S1 <-> q ∈ S2) ->
  ancestorProcessed p S1 = ancestorProcessed p S2.
Proof.
  induction p as [|x up IH]; intros H; [reflexivity|].
  simpl. f_equal.
  - apply bool_decide_ext, H. lia.
  - apply IH. intros q Hq. apply H. simpl. lia.
Qed.

Lemma walkChildren_segment (ch : list node) :
  Forall walkCorrect ch ->
  forall (id : path) (i : nat) (S : processedSet) (secs : list section),
    (forall q, q ∈ S -> forall j, (i <= j)%nat -> ~ below (j :: id) q) ->
    exists S',
      fold_left visit (walkChildren id i ch)
                {| sections := secs; processedElements := S |}
      = {| sections := secs ++ flat_map (segment (ancestorProcessed id S)) ch;
           processedElements := S' |}
      /\ (forall q, q ∈ S -> q ∈ S')
      /\ (forall q, q ∈ S' -> q ∈ S \/ exists j, (i <= j)%nat /\ below (j :: id) q).
Proof.
  induction 1 as [|c ch Hc _ IH]; intros id i S secs Hfresh.
  - exists S. simpl. rewrite app_nil_r. auto.
  - simpl. rewrite fold_left_app.
    destruct (Hc (i :: id) S secs) as (S1 & E1 & Hsub1 & Hnew1).
    { discriminate. }
    { intros q Hq. apply (Hfresh q Hq i). lia. }
    rewrite E1.
    destruct (IH id (Datatypes.S i) S1 (secs ++ segment (isParentProcessed (i :: id) S) c))
      as (S2 & E2 & Hsub2 & Hnew2).
    { intros q Hq j Hj Hb. destruct (Hnew1 q Hq) as [Hq' | Hq'].
      - apply (Hfresh q Hq' j); [lia | exact Hb].
      - pose proof (below_same_child _ _ _ _ Hq' Hb). lia. }
    exists S2. rewrite E2. repeat split.
    + assert (Hanc : ancestorProcessed id S1 = ancestorProcessed id S).
      { apply ancestorProcessed_ext. intros q Hq. split; [|apply Hsub1].
        intros Hq1. destruct (Hnew1 q Hq1) as [? | Hb]; [assumption|].
        apply below_length in Hb. simpl in Hb. lia. }
      rewrite Hanc. unfold isParentProcessed. cbn [tl flat_map].
      rewrite app_assoc. reflexivity.
    + intros q Hq. apply Hsub2, Hsub1, Hq.
    + intros q Hq. destruct (Hnew2 q Hq) as [Hq1 | (j & Hj & Hb)].
      * destruct (Hnew1 q Hq1) as [? | Hb]; [left; assumption|].
        right. exists i. split; [lia | exact Hb].
      * right. exists j. split; [lia | exact Hb].
Qed.

Lemma walkNode_segment (n : node) : walkCorrect n.
Proof.
  induction n as [d | t a ch IH] using node_induction;
    intros id S secs Hid Hfresh.
  - exists S. simpl. rewrite app_nil_r. auto.
  - rewrite walkNode_element. cbn [fold_left].
    rewrite visit_spec. cbn [sections processedElements].
    assert (Hself : bool_decide (id ∈ S) = false).
    { apply bool_decide_eq_false_2. intros Hin.
      exact (Hfresh id Hin (below_refl id)). }
    rewrite Hself. cbn [orb].
    destruct id as [|i0 up]; [congruence|].
    set (el := Element t a ch).
    set (S1 := if isParentProcessed (i0 :: up) S then S
               else if consumes el then {[ i0 :: up ]} ∪ S else S).
    assert (HS1 : forall q, q ∈ S1 <-> q ∈ S \/ (q = i0 :: up /\ q ∈ S1)).
    { intros q. subst S1.
      destruct (isParentProcessed (i0 :: up) S); [tauto|].
      destruct (consumes el); [|tauto].
      rewrite elem_of_union, elem_of_singleton. tauto. }
    assert (Hfresh1 : forall q, q ∈ S1 ->
                      forall j, (0 <= j)%nat -> ~ below (j :: i0 :: up) q).
    { intros q Hq j _ Hb. apply HS1 in Hq as [Hq | [-> _]].
      - apply (Hfresh q Hq). eapply below_child, Hb.
      - apply below_length in Hb. simpl in Hb. lia. }
    assert (Hflag : ancestorProcessed (i0 :: up) S1
                    = isParentProcessed (i0 :: up) S || consumes el).
    { unfold isParentProcessed. cbn [tl ancestorProcessed].
      assert (Hup : ancestorProcessed up S1 = ancestorProcessed up S).
      { apply ancestorProcessed_ext. intros q Hq. rewrite HS1.
        split; [intros [? | [-> _]]; [assumption | simpl in Hq; lia] | tauto]. }
      rewrite Hup. subst S1. unfold isParentProcessed. cbn [tl].
      destruct (ancestorProcessed up S).
      - rewrite Hself. reflexivity.
      - destruct (consumes el); cbn [orb].
        + rewrite bool_decide_eq_true_2
            by (apply elem_of_union_l, elem_of_singleton; reflexivity).
          reflexivity.
        + rewrite Hself. reflexivity. }
    destruct (walkChildren_segment ch IH (i0 :: up) 0 S1
                (if isParentProcessed (i0 :: up) S then secs
                 else secs ++ emitted el) Hfresh1)
      as (S2 & E2 & Hsub2 & Hnew2).
    exists S2. repeat split.
    + transitivity
        (fold_left visit (walkChildren (i0 :: up) 0 ch)
           {| sections := if isParentProcessed (i0 :: up) S then secs
                          else secs ++ emitted el;
              processedElements := S1 |}).
      { subst S1. destruct (isParentProcessed (i0 :: up) S); reflexivity. }
      rewrite E2, Hflag. f_equal. cbn [segment]. fold el.
      destruct (isParentProcessed (i0 :: up) S); cbn [orb app];
        rewrite <- ?app_assoc; reflexivity.
    + intros q Hq. apply Hsub2, HS1. left. exact Hq.
    + intros q Hq. destruct (Hnew2 q Hq) as [Hq1 | (j & _ & Hb)].
      * apply HS1 in Hq1 as [? | [-> _]]; [left; assumption|].
        right. apply below_refl.
      * right. eapply below_child, Hb.
Qed.

(** The sections of a page are those of its top-level subtrees, none of
    which has a processed ancestor. *)
Lemma collectSections_segment (html : list node) :
  collectSections html = flat_map (segment false) html.
Proof.
  unfold collectSections, initialState.
  destruct (walkChildren_segment html) with (id := @nil nat) (i := 0%nat)
    (S := (∅ : processedSet)) (secs := @nil section) as (S' & E & _).
  - apply Forall_forall. intros n _. apply walkNode_segment.
  - intros q Hq. set_solver.
  - rewrite E. reflexivity.
Qed.

(** ** Page markers *)

Lemma visit_pageMarker (st : walkState) (id : path) (el : node) :
  isPageMarker el = true -> visit st (id, el) = st.
Proof.
  intros H. unfold visit. rewrite H.
  destruct (bool_decide (id ∈ processedElements st)); reflexivity.
Qed.

Lemma segment_pageMarker (blocked : bool) (t : text) (a : list (text * text))
    (kids : list node) :
  isPageMarker (Element t a kids) = true ->
  segment blocked (Element t a kids) = flat_map (segment blocked) kids.
Proof.
  intros H. cbn [segment].
  unfold emitted, consumes, visitAlone. rewrite (visit_pageMarker _ _ _ H).
  unfold initialState. cbn [sections processedElements].
  rewrite dummy_not_processed, orb_false_r.
  destruct blocked; reflexivity.
Qed.





Lemma text_eqb_false (x y : text) : x <> y -> text_eqb x y = false.
Proof. intros H. unfold text_eqb. apply bool_decide_eq_false_2, H. Qed.

Lemma visitAlone_heading (t : text) (a : list (text * text)) (kids : list node) :
  isHeadingTag t = true ->
  trim (textContent (Element t a kids)) <> [] ->
  visitAlone (Element t a kids)
  = {| sections := [createSection3 heading (trim (textContent (Element t a kids)))
                                   (parseIntCharAt1 t)];
       processedElements := {[ [0%nat] ]} ∪ ∅ |}.
Proof.
  intros Ht Hn. unfold visitAlone, visit, initialState.
  cbn [sections processedElements tagOf].
  rewrite dummy_not_processed.
  assert (Hpm : isPageMarker (Element t a kids) = false).
  { unfold isPageMarker. cbn [tagOf]. rewrite text_eqb_false; [reflexivity|].
    intros ->. discriminate Ht. }
  rewrite Hpm.
  change (isParentProcessed [0%nat] ∅) with false. cbv iota.
  rewrite text_eqb_false by (intros ->; discriminate Ht).
  rewrite Ht. unfold processHeading. cbn [tagOf].
  destruct (trim (textContent (Element t a kids))); [congruence | reflexivity].
Qed.








(** ** Paragraphs at a page boundary *)

Lemma lower_toLowerCase (c : ascii) : isLowerAZ c = true -> toLowerCaseChar c = c.
Proof. ascii_cases c. Qed.

Lemma dropWhile_app (p : ascii -> bool) (x y : text) :
  dropWhile p (x ++ y)
  = match dropWhile p x with
    | [] => dropWhile p y
    | c :: r => (c :: r) ++ y
    end.
Proof.
  induction x as [|c r IH]; [reflexivity|].
  simpl. destruct (p c); [exact IH | reflexivity].
Qed.

Lemma lastChar_trim (s : text) : lastChar (trim s) = lastNonSpace s.
Proof.
  unfold lastChar, lastNonSpace, trim, trimEnd, trimStart.
  rewrite rev_involutive.
  rewrite <- (takeWhile_dropWhile isSpace s) at 2.
  rewrite rev_app_distr, dropWhile_app.
  destruct (dropWhile isSpace (rev (dropWhile isSpace s))) as [|c r]; [|reflexivity].
  assert (H : dropWhile isSpace (rev (takeWhile isSpace s)) = []).
  { apply dropWhile_nil. rewrite forallb_rev. apply takeWhile_all. }
  rewrite H. reflexivity.
Qed.

Lemma lastNonSpace_app (a b : text) :
  lastNonSpace (a ++ b)
  = match lastNonSpace b with
    | Some x => Some x
    | None => lastNonSpace a
    end.
Proof.
  unfold lastNonSpace. rewrite rev_app_distr, dropWhile_app.
  destruct (dropWhile isSpace (rev b)); reflexivity.
Qed.

Lemma lastNonSpace_cons (c : ascii) (r : text) :
  lastNonSpace (c :: r)
  = match lastNonSpace r with
    | Some x => Some x
    | None => if isSpace c then None else Some c
    end.
Proof.
  change (c :: r) with ([c] ++ r). rewrite lastNonSpace_app.
  destruct (lastNonSpace r); [reflexivity|].
  unfold lastNonSpace. simpl. destruct (isSpace c); reflexivity.
Qed.

(** The repair keeps the last code unit that is not white space. *)
Lemma replaceHyphenated_lastNonSpace (fuel : nat) (s : text) :
  lastNonSpace (replaceHyphenated fuel s) = lastNonSpace s.
Proof.
  revert s. induction fuel as [|fuel IH]; intros s; [reflexivity|].
  simpl. destruct s as [|c r]; [reflexivity|].
  destruct (matchHyphenated (c :: r)) as [[[w l] rest]|] eqn:E.
  - apply matchHyphenated_shape in E as (ws & -> & _ & _ & _ & Hl).
    apply lower_not_space in Hl.
    change (w ++ hyphen :: ws ++ l :: rest) with (w ++ (hyphen :: ws) ++ l :: rest).
    rewrite app_assoc, !lastNonSpace_app, !lastNonSpace_cons, IH, Hl.
    destruct (lastNonSpace rest); reflexivity.
  - rewrite !lastNonSpace_cons, IH. reflexivity.
Qed.

Lemma trim_fix_lastChar (s : text) :
  lastChar (trim (fixHyphenatedWords s)) = lastChar (trim s).
Proof.
  rewrite !lastChar_trim. apply replaceHyphenated_lastNonSpace.
Qed.

(** The repair keeps the first code unit. *)
Lemma fixHyphenatedWords_head (c : ascii) (r : text) :
  exists r', fixHyphenatedWords (c :: r) = c :: r'.
Proof.
  unfold fixHyphenatedWords. simpl length. cbn [replaceHyphenated].
  destruct (matchHyphenated (c :: r)) as [[[w l] rest]|] eqn:E.
  - apply matchHyphenated_shape in E as (ws & Es & _ & Hlen & _).
    destruct w as [|x w]; [simpl in Hlen; lia|].
    inversion Es; subst. eexists. reflexivity.
  - eexists. reflexivity.
Qed.

Lemma dropWhile_idem (p : ascii -> bool) (s : text) :
  dropWhile p (dropWhile p s) = dropWhile p s.
Proof.
  induction s as [|c r IH]; [reflexivity|].
  simpl. destruct (p c) eqn:E; [exact IH | simpl; rewrite E; reflexivity].
Qed.

Lemma trimEnd_head (c : ascii) (r : text) :
  isSpace c = false -> exists r', trimEnd (c :: r) = c :: r'.
Proof.
  intros H. unfold trimEnd. simpl rev. rewrite dropWhile_app.
  destruct (dropWhile isSpace (rev r)) as [|x y].
  - simpl. rewrite H. eexists. reflexivity.
  - rewrite rev_app_distr. eexists. reflexivity.
Qed.

Lemma trimEnd_trimEnd (s : text) : trimEnd (trimEnd s) = trimEnd s.
Proof. unfold trimEnd. rewrite rev_involutive, dropWhile_idem. reflexivity. Qed.

Lemma trim_head (c : ascii) (r : text) :
  isSpace c = false -> exists r', trim (c :: r) = c :: r'.
Proof.
  intros H. unfold trim, trimStart. simpl. rewrite H. apply trimEnd_head, H.
Qed.

Lemma trim_trim (s : text) : trim (trim s) = trim s.
Proof.
  unfold trim. destruct (trimStart s) as [|y r] eqn:E; [reflexivity|].
  pose proof (dropWhile_head _ _ _ _ E) as Hy.
  destruct (trimEnd_head y r Hy) as [r' Hr]. rewrite Hr.
  unfold trimStart. simpl. rewrite Hy. rewrite <- Hr. apply trimEnd_trimEnd.
Qed.

Lemma emitted_plainParagraph (t : text) :
  nonblank t -> emitted (plainParagraph t) = [createSection2 paragraph (trim t)].
Proof.
  intros H. apply nonblank_trim in H.
  unfold emitted, visitAlone, visit, initialState, plainParagraph.
  cbn [sections processedElements tagOf].
  rewrite dummy_not_processed.
  change (isPageMarker (Element (T "p") [] [TextNode t])) with false.
  change (isParentProcessed [0%nat] ∅) with false.
  change (text_eqb (T "p") (T "img")) with false.
  change (isHeadingTag (T "p")) with false.
  change (isP_or_div (T "p") || text_eqb (T "p") (T "span")) with true.
  cbv iota. unfold processTextElement.
  change (textContent (Element (T "p") [] [TextNode t])) with (t ++ []).
  rewrite app_nil_r.
  destruct (trim t) as [|c r] eqn:E; [congruence|].
  change (extractFontProperties (Element (T "p") [] [TextNode t]))
    with (FNum 0, false).
  change (isP_or_div (T "p")) with true.
  change (extractNestedHeading (Element (T "p") [] [TextNode t]))
    with (@None nestedHeading).
  cbv iota.
  change (isLikelyHeading (c :: r) (FNum 0) false) with false.
  reflexivity.
Qed.

Lemma segment_plainParagraph (t : text) :
  nonblank t ->
  segment false (plainParagraph t) = [createSection2 paragraph (trim t)].
Proof.
  intros H. unfold plainParagraph. cbn [segment flat_map].
  fold (plainParagraph t). rewrite (emitted_plainParagraph t H). reflexivity.
Qed.

Lemma mergePipeline_single (s : section) :
  mergePipeline [s] = [fixContent s].
Proof. reflexivity. Qed.

Lemma parse_single_page (n t : text) :
  isPageId (T "page" ++ n) = true ->
  nonblank t ->
  parseHTMLIntoBlocks [pageDiv n [plainParagraph t]]
  = [createSection2 paragraph (fixHyphenatedWords (trim t))].
Proof.
  intros Hn H.
  change (parseHTMLIntoBlocks [pageDiv n [plainParagraph t]])
    with (mergePipeline (collectSections [pageDiv n [plainParagraph t]])).
  rewrite collectSections_segment. cbn [flat_map]. unfold pageDiv.
  rewrite segment_pageMarker.
  2: { unfold isPageMarker. change (text_eqb (tagOf _) (T "div")) with true.
       cbv iota. cbn [negb]. exact Hn. }
  cbn [flat_map]. rewrite (segment_plainParagraph t H). cbn [app].
  rewrite mergePipeline_single. unfold fixContent. cbn [content createSection2 createSection].
  apply nonblank_trim in H. destruct (trim t); [congruence | reflexivity].
Qed.

(** Pass 2 on a pair of paragraphs whose second one is not blank. *)
Lemma mergeAdjacentParagraphs_pair (a b : section) :
  isParagraph a = true -> isParagraph b = true -> trim (content b) <> [] ->
  mergeAdjacentParagraphs [a; b]
  = if shouldMerge a b then [mergeParagraphs a b] else [a; b].
Proof.
  intros Ha Hb Hn. unfold mergeAdjacentParagraphs. cbn [length mergeLoop].
  rewrite mergeScan_two.
  rewrite Ha, Hb. cbn [andb].
  destruct (trim (content b)); [congruence|].
  destruct (shouldMerge a b); reflexivity.
Qed.

Lemma pipeline_two_paragraphs (t1 t2 : text) (c : ascii) (r : text) :
  nonblank t1 ->
  trim t2 = c :: r -> isLowerAZ c = true ->
  endsWithPunctuation (trim t1) = false ->
  mergePipeline [createSection2 paragraph (trim t1); createSection2 paragraph (trim t2)]
  = [createSection2 paragraph
       (if endsWith hyphen (trim t1)
        then fixHyphenatedWords
               (sliceDropLast (trim (fixHyphenatedWords (trim t1))) ++ trim t2)
        else fixHyphenatedWords (trim t1) ++ " "%char :: fixHyphenatedWords (trim t2))].
Proof.
  intros H1 H2 Hc Hp.
  set (A := createSection2 paragraph (trim t1)).
  set (B := createSection2 paragraph (trim t2)).
  assert (HA : content (fixContent A) = fixHyphenatedWords (trim t1))
    by apply content_fixContent.
  assert (HlastA : lastChar (trim (content (fixContent A))) = lastChar (trim t1)).
  { rewrite HA, trim_fix_lastChar, trim_trim. reflexivity. }
  assert (HtB : trim (content B) = c :: r).
  { unfold B. cbn [content createSection2 createSection]. rewrite trim_trim. exact H2. }
  assert (Hlow : chr_eqb (toLowerCaseChar c) c = true).
  { rewrite (lower_toLowerCase c Hc). apply Ascii.eqb_refl. }
  unfold mergePipeline.
  rewrite mergeHyphenatedWords_two.
  rewrite isParagraph_fixContent.
  change (isParagraph A && isParagraph B) with true. cbn [andb].
  unfold hyphenMergeable. rewrite HtB.
  unfold endsWith at 1. rewrite HlastA. fold (endsWith hyphen (trim t1)).
  cbn [length Nat.ltb Nat.leb startsLowercase]. rewrite Hlow, !andb_true_r.
  destruct (endsWith hyphen (trim t1)) eqn:Eh.
  - unfold hyphenMerge. rewrite HtB, HA, <- H2. reflexivity.
  - change (mergeHyphenatedWords [B]) with [fixContent B].
    assert (HB : content (fixContent B) = fixHyphenatedWords (trim t2))
      by apply content_fixContent.
    assert (HnB : trim (content (fixContent B)) <> []).
    { rewrite HB. apply nonblank_trim, fixHyphenatedWords_nonblank, trim_nonblank.
      rewrite H2. discriminate. }
    rewrite mergeAdjacentParagraphs_pair;
      [| rewrite isParagraph_fixContent; reflexivity
       | rewrite isParagraph_fixContent; reflexivity
       | exact HnB].
    assert (Hm : shouldMerge (fixContent A) (fixContent B) = true).
    { apply shouldMerge_spec. left. split.
      - unfold endsWithPunctuation in *. rewrite HlastA. exact Hp.
      - rewrite HB, H2.
        destruct (fixHyphenatedWords_head c r) as [r' ->].
        destruct (trim_head c r' (lower_not_space c Hc)) as [r'' ->].
        exact Hlow. }
    rewrite Hm. unfold mergeParagraphs. rewrite HA, HB. reflexivity.
Qed.

(** C1 (counterexample). Two pages whose paragraphs continue one sentence
    ("The cat" without terminal punctuation, then "sat down." in lower
    case): [extractSectionsFromDocument] returns them as two sections. *)
Lemma cross_page_paragraphs_stay_separate :
  extractSectionsFromDocument
    [[pageDiv (T "0") [plainParagraph (T "The cat")]];
     [pageDiv (T "1") [plainParagraph (T "sat down.")]]]
  = [createSection2 paragraph (T "The cat"); createSection2 paragraph (T "sat down.")]
  /\ endsWithPunctuation (trim (T "The cat")) = false
  /\ isLowerAZ "s"%char = true.
Proof.
  split; [vm_compute; reflexivity | split; reflexivity].
Qed.

(** C1 (amended). [extractSectionsFromDocument] runs the merge passes on
    each page and then concatenates: for two pages that each hold one
    plain paragraph, the result holds the two repaired paragraphs as
    separate sections. The paragraph that ends page N without terminal
    punctuation and the one that begins page N+1 with a lowercase letter
    become a single paragraph only when both pages are segmented by one
    call of [parseHTMLIntoBlocks]: the two repaired texts joined by a
    space or, where the first ends in a hyphen, joined at the hyphen. *)
Theorem cross_page_continuation (t1 t2 : text) (c : ascii) (r : text) :
  nonblank t1 ->
  trim t2 = c :: r -> isLowerAZ c = true ->
  endsWithPunctuation (trim t1) = false ->
  (forall doc, extractSectionsFromDocument doc = concat (map parseHTMLIntoBlocks doc))
  /\ extractSectionsFromDocument
       [[pageDiv (T "0") [plainParagraph t1]]; [pageDiv (T "1") [plainParagraph t2]]]
     = [createSection2 paragraph (fixHyphenatedWords (trim t1));
        createSection2 paragraph (fixHyphenatedWords (trim t2))]
  /\ parseHTMLIntoBlocks
       [pageDiv (T "0") [plainParagraph t1]; pageDiv (T "1") [plainParagraph t2]]
     = [createSection2 paragraph
          (if endsWith hyphen (trim t1)
           then fixHyphenatedWords
                  (sliceDropLast (trim (fixHyphenatedWords (trim t1))) ++ trim t2)
           else fixHyphenatedWords (trim t1) ++ " "%char :: fixHyphenatedWords (trim t2))].
Proof.
  intros H1 H2 Hc Hp.
  assert (Hn2 : nonblank t2).
  { apply nonblank_trim. rewrite H2. discriminate. }
  split; [exact extractSectionsFromDocument_concat | split].
  - rewrite extractSectionsFromDocument_concat. cbn [map concat].
    rewrite !parse_single_page by (try reflexivity; assumption). reflexivity.
  - change (parseHTMLIntoBlocks
              [pageDiv (T "0") [plainParagraph t1]; pageDiv (T "1") [plainParagraph t2]])
      with (mergePipeline
              (collectSections
                 [pageDiv (T "0") [plainParagraph t1];
                  pageDiv (T "1") [plainParagraph t2]])).
    rewrite collectSections_segment. cbn [flat_map]. unfold pageDiv.
    rewrite !segment_pageMarker by reflexivity.
    cbn [flat_map]. rewrite (segment_plainParagraph t1 H1), (segment_plainParagraph t2 Hn2).
    cbn [app]. apply (pipeline_two_paragraphs t1 t2 c r); assumption.
Qed.

(** "The cat" and "sat down." in one call. *)
Lemma cross_page_continuation_witness :
  parseHTMLIntoBlocks
    [pageDiv (T "0") [plainParagraph (T "The cat ")];
     pageDiv (T "1") [plainParagraph (T " sat down.")]]
  = [createSection2 paragraph (T "The cat sat down.")].
Proof.
  apply (cross_page_continuation (T "The cat ") (T " sat down.") "s"%char (T "at down."));
    reflexivity.
Defined.

(** * Further properties of the code *)

(** ** The hyphenation repair *)

Lemma hyphen_not_word : isWord hyphen = false.
Proof. reflexivity. Qed.

Lemma word_kept (c : ascii) : isWord c = true -> keptByRepair c = true.
Proof. unfold keptByRepair, hyphen. ascii_cases c. Qed.

Lemma lower_kept (c : ascii) : isLowerAZ c = true -> keptByRepair c = true.
Proof. unfold keptByRepair, hyphen. ascii_cases c. Qed.

Lemma space_not_kept (c : ascii) : isSpace c = true -> keptByRepair c = false.
Proof. unfold keptByRepair. intros ->. reflexivity. Qed.

Lemma filter_all (p : ascii -> bool) (s : text) :
  forallb p s = true -> List.filter p s = s.
Proof.
  induction s as [|c r IH]; [reflexivity|].
  simpl. intros H. apply andb_prop in H as [H1 H2]. rewrite H1, IH; auto.
Qed.

Lemma filter_none (p q : ascii -> bool) (s : text) :
  (forall c, q c = true -> p c = false) ->
  forallb q s = true -> List.filter p s = [].
Proof.
  intros Hpq. induction s as [|c r IH]; [reflexivity|].
  simpl. intros H. apply andb_prop in H as [H1 H2].
  rewrite (Hpq c H1). auto.
Qed.

Lemma forallb_impl (p q : ascii -> bool) (s : text) :
  (forall c, p c = true -> q c = true) -> forallb p s = true -> forallb q s = true.
Proof.
  intros Hpq. induction s as [|c r IH]; [reflexivity|].
  simpl. intros H. apply andb_prop in H as [H1 H2].
  rewrite (Hpq c H1), IH; auto.
Qed.

Lemma replaceHyphenated_kept (fuel : nat) (s : text) :
  List.filter keptByRepair (replaceHyphenated fuel s) = List.filter keptByRepair s.
Proof.
  revert s. induction fuel as [|fuel IH]; intros s; [reflexivity|].
  simpl. destruct s as [|c r]; [reflexivity|].
  destruct (matchHyphenated (c :: r)) as [[[w l] rest]|] eqn:E.
  - apply matchHyphenated_shape in E as (ws & -> & Hw & _ & Hws & Hl).
    change (hyphen :: ws ++ l :: rest) with ([hyphen] ++ ws ++ [l] ++ rest).
    change (l :: replaceHyphenated fuel rest) with ([l] ++ replaceHyphenated fuel rest).
    rewrite !List.filter_app, IH.
    rewrite (filter_none keptByRepair isSpace ws space_not_kept Hws).
    reflexivity.
  - change (c :: replaceHyphenated fuel r) with ([c] ++ replaceHyphenated fuel r).
    change (c :: r) with ([c] ++ r).
    rewrite !List.filter_app, IH. reflexivity.
Qed.

Lemma replaceHyphenated_length (fuel : nat) (s : text) :
  replaceHyphenated fuel s = s
  \/ (length (replaceHyphenated fuel s) < length s)%nat.
Proof.
  revert s. induction fuel as [|fuel IH]; intros s; simpl; [left; reflexivity|].
  destruct s as [|c r]; [left; reflexivity|].
  destruct (matchHyphenated (c :: r)) as [[[w l] rest]|] eqn:E.
  - right. apply matchHyphenated_shape in E as (ws & -> & _).
    assert (Hle : (length (replaceHyphenated fuel rest) <= length rest)%nat).
    { destruct (IH rest) as [-> | H]; lia. }
    rewrite !length_app. simpl. rewrite length_app. simpl. lia.
  - destruct (IH r) as [-> | H]; [left; reflexivity | right; simpl; lia].
Qed.

(** X1. The hyphenation repair only deletes hyphens and white space: the
    other code units of the text are left as they are, in order; and a
    repair that changes the text makes it shorter and removes at least
    one hyphen. *)
Theorem fixHyphenatedWords_only_deletes (s : text) :
  List.filter keptByRepair (fixHyphenatedWords s) = List.filter keptByRepair s
  /\ (fixHyphenatedWords s = s
      \/ ((length (fixHyphenatedWords s) < length s)%nat
          /\ (hyphenCount (fixHyphenatedWords s) < hyphenCount s)%nat)).
Proof.
  split; [apply replaceHyphenated_kept|].
  unfold fixHyphenatedWords.
  destruct (replaceHyphenated_length (length s) s) as [E | Hl]; [left; exact E|].
  destruct (replaceHyphenated_hyphens (length s) s) as [E | Hh]; [left; exact E|].
  right. split; assumption.
Qed.

Lemma lastChar_cons (c : ascii) (r : text) :
  lastChar (c :: r)
  = match lastChar r with
    | Some x => Some x
    | None => Some c
    end.
Proof.
  unfold lastChar. simpl. destruct (rev r) as [|x y]; reflexivity.
Qed.

Lemma lastChar_app_cons (a : text) (c : ascii) (r : text) :
  lastChar (a ++ c :: r) = lastChar (c :: r).
Proof.
  induction a as [|x a IH]; [reflexivity|].
  change ((x :: a) ++ c :: r) with (x :: (a ++ c :: r)).
  rewrite lastChar_cons, IH, lastChar_cons.
  destruct (lastChar r); reflexivity.
Qed.

Lemma replaceHyphenated_lastChar (fuel : nat) (s : text) :
  lastChar (replaceHyphenated fuel s) = lastChar s.
Proof.
  revert s. induction fuel as [|fuel IH]; intros s; [reflexivity|].
  simpl. destruct s as [|c r]; [reflexivity|].
  destruct (matchHyphenated (c :: r)) as [[[w l] rest]|] eqn:E.
  - apply matchHyphenated_shape in E as (ws & -> & _).
    change (w ++ hyphen :: ws ++ l :: rest) with (w ++ (hyphen :: ws) ++ l :: rest).
    rewrite app_assoc, !lastChar_app_cons, !lastChar_cons, IH. reflexivity.
  - rewrite !lastChar_cons, IH. reflexivity.
Qed.

(** X2. The hyphenation repair keeps both ends of a text: its first and
    its last code unit, and the last code unit of the trimmed text, so the
    tests for a final hyphen and for final punctuation give the same
    answer before and after the repair. *)
Theorem fixHyphenatedWords_keeps_ends (s : text) :
  hd_error (fixHyphenatedWords s) = hd_error s
  /\ lastChar (fixHyphenatedWords s) = lastChar s
  /\ lastChar (trim (fixHyphenatedWords s)) = lastChar (trim s)
  /\ endsWith hyphen (trim (fixHyphenatedWords s)) = endsWith hyphen (trim s)
  /\ endsWithPunctuation (trim (fixHyphenatedWords s)) = endsWithPunctuation (trim s).
Proof.
  repeat split.
  - destruct s as [|c r]; [reflexivity|].
    destruct (fixHyphenatedWords_head c r) as [r' ->]. reflexivity.
  - apply replaceHyphenated_lastChar.
  - apply trim_fix_lastChar.
  - unfold endsWith. rewrite trim_fix_lastChar. reflexivity.
  - unfold endsWithPunctuation. rewrite trim_fix_lastChar. reflexivity.
Qed.

Lemma takeWhile_app_stop (p : ascii -> bool) (w : text) (c : ascii) (r : text) :
  forallb p w = true -> p c = false ->
  takeWhile p (w ++ c :: r) = w /\ dropWhile p (w ++ c :: r) = c :: r.
Proof.
  intros Hw Hc. induction w as [|x w IH]; simpl.
  - rewrite Hc. auto.
  - simpl in Hw. apply andb_prop in Hw as [Hx Hw]. rewrite Hx.
    destruct (IH Hw) as [-> ->]. auto.
Qed.

(** The pattern matches wherever two word characters stand before a
    hyphen that white space and a lowercase letter follow. *)
Lemma matchHyphenated_at_break (w ws : text) (l : ascii) (rest : text) :
  forallb isWord w = true -> (2 <= length w)%nat ->
  forallb isSpace ws = true -> isLowerAZ l = true ->
  matchHyphenated (w ++ hyphen :: ws ++ l :: rest) = Some (w, l, rest).
Proof.
  intros Hw Hlen Hws Hl. unfold matchHyphenated.
  destruct (takeWhile_app_stop isWord w hyphen (ws ++ l :: rest) Hw hyphen_not_word)
    as [-> ->].
  apply Nat.leb_le in Hlen. rewrite Hlen.
  change (chr_eqb hyphen hyphen) with true. cbv iota.
  destruct (takeWhile_app_stop isSpace ws l rest Hws (lower_not_space l Hl))
    as [_ ->].
  rewrite Hl. reflexivity.
Qed.

Lemma matchHyphenated_break (s w rest : text) (l : ascii) :
  matchHyphenated s = Some (w, l, rest) -> hyphenBreak s.
Proof.
  intros H. apply matchHyphenated_shape in H as (ws & -> & Hw & Hlen & Hws & Hl).
  destruct (rev w) as [|b [|a w']] eqn:E.
  - apply (f_equal (@length ascii)) in E. rewrite length_rev in E. simpl in E. lia.
  - apply (f_equal (@length ascii)) in E. rewrite length_rev in E. simpl in E. lia.
  - apply (f_equal (@rev ascii)) in E. rewrite rev_involutive in E. simpl in E.
    subst w. rewrite !forallb_app in Hw. simpl in Hw.
    apply andb_prop in Hw as [Hw Hb]. apply andb_prop in Hw as [_ Ha].
    rewrite andb_true_r in Ha, Hb.
    exists (rev w'), a, b, ws, l, rest. rewrite <- !app_assoc. simpl. auto.
Qed.

Lemma hyphenBreak_cons (c : ascii) (s : text) : hyphenBreak s -> hyphenBreak (c :: s).
Proof.
  intros (pre & a & b & ws & l & rest & -> & H).
  exists (c :: pre), a, b, ws, l, rest. auto.
Qed.

Lemma replaceHyphenated_no_break (fuel : nat) (s : text) :
  ~ hyphenBreak s -> replaceHyphenated fuel s = s.
Proof.
  revert s. induction fuel as [|fuel IH]; intros s H; [reflexivity|].
  simpl. destruct s as [|c r]; [reflexivity|].
  destruct (matchHyphenated (c :: r)) as [[[w l] rest]|] eqn:E.
  - exfalso. apply H. eapply matchHyphenated_break, E.
  - f_equal. apply IH. intros Hb. apply H, hyphenBreak_cons, Hb.
Qed.

Lemma replaceHyphenated_break (fuel : nat) (s : text) :
  (length s <= fuel)%nat -> hyphenBreak s -> replaceHyphenated fuel s <> s.
Proof.
  revert s. induction fuel as [|fuel IH]; intros s Hlen Hb.
  - destruct Hb as (pre & a & b & ws & l & rest & -> & _).
    rewrite length_app in Hlen. simpl in Hlen. lia.
  - simpl. destruct s as [|c r].
    + destruct Hb as (pre & a & b & ws & l & rest & E & _).
      destruct pre; discriminate.
    + destruct (matchHyphenated (c :: r)) as [[[w l] rest]|] eqn:E.
      * pose proof (replaceHyphenated_hyphens (Datatypes.S fuel) (c :: r)) as Hh.
        simpl in Hh. rewrite E in Hh.
        apply matchHyphenated_shape in E as (ws & Es & _).
        intros Heq. destruct Hh as [Hh | Hh]; [|rewrite Heq in Hh; lia].
        apply (f_equal hyphenCount) in Hh. rewrite Es in Hh.
        assert (Hle : (hyphenCount (replaceHyphenated fuel rest) <= hyphenCount rest)%nat).
        { destruct (replaceHyphenated_hyphens fuel rest) as [-> | ?]; lia. }
        change (hyphen :: ws ++ l :: rest) with ([hyphen] ++ ws ++ [l] ++ rest) in Hh.
        change (l :: replaceHyphenated fuel rest)
          with ([l] ++ replaceHyphenated fuel rest) in Hh.
        rewrite !hyphenCount_app in Hh.
        assert (hyphenCount [hyphen] = 1%nat) by reflexivity. lia.
      * intros Heq. inversion Heq as [Hr]. revert Hr. apply IH.
        { simpl in Hlen. lia. }
        destruct Hb as (pre & a & b & ws & l & rest & Es & Ha & Hb' & Hws & Hl).
        destruct pre as [|x pre].
        -- exfalso.
           assert (Hm : matchHyphenated ([a; b] ++ hyphen :: ws ++ l :: rest)
                        = Some ([a; b], l, rest)).
           { apply matchHyphenated_at_break;
               [simpl; rewrite Ha, Hb'; reflexivity | simpl; lia
                | exact Hws | exact Hl]. }
           cbn [app] in Hm, Es. rewrite <- Es in Hm. congruence.
        -- inversion Es; subst. exists pre, a, b, ws, l, rest. auto.
Qed.

(** X3. The texts that the hyphenation repair leaves unchanged are
    exactly those without a place where two word characters, a hyphen,
    optional white space and a lowercase letter follow one another; so a
    hyphen after a single letter ("k-means") or before a capital or a
    digit never triggers a repair. *)
Theorem fixHyphenatedWords_fixed_points (s : text) :
  fixHyphenatedWords s = s <-> ~ hyphenBreak s.
Proof.
  split.
  - intros H Hb. revert H. apply replaceHyphenated_break; [lia | exact Hb].
  - apply replaceHyphenated_no_break.
Qed.

(** ** Pass 2 as a whole *)

(** X4. Pass 2 is idempotent: applied to its own result,
    [mergeAdjacentParagraphs] returns that result. *)
Theorem mergeAdjacentParagraphs_idempotent (l : list section) :
  mergeAdjacentParagraphs (mergeAdjacentParagraphs l) = mergeAdjacentParagraphs l.
Proof.
  pose proof (mergeAdjacentParagraphs_stable l) as H.
  set (out := mergeAdjacentParagraphs l) in *.
  unfold mergeAdjacentParagraphs at 1.
  destruct out as [|s out']; [reflexivity|].
  cbn [length mergeLoop]. rewrite H. reflexivity.
Qed.

Lemma mergeScan_tail (x : section) (l : list section) :
  snd (mergeScan (x :: l)) = false -> snd (mergeScan l) = false.
Proof.
  destruct l as [|y l]; [reflexivity|].
  rewrite mergeScan_two.
  destruct (mergeScan (y :: l)) as [out2 ch2].
  destruct (mergeScan l) as [out1 ch1].
  destruct (isParagraph x && isParagraph y);
    [destruct (trim (content y)); [|destruct (shouldMerge x y)]|];
    simpl; intros H; congruence.
Qed.

Lemma mergeScan_no_pair (l pre post : list section) (a b : section) :
  snd (mergeScan l) = false ->
  l = pre ++ a :: b :: post ->
  isParagraph a = true -> isParagraph b = true -> trim (content b) <> [] ->
  shouldMerge a b = false.
Proof.
  revert l. induction pre as [|x pre IH]; intros l Hs -> Ha Hb Hn.
  - cbn [app] in Hs. rewrite mergeScan_two, Ha, Hb in Hs. cbn [andb] in Hs.
    destruct (trim (content b)); [congruence|].
    destruct (shouldMerge a b); [|reflexivity].
    destruct (mergeScan post). discriminate.
  - apply (IH (pre ++ a :: b :: post)); auto.
    eapply mergeScan_tail. exact Hs.
Qed.

(** X5. After Pass 2 no two adjacent paragraphs are left that the pass
    would merge: wherever a paragraph is followed by a non-blank
    paragraph in the result, the first does not end in a hyphen, and it
    ends in [.], [!] or [?] or the second begins with a code unit that
    lower-casing changes. *)
Theorem mergeAdjacentParagraphs_exhaustive (l pre post : list section)
    (a b : section) :
  mergeAdjacentParagraphs l = pre ++ a :: b :: post ->
  isParagraph a = true -> isParagraph b = true -> trim (content b) <> [] ->
  endsWith hyphen (trim (content a)) = false
  /\ (endsWithPunctuation (trim (content a)) = true
      \/ startsLowercase (trim (content b)) = false).
Proof.
  intros E Ha Hb Hn.
  assert (Hs : shouldMerge a b = false).
  { apply (mergeScan_no_pair (mergeAdjacentParagraphs l) pre post); auto.
    rewrite mergeAdjacentParagraphs_stable. reflexivity. }
  unfold shouldMerge in Hs.
  destruct (endsWith hyphen (trim (content a)));
    destruct (endsWithPunctuation (trim (content a)));
    destruct (startsLowercase (trim (content b)));
    destruct (length (trim (content a)) <? 100)%nat;
    simpl in Hs; try discriminate; auto.
Qed.

(** "It rains and" stays apart from "Then it stops.", which begins with a
    capital. *)
Lemma mergeAdjacentParagraphs_exhaustive_witness :
  endsWith hyphen (trim (T "It rains and")) = false
  /\ (endsWithPunctuation (trim (T "It rains and")) = true
      \/ startsLowercase (trim (T "Then it stops.")) = false).
Proof.
  apply (mergeAdjacentParagraphs_exhaustive
           [createSection2 paragraph (T "It rains"); createSection2 paragraph (T "and");
            createSection2 paragraph (T "Then it stops."); createSection2 paragraph (T "OK")]
           [] [createSection2 paragraph (T "OK")]
           (createSection2 paragraph (T "It rains and"))
           (createSection2 paragraph (T "Then it stops."))).
  - vm_compute. reflexivity.
  - reflexivity.
  - reflexivity.
  - discriminate.
Defined.

Lemma join_two (sep : ascii) (x y : text) (r : list text) :
  join sep (x :: y :: r) = x ++ sep :: join sep (y :: r).
Proof. reflexivity. Qed.

Lemma join_merged (sep : ascii) (x y : text) (r : list text) :
  join sep ((x ++ sep :: y) :: r) = x ++ sep :: join sep (y :: r).
Proof.
  destruct r as [|z r]; [reflexivity|].
  rewrite !join_two, <- app_assoc. reflexivity.
Qed.

Lemma mergeScan_joinedContent (l : list section) :
  joinedContent (fst (mergeScan l)) = joinedContent l
  /\ (fst (mergeScan l) = [] <-> l = []).
Proof.
  unfold joinedContent.
  induction l as [| a | a b l IH1 IH2] using pair_induction.
  - split; [reflexivity | tauto].
  - split; [reflexivity | split; discriminate].
  - rewrite mergeScan_two.
    destruct (mergeScan (b :: l)) as [out2 ch2].
    destruct (mergeScan l) as [out1 ch1].
    cbn [fst] in IH1, IH2. destruct IH1 as [J1 N1]. destruct IH2 as [J2 N2].
    assert (Hkeep : join space (map content (a :: out2))
                    = join space (map content (a :: b :: l))).
    { destruct out2 as [|y out2]; [destruct N2 as [N2 _]; specialize (N2 eq_refl); discriminate|].
      cbn [map] in *. rewrite !join_two, J2. reflexivity. }
    destruct (isParagraph a && isParagraph b);
      [destruct (trim (content b)); [|destruct (shouldMerge a b)]|];
      cbn [fst]; (split; [|split; discriminate]); try exact Hkeep.
    unfold mergeParagraphs. cbn [map content createSection2 createSection].
    fold space. rewrite join_merged, join_two. f_equal. f_equal.
    destruct out1 as [|y out1].
    + destruct N1 as [N1 _]. rewrite (N1 eq_refl). reflexivity.
    + destruct l as [|z l]; [destruct N1 as [_ N1]; specialize (N1 eq_refl); discriminate|].
      cbn [map] in *. rewrite !join_two, J1. reflexivity.
Qed.

(** X6. Pass 2 changes nothing but the division into sections: the
    contents of the sections, joined by single spaces, are the same text
    before and after [mergeAdjacentParagraphs]. *)
Theorem mergeAdjacentParagraphs_joinedContent (l : list section) :
  joinedContent (mergeAdjacentParagraphs l) = joinedContent l.
Proof.
  unfold mergeAdjacentParagraphs. generalize (length l) as fuel. intros fuel.
  revert l. induction fuel as [|fuel IH]; intros l; [reflexivity|].
  simpl. pose proof (mergeScan_joinedContent l) as [H _].
  destruct (mergeScan l) as [out ch]. cbn [fst] in H.
  destruct ch; [rewrite IH|]; exact H.
Qed.

(** ** Image sections through the passes *)

Lemma isImage_fixContent (s : section) : isImage (fixContent s) = isImage s.
Proof. unfold fixContent, isImage. destruct (content s); reflexivity. Qed.

Lemma images_fixContent (s : section) : images (fixContent s) = images s.
Proof. unfold fixContent. destruct (content s); reflexivity. Qed.

Lemma paragraph_not_image (s : section) : isParagraph s = true -> isImage s = false.
Proof. unfold isParagraph, isImage. destruct (type s); congruence. Qed.

Lemma heading_not_image (s : section) : isHeading s = true -> isImage s = false.
Proof. unfold isHeading, isImage. destruct (type s); congruence. Qed.

Lemma mergeHyphenatedWords_images (l : list section) :
  List.filter isImage (mergeHyphenatedWords l) = map fixContent (List.filter isImage l).
Proof.
  induction l as [| a | a b l IH1 IH2] using pair_induction.
  - reflexivity.
  - cbn [mergeHyphenatedWords List.filter]. rewrite isImage_fixContent.
    destruct (isImage a); reflexivity.
  - rewrite mergeHyphenatedWords_two.
    destruct (isParagraph (fixContent a) && isParagraph b
              && hyphenMergeable (fixContent a) b) eqn:E.
    + apply andb_prop in E as [E _]. apply andb_prop in E as [Ea Eb].
      rewrite isParagraph_fixContent in Ea.
      cbn [List.filter]. rewrite (paragraph_not_image a Ea), (paragraph_not_image b Eb).
      exact IH1.
    + change (List.filter isImage (fixContent a :: mergeHyphenatedWords (b :: l)))
        with (if isImage (fixContent a)
              then fixContent a :: List.filter isImage (mergeHyphenatedWords (b :: l))
              else List.filter isImage (mergeHyphenatedWords (b :: l))).
      change (List.filter isImage (a :: b :: l))
        with (if isImage a then a :: List.filter isImage (b :: l)
              else List.filter isImage (b :: l)).
      rewrite isImage_fixContent, IH2. destruct (isImage a); reflexivity.
Qed.

Lemma mergeScan_images (l : list section) :
  List.filter isImage (fst (mergeScan l)) = List.filter isImage l.
Proof.
  induction l as [| a | a b l IH1 IH2] using pair_induction.
  - reflexivity.
  - reflexivity.
  - rewrite mergeScan_two.
    destruct (mergeScan (b :: l)) as [out2 ch2].
    destruct (mergeScan l) as [out1 ch1].
    cbn [fst] in IH1, IH2.
    assert (Hkeep : List.filter isImage (a :: out2) = List.filter isImage (a :: b :: l)).
    { change (List.filter isImage (a :: b :: l))
        with (if isImage a then a :: List.filter isImage (b :: l)
              else List.filter isImage (b :: l)).
      cbn [List.filter]. rewrite IH2. reflexivity. }
    destruct (isParagraph a && isParagraph b) eqn:E;
      [destruct (trim (content b)); [|destruct (shouldMerge a b)]|];
      cbn [fst]; try exact Hkeep.
    apply andb_prop in E as [Ea Eb].
    cbn [List.filter].
    rewrite (paragraph_not_image a Ea), (paragraph_not_image b Eb). exact IH1.
Qed.

Lemma mergeAdjacentParagraphs_images (l : list section) :
  List.filter isImage (mergeAdjacentParagraphs l) = List.filter isImage l.
Proof.
  unfold mergeAdjacentParagraphs. generalize (length l) as fuel. intros fuel.
  revert l. induction fuel as [|fuel IH]; intros l; [reflexivity|].
  simpl. pose proof (mergeScan_images l) as H.
  destruct (mergeScan l) as [out ch]. cbn [fst] in H.
  destruct ch; [rewrite IH|]; exact H.
Qed.

Lemma mergeAdjacentHeadings_images (l : list section) :
  List.filter isImage (mergeAdjacentHeadings l) = List.filter isImage l.
Proof.
  induction l as [| a | a b l IH1 IH2] using pair_induction.
  - reflexivity.
  - reflexivity.
  - rewrite mergeAdjacentHeadings_two.
    assert (Hkeep : List.filter isImage (a :: mergeAdjacentHeadings (b :: l))
                    = List.filter isImage (a :: b :: l)).
    { change (List.filter isImage (a :: b :: l))
        with (if isImage a then a :: List.filter isImage (b :: l)
              else List.filter isImage (b :: l)).
      cbn [List.filter]. rewrite IH2. reflexivity. }
    destruct (isHeading a) eqn:Ea; cbn [andb]; [|exact Hkeep].
    pose proof (heading_not_image a Ea) as Hia.
    destruct (isParagraph b && _ && _) eqn:E1.
    + apply andb_prop in E1 as [E1 _]. apply andb_prop in E1 as [Eb _].
      pose proof (paragraph_not_image b Eb) as Hib.
      destruct (remainingLinesOf (trim (content b)));
        cbn [List.filter]; unfold isImage at 1; cbn [type createSection];
        rewrite ?Hia, ?Hib; exact IH1.
    + destruct (isHeading b && jsint_eqb (level a) (level b)) eqn:E2; [|exact Hkeep].
      apply andb_prop in E2 as [Eb _].
      cbn [List.filter]. unfold isImage at 1. cbn [type createSection].
      rewrite Hia, (heading_not_image b Eb). exact IH1.
Qed.

(** X7. No merge pass drops, adds or reorders an image section: the image
    sections of the merged sequence carry the same image lists, in the
    same order, as those of the sequence given to the three passes. *)
Theorem mergePipeline_keeps_images (l : list section) :
  map images (List.filter isImage (mergePipeline l))
  = map images (List.filter isImage l).
Proof.
  unfold mergePipeline.
  rewrite mergeAdjacentHeadings_images, mergeAdjacentParagraphs_images,
    mergeHyphenatedWords_images, map_map.
  apply map_ext. intros s. apply images_fixContent.
Qed.

(** ** What the walk collects and what the renderer gets *)

Lemma processTextElement_not_image (el : node) (tagName : text) (id : path)
    (S S' : processedSet) (r : textResult) :
  processTextElement el tagName id S = (r, S') ->
  Forall (fun s => isImage s = false) (resultSections r).
Proof.
  unfold processTextElement.
  destruct (trim (textContent el)) as [|c t].
  { intros H. inversion H; subst. constructor. }
  destruct (extractFontProperties el) as [fs b].
  destruct (if isP_or_div tagName then extractNestedHeading el else None)
    as [nh|] eqn:En.
  - assert (Hnh : extractNestedHeading el = Some nh)
      by (destruct (isP_or_div tagName); [exact En | discriminate]).
    intros H. inversion H; subst; clear H. simpl.
    constructor.
    + unfold extractNestedHeading in Hnh.
      destruct (firstElementChild el); [|discriminate].
      destruct (extractFontProperties el).
      destruct (trim (textContent n)); [discriminate|].
      destruct (negb _ && negb _); [discriminate|].
      inversion Hnh; subst. reflexivity.
    + destruct (remainingText nh); repeat constructor.
  - destruct (isLikelyHeading (c :: t) fs b).
    + intros H. inversion H; subst. repeat constructor.
    + destruct (isP_or_div tagName).
      * intros H. inversion H; subst. repeat constructor.
      * destruct (text_eqb tagName (T "span") && _);
          intros H; inversion H; subst; repeat constructor.
Qed.

Lemma sound_not_image (s : section) : wellFormed s -> isImage s = false -> sound s.
Proof. intros H E. split; [exact H | congruence]. Qed.

Lemma visit_sound (st : walkState) (idel : path * node) :
  Forall sound (sections st) -> Forall sound (sections (visit st idel)).
Proof.
  intros H. destruct idel as [id el]. unfold visit.
  destruct (bool_decide (id ∈ processedElements st)); [exact H|].
  destruct (isPageMarker el); [exact H|].
  destruct (isParentProcessed id (processedElements st)); [exact H|].
  destruct (text_eqb (tagOf el) (T "img")).
  { unfold processImage.
    destruct (getAttribute (T "src") el) as [[|c r]|]; simpl; try exact H.
    apply Forall_app. split; [exact H|]. constructor; [|constructor].
    split; [exact I|]. intros _. split; [reflexivity|].
    eexists. split; [reflexivity | discriminate]. }
  destruct (isHeadingTag (tagOf el)) eqn:Eh.
  { destruct (processHeading el id (processedElements st)) as [[s|] S'] eqn:E;
      simpl; [|exact H].
    apply Forall_app. split; [exact H|]. constructor; [|constructor].
    apply sound_not_image; [eapply processHeading_wellFormed; eassumption|].
    unfold processHeading in E. destruct (trim (textContent el)); [discriminate|].
    inversion E; subst. reflexivity. }
  destruct (isP_or_div (tagOf el) || text_eqb (tagOf el) (T "span")); [|exact H].
  destruct (processTextElement el (tagOf el) id (processedElements st))
    as [r S'] eqn:E.
  pose proof (processTextElement_wellFormed _ _ _ _ _ _ E) as Hw.
  pose proof (processTextElement_not_image _ _ _ _ _ _ E) as Hn.
  assert (Hs : Forall sound (resultSections r)).
  { clear E. induction Hw as [|s ss Hs _ IH]; [constructor|].
    inversion Hn; subst. constructor; [apply sound_not_image; assumption | auto]. }
  destruct r; simpl in *; [exact H | |]; apply Forall_app; split; assumption.
Qed.

Lemma collectSections_sound (html : list node) : Forall sound (collectSections html).
Proof.
  unfold collectSections. generalize (walkChildren [] 0 html) as l.
  assert (H : Forall sound (sections initialState)) by constructor.
  revert H. generalize initialState as st. intros st H l. revert st H.
  induction l as [|x l IH]; intros st H; [exact H|].
  simpl. apply IH, visit_sound, H.
Qed.

Lemma sound_image_fixContent (s : section) :
  sound s -> isImage s = true -> fixContent s = s.
Proof.
  intros [_ H] E. destruct (H E) as [Hc _].
  unfold fixContent. rewrite Hc. reflexivity.
Qed.

Lemma filter_images_sound (l : list section) :
  Forall sound l -> map fixContent (List.filter isImage l) = List.filter isImage l.
Proof.
  induction 1 as [|s l Hs _ IH]; [reflexivity|].
  cbn [List.filter]. destruct (isImage s) eqn:E; [|exact IH].
  cbn [map]. rewrite IH, (sound_image_fixContent s Hs E). reflexivity.
Qed.

Lemma mergePipeline_images_sound (l : list section) :
  Forall sound l -> List.filter isImage (mergePipeline l) = List.filter isImage l.
Proof.
  intros H. unfold mergePipeline.
  rewrite mergeAdjacentHeadings_images, mergeAdjacentParagraphs_images,
    mergeHyphenatedWords_images.
  apply filter_images_sound, H.
Qed.

Lemma mergePipeline_sound (l : list section) :
  Forall sound l -> Forall sound (mergePipeline l).
Proof.
  intros H.
  assert (Hw : Forall wellFormed (mergePipeline l)).
  { apply mergePipeline_wellFormed. eapply Forall_impl; [exact H|]. intros s [Hs _]. exact Hs. }
  pose proof (mergePipeline_images_sound l H) as Hi.
  apply Forall_forall. intros s Hin. split.
  - rewrite Forall_forall in Hw. apply Hw, Hin.
  - intros E.
    assert (Hin' : In s (List.filter isImage l)).
    { rewrite <- Hi. apply filter_In. split; [|exact E].
      apply list_elem_of_In. exact Hin. }
    apply filter_In in Hin' as [Hin' _].
    rewrite Forall_forall in H. apply list_elem_of_In in Hin'.
    destruct (H s Hin') as [_ Hs]. apply Hs, E.
Qed.

Lemma parseHTMLIntoBlocks_sound (html : list node) :
  Forall sound (parseHTMLIntoBlocks html).
Proof. apply mergePipeline_sound, collectSections_sound. Qed.

Lemma sound_renders (s : section) : sound s -> renderSection s <> [].
Proof.
  intros [Hw Hi]. unfold renderSection, wellFormed, isImage in *.
  destruct (type s) eqn:Et.
  - destruct Hw as [Hn _]. apply nonblank_trim in Hn.
    destruct (content s) as [|c r]; [exfalso; apply Hn; reflexivity|]. discriminate.
  - apply nonblank_trim in Hw.
    destruct (content s) as [|c r] eqn:Ec; [exfalso; apply Hw; reflexivity|].
    destruct (trim (c :: r)); [congruence | discriminate].
  - destruct (Hi eq_refl) as [Hc (x & Hx & Hsrc)].
    rewrite Hc, Hx. unfold renderImages, renderImage. cbn [flat_map].
    destruct (src x); [congruence | discriminate].
Qed.

(** X8. Nothing that the parser returns is lost by the renderer: every
    section of [parseHTMLIntoBlocks], and so every section of
    [extractSectionsFromDocument], is rendered as a non-empty string; in
    particular every image section holds exactly one image with a
    non-empty source and no content. *)
Theorem every_section_is_rendered (html : list node) (doc : list (list node)) :
  Forall (fun s => renderSection s <> []) (parseHTMLIntoBlocks html)
  /\ Forall (fun s => renderSection s <> []) (extractSectionsFromDocument doc)
  /\ Forall (fun s => isImage s = false \/ imageFromWalk s) (parseHTMLIntoBlocks html).
Proof.
  assert (Hp : forall h, Forall (fun s => renderSection s <> []) (parseHTMLIntoBlocks h)).
  { intros h. eapply Forall_impl; [apply parseHTMLIntoBlocks_sound|].
    intros s Hs. apply sound_renders, Hs. }
  repeat split.
  - apply Hp.
  - rewrite extractSectionsFromDocument_concat.
    induction doc as [|p doc IH]; simpl; [constructor|].
    apply Forall_app. split; [apply Hp | exact IH].
  - eapply Forall_impl; [apply parseHTMLIntoBlocks_sound|].
    intros s [_ Hs]. destruct (isImage s); [right; auto | left; reflexivity].
Qed.

(** X9. The image sections that [parseHTMLIntoBlocks] returns are exactly
    the image sections that its walk over the markup collected, in the
    same order: the three merge passes leave them untouched. *)
Theorem parseHTMLIntoBlocks_images (html : list node) :
  List.filter isImage (parseHTMLIntoBlocks html)
  = List.filter isImage (collectSections html).
Proof. apply mergePipeline_images_sound, collectSections_sound. Qed.

(** ** The walk over the markup tree *)

Lemma segment_blocked (n : node) : segment true n = [].
Proof.
  induction n as [d | t a ch IH] using node_induction; [reflexivity|].
  cbn [segment orb app].
  induction IH as [|c ch Hc _ IHch]; [reflexivity|].
  cbn [flat_map]. rewrite Hc, IHch. reflexivity.
Qed.

Lemma flat_map_segment_blocked (ch : list node) : flat_map (segment true) ch = [].
Proof.
  induction ch as [|c ch IH]; [reflexivity|].
  cbn [flat_map]. rewrite segment_blocked, IH. reflexivity.
Qed.

Lemma segment_consumed (t : text) (a : list (text * text)) (kids : list node) :
  consumes (Element t a kids) = true ->
  segment false (Element t a kids) = emitted (Element t a kids).
Proof.
  intros H. cbn [segment orb]. rewrite H, flat_map_segment_blocked.
  apply app_nil_r.
Qed.

Lemma segment_transparent (b : bool) (t : text) (a : list (text * text))
    (kids : list node) :
  visitAlone (Element t a kids) = initialState ->
  segment b (Element t a kids) = flat_map (segment b) kids.
Proof.
  intros H. cbn [segment]. unfold emitted, consumes. rewrite H.
  unfold initialState. cbn [sections processedElements].
  rewrite dummy_not_processed, orb_false_r. destruct b; reflexivity.
Qed.

Lemma collectSections_unwrap (t : text) (a : list (text * text))
    (kids pre post : list node) :
  visitAlone (Element t a kids) = initialState ->
  collectSections (pre ++ Element t a kids :: post)
  = collectSections (pre ++ kids ++ post).
Proof.
  intros H. rewrite !collectSections_segment, !flat_map_app. cbn [flat_map].
  rewrite (segment_transparent false t a kids H). reflexivity.
Qed.

(** X10. The children of the root are segmented independently of one
    another: the sections collected for a sequence of sibling subtrees are
    those of its parts, one after the other, and a text node that is a
    child of the root contributes nothing. *)
Theorem collectSections_siblings (a b : list node) (t : text) :
  collectSections (a ++ b) = collectSections a ++ collectSections b
  /\ collectSections (a ++ TextNode t :: b) = collectSections (a ++ b).
Proof.
  rewrite !collectSections_segment, !flat_map_app. split; reflexivity.
Qed.

Lemma isHeadingTag_handled (t : text) : isHeadingTag t = true -> In t handledTags.
Proof.
  destruct t as [|h [|d [|x t]]]; try discriminate.
  simpl. intros H. apply andb_prop in H as [Hh Hd].
  apply Ascii.eqb_eq in Hh. subst h.
  destruct d as [[] [] [] [] [] [] [] []]; try discriminate Hd;
    unfold handledTags; simpl; tauto.
Qed.

Lemma visitAlone_unhandled (t : text) (a : list (text * text)) (kids : list node) :
  ~ In t handledTags -> visitAlone (Element t a kids) = initialState.
Proof.
  intros H. unfold visitAlone, visit, initialState.
  cbn [sections processedElements tagOf].
  rewrite dummy_not_processed.
  assert (Hne : forall s, In (T s) handledTags -> text_eqb t (T s) = false).
  { intros s Hs. apply text_eqb_false. intros ->. exact (H Hs). }
  assert (Hpm : isPageMarker (Element t a kids) = false).
  { unfold isPageMarker. cbn [tagOf].
    rewrite (Hne "div"%string) by (unfold handledTags; simpl; tauto). reflexivity. }
  rewrite Hpm.
  change (isParentProcessed [0%nat] ∅) with false. cbv iota.
  rewrite (Hne "img"%string) by (unfold handledTags; simpl; tauto).
  destruct (isHeadingTag t) eqn:Eh; [exfalso; exact (H (isHeadingTag_handled t Eh))|].
  unfold isP_or_div.
  rewrite (Hne "p"%string), (Hne "div"%string), (Hne "span"%string)
    by (unfold handledTags; simpl; tauto).
  reflexivity.
Qed.

(** X11. An element whose tag is none of [img], [h1]..[h6], [p], [div],
    [span] is ignored but not skipped over: it yields no section, and a
    page that holds it yields the sections of the page that holds its
    children in its place. *)
Theorem unhandled_tag_transparent (t : text) (a : list (text * text))
    (kids pre post : list node) :
  ~ In t handledTags ->
  collectSections (pre ++ Element t a kids :: post)
  = collectSections (pre ++ kids ++ post)
  /\ parseHTMLIntoBlocks (pre ++ Element t a kids :: post)
     = parseHTMLIntoBlocks (pre ++ kids ++ post).
Proof.
  intros H.
  assert (Hc : collectSections (pre ++ Element t a kids :: post)
               = collectSections (pre ++ kids ++ post))
    by (apply collectSections_unwrap, visitAlone_unhandled, H).
  split; [exact Hc|]. unfold parseHTMLIntoBlocks. rewrite Hc. reflexivity.
Qed.

(** A table cell around a paragraph. *)
Lemma unhandled_tag_transparent_witness :
  collectSections
    ([] ++ Element (T "td") [] [Element (T "p") [] [TextNode (T "42 items")]] :: [])
  = collectSections
      ([] ++ [Element (T "p") [] [TextNode (T "42 items")]] ++ []).
Proof.
  apply (unhandled_tag_transparent (T "td") []
           [Element (T "p") [] [TextNode (T "42 items")]] [] []).
  unfold handledTags. simpl. intros H.
  repeat (destruct H as [H | H]; [discriminate H|]). exact H.
Defined.

Lemma visitAlone_blank (t : text) (a : list (text * text)) (kids : list node) :
  t <> T "img" ->
  trim (textContent (Element t a kids)) = [] ->
  visitAlone (Element t a kids) = initialState.
Proof.
  intros Hi Hb. unfold visitAlone, visit, initialState.
  cbn [sections processedElements tagOf].
  rewrite dummy_not_processed.
  destruct (isPageMarker (Element t a kids)); [reflexivity|].
  change (isParentProcessed [0%nat] ∅) with false. cbv iota.
  rewrite (text_eqb_false t (T "img") Hi).
  unfold processHeading, processTextElement. rewrite Hb.
  destruct (isHeadingTag t); [reflexivity|].
  destruct (isP_or_div t || text_eqb t (T "span")); reflexivity.
Qed.

(** X12. An element other than [img] whose text is blank yields no
    section and leaves its descendants to the walk: a page that holds it
    yields the sections of the page that holds its children in its place,
    so an image inside a paragraph without text is kept. *)
Theorem blank_element_transparent (t : text) (a : list (text * text))
    (kids pre post : list node) :
  t <> T "img" ->
  trim (textContent (Element t a kids)) = [] ->
  collectSections (pre ++ Element t a kids :: post)
  = collectSections (pre ++ kids ++ post).
Proof.
  intros Hi Hb. apply collectSections_unwrap, visitAlone_blank; assumption.
Qed.

(** A paragraph that holds white space and an image. *)
Lemma blank_element_transparent_witness :
  collectSections
    ([] ++ Element (T "p") []
             [TextNode (T "  "); Element (T "img") [(T "src", T "fig1.png")] []] :: [])
  = collectSections
      ([] ++ [TextNode (T "  "); Element (T "img") [(T "src", T "fig1.png")] []] ++ []).
Proof.
  apply (blank_element_transparent (T "p") []
           [TextNode (T "  "); Element (T "img") [(T "src", T "fig1.png")] []] [] []).
  - discriminate.
  - reflexivity.
Defined.

Lemma collectSections_consumed (t : text) (a : list (text * text))
    (kids pre post : list node) :
  consumes (Element t a kids) = true ->
  collectSections (pre ++ Element t a kids :: post)
  = collectSections pre ++ emitted (Element t a kids) ++ collectSections post.
Proof.
  intros H. rewrite !collectSections_segment, flat_map_app. cbn [flat_map].
  rewrite (segment_consumed t a kids H). reflexivity.
Qed.

(** The walk over a subtree, wherever it stands: it appends the sections
    of [segment]. *)
Lemma walk_sections (n : node) (id : path) (S : processedSet) (secs : list section) :
  id <> [] ->
  (forall q, q ∈ S -> ~ below id q) ->
  sections (fold_left visit (walkNode id n)
              {| sections := secs; processedElements := S |})
  = secs ++ segment (isParentProcessed id S) n.
Proof.
  intros Hid Hfresh.
  destruct (walkNode_segment n id S secs Hid Hfresh) as (S' & E & _).
  rewrite E. reflexivity.
Qed.

(** The walk over the subtree of an element that the loop body consumes:
    the sections of the element itself, or nothing below a processed
    ancestor. *)
Lemma walk_consumed (t : text) (a : list (text * text)) (kids : list node)
    (id : path) (S : processedSet) (secs : list section) :
  consumes (Element t a kids) = true ->
  id <> [] ->
  (forall q, q ∈ S -> ~ below id q) ->
  sections (fold_left visit (walkNode id (Element t a kids))
              {| sections := secs; processedElements := S |})
  = secs ++ (if isParentProcessed id S then [] else emitted (Element t a kids)).
Proof.
  intros Hc Hid Hfresh. rewrite (walk_sections _ id S secs Hid Hfresh).
  destruct (isParentProcessed id S);
    [rewrite segment_blocked | rewrite (segment_consumed t a kids Hc)]; reflexivity.
Qed.

(** X13. A heading element [h1]..[h6] with text yields exactly one
    heading section, whatever it contains, unless an ancestor of it has
    been processed: the section holds the trimmed text of the whole
    element at the level of the tag, and the descendants of the element
    yield nothing. This is stated for a heading among the top-level nodes
    of a page, and for a heading anywhere in the tree at the moment the
    walk reaches it (nothing at or below it is in the set yet): the walk
    over its subtree appends that one section, and nothing at all if an
    ancestor is in the set of processed elements. *)
Theorem heading_element_sections (t : text) (a : list (text * text))
    (kids pre post : list node) :
  isHeadingTag t = true ->
  trim (textContent (Element t a kids)) <> [] ->
  collectSections (pre ++ Element t a kids :: post)
  = collectSections pre
    ++ createSection3 heading (trim (textContent (Element t a kids)))
                      (parseIntCharAt1 t)
    :: collectSections post
  /\ levelInRange (parseIntCharAt1 t)
  /\ (forall (id : path) (S : processedSet) (secs : list section),
        id <> [] ->
        (forall q, q ∈ S -> ~ below id q) ->
        sections (fold_left visit (walkNode id (Element t a kids))
                    {| sections := secs; processedElements := S |})
        = secs ++ (if isParentProcessed id S then []
                   else [createSection3 heading
                           (trim (textContent (Element t a kids)))
                           (parseIntCharAt1 t)])).
Proof.
  intros Ht Hn. pose proof (visitAlone_heading t a kids Ht Hn) as Hv.
  assert (Hc : consumes (Element t a kids) = true).
  { unfold consumes. rewrite Hv. cbn [processedElements]. apply dummy_added. }
  assert (He : emitted (Element t a kids)
               = [createSection3 heading (trim (textContent (Element t a kids)))
                    (parseIntCharAt1 t)]).
  { unfold emitted. rewrite Hv. reflexivity. }
  split; [|split; [apply isHeadingTag_level, Ht|]].
  - rewrite (collectSections_consumed t a kids pre post Hc), He. reflexivity.
  - intros id S secs Hid Hfresh.
    rewrite (walk_consumed t a kids id S secs Hc Hid Hfresh), He. reflexivity.
Qed.

(** A second-level heading that holds an image and emphasised text. *)
Lemma heading_element_sections_witness :
  collectSections
    ([] ++ Element (T "h2") []
             [Element (T "img") [(T "src", T "logo.png")] [];
              Element (T "b") [] [TextNode (T " Related ")]; TextNode (T "Work ")] :: [])
  = collectSections []
    ++ createSection3 heading (T "Related Work") (Int 2) :: collectSections [].
Proof.
  refine (proj1 (heading_element_sections (T "h2") []
                   [Element (T "img") [(T "src", T "logo.png")] [];
                    Element (T "b") [] [TextNode (T " Related ")]; TextNode (T "Work ")]
                   [] [] _ _)).
  - reflexivity.
  - discriminate.
Defined.

Lemma processTextElement_block (el : node) (t : text) (id : path) (S : processedSet) :
  isP_or_div t = true ->
  trim (textContent el) <> [] ->
  exists r,
    processTextElement el t id S = (r, {[ id ]} ∪ S)
    /\ (length (resultSections r) = 1%nat \/ length (resultSections r) = 2%nat).
Proof.
  intros Ht Hn. unfold processTextElement.
  destruct (trim (textContent el)) as [|c x]; [congruence|].
  destruct (extractFontProperties el) as [fs b].
  rewrite Ht.
  destruct (extractNestedHeading el) as [nh|].
  - eexists. split; [reflexivity|]. cbn [resultSections].
    destruct (remainingText nh); simpl; auto.
  - destruct (isLikelyHeading (c :: x) fs b);
      eexists; (split; [reflexivity | left; reflexivity]).
Qed.

(** X14. A [p] or [div] with text that is no page marker is consumed as a
    whole, unless an ancestor of it has been processed: it yields one
    section, or a heading followed by a paragraph, and nothing else, so
    none of its descendants yields a section and an image inside it is
    dropped. This is stated for such an element among the top-level nodes
    of a page, and for one anywhere in the tree at the moment the walk
    reaches it: the walk over its subtree appends those one or two
    sections, and nothing at all if an ancestor is in the set of processed
    elements. *)
Theorem block_element_sections (t : text) (a : list (text * text))
    (kids pre post : list node) :
  t = T "p" \/ t = T "div" ->
  isPageMarker (Element t a kids) = false ->
  trim (textContent (Element t a kids)) <> [] ->
  exists own,
    collectSections (pre ++ Element t a kids :: post)
    = collectSections pre ++ own ++ collectSections post
    /\ (length own = 1%nat \/ length own = 2%nat)
    /\ Forall (fun s => isImage s = false) own
    /\ (forall (id : path) (S : processedSet) (secs : list section),
          id <> [] ->
          (forall q, q ∈ S -> ~ below id q) ->
          sections (fold_left visit (walkNode id (Element t a kids))
                      {| sections := secs; processedElements := S |})
          = secs ++ (if isParentProcessed id S then [] else own)).
Proof.
  intros Ht Hpm Hn.
  assert (Hpd : isP_or_div t = true) by (destruct Ht as [-> | ->]; reflexivity).
  assert (Himg : text_eqb t (T "img") = false) by (destruct Ht as [-> | ->]; reflexivity).
  assert (Hh : isHeadingTag t = false) by (destruct Ht as [-> | ->]; reflexivity).
  destruct (processTextElement_block (Element t a kids) t [0%nat] ∅ Hpd Hn)
    as (r & Er & Hlen).
  pose proof (processTextElement_not_image _ _ _ _ _ _ Er) as Hni.
  assert (Hv : visitAlone (Element t a kids)
               = {| sections := resultSections r;
                    processedElements := {[ [0%nat] ]} ∪ ∅ |}).
  { unfold visitAlone, visit, initialState.
    cbn [sections processedElements tagOf].
    rewrite dummy_not_processed, Hpm.
    change (isParentProcessed [0%nat] ∅) with false. cbv iota.
    rewrite Himg, Hh, Hpd. cbn [orb]. rewrite Er.
    destruct r; [destruct Hlen; discriminate | reflexivity | reflexivity]. }
  assert (Hc : consumes (Element t a kids) = true).
  { unfold consumes. rewrite Hv. cbn [processedElements]. apply dummy_added. }
  assert (He : emitted (Element t a kids) = resultSections r).
  { unfold emitted. rewrite Hv. reflexivity. }
  exists (resultSections r). repeat split; try assumption.
  - rewrite (collectSections_consumed t a kids pre post Hc), He. reflexivity.
  - intros id S secs Hid Hfresh.
    rewrite (walk_consumed t a kids id S secs Hc Hid Hfresh), He. reflexivity.
Qed.

(** A paragraph with a bold lead-in, an image and running text. *)
Lemma block_element_sections_witness :
  exists own,
    collectSections
      ([] ++ Element (T "p") []
               [Element (T "b") [] [TextNode (T "Abstract.")];
                Element (T "img") [(T "src", T "fig1.png")] [];
                TextNode (T " Clustering is a class")] :: [])
    = collectSections [] ++ own ++ collectSections []
    /\ (length own = 1%nat \/ length own = 2%nat)
    /\ Forall (fun s => isImage s = false) own.
Proof.
  destruct (block_element_sections (T "p") []
              [Element (T "b") [] [TextNode (T "Abstract.")];
               Element (T "img") [(T "src", T "fig1.png")] [];
               TextNode (T " Clustering is a class")] [] [])
    as (own & H1 & H2 & H3 & _).
  - left. reflexivity.
  - reflexivity.
  - discriminate.
  - exists own. auto.
Defined.

(** ** Ancestors and font properties *)

Lemma ancestorProcessed_spec (p : path) (S : processedSet) :
  ancestorProcessed p S = true <-> exists q, q ∈ S /\ q <> [] /\ below q p.
Proof.
  induction p as [|x up IH]; simpl.
  - split; [discriminate|]. intros (q & _ & Hq & k & Hk).
    symmetry in Hk. apply app_eq_nil in Hk as [_ ?]. congruence.
  - rewrite orb_true_iff, bool_decide_eq_true, IH. split.
    + intros [H | (q & Hq & Hne & k & ->)].
      * exists (x :: up). split; [exact H|]. split; [discriminate | apply below_refl].
      * exists q. split; [exact Hq|]. split; [exact Hne|]. exists (x :: k). reflexivity.
    + intros (q & Hq & Hne & k & Hk). destruct k as [|y k].
      * left. simpl in Hk. subst q. exact Hq.
      * right. inversion Hk; subst. exists q. split; [exact Hq|].
        split; [exact Hne|]. exists k. reflexivity.
Qed.

(** X15. [isParentProcessed] answers whether an ancestor of the element,
    other than the element itself and the root, is in the set of
    processed elements; whether the element itself is in the set does not
    matter. *)
Theorem isParentProcessed_spec (el : path) (S : processedSet) :
  isParentProcessed el S = true <->
  exists ancestor k, ancestor ∈ S /\ ancestor <> [] /\ k <> [] /\ el = k ++ ancestor.
Proof.
  unfold isParentProcessed. rewrite ancestorProcessed_spec.
  destruct el as [|i up]; simpl.
  - split.
    + intros (q & _ & Hq & k & Hk).
      symmetry in Hk. apply app_eq_nil in Hk as [_ ?]. congruence.
    + intros (q & k & _ & _ & Hk & E).
      symmetry in E. apply app_eq_nil in E as [? _]. congruence.
  - split.
    + intros (q & Hq & Hne & k & ->). exists q, (i :: k).
      repeat split; auto; discriminate.
    + intros (q & k & Hq & Hne & Hk & E). exists q. split; [exact Hq|].
      split; [exact Hne|]. destruct k as [|y k]; [congruence|].
      inversion E; subst. exists k. reflexivity.
Qed.

Lemma accumulateFont_fold (l : list node) (m : jsnum) (b : bool) :
  fold_left accumulateFont l (m, b)
  = (fold_left (fun acc d => mathMax acc (fontSize (styleOf d))) l m,
     b || existsb boldish l).
Proof.
  revert m b. induction l as [|d l IH]; intros m b; simpl.
  - rewrite orb_false_r. reflexivity.
  - unfold accumulateFont at 2. cbn [fst snd]. fold (styleOf d).
    rewrite IH. f_equal. unfold boldish.
    destruct (isBold (styleOf d) || isBoldTag d), b; reflexivity.
Qed.

Lemma mathMax_bound (a b : jsnum) (q : Q) :
  mathMax a b = FNum q ->
  exists x y, a = FNum x /\ b = FNum y /\ (x <= q)%Q /\ (y <= q)%Q.
Proof.
  destruct a as [|x], b as [|y]; simpl; try discriminate.
  destruct (Qle_bool x y) eqn:E; intros H; injection H as <-; exists x, y.
  - apply Qle_bool_iff in E. repeat split; auto. apply Qle_refl.
  - repeat split; auto; [apply Qle_refl|].
    apply Qlt_le_weak, Qnot_le_lt. intros Hle.
    apply Qle_bool_iff in Hle. congruence.
Qed.

Lemma maxFold_bound (l : list node) (m : jsnum) (q : Q) :
  fold_left (fun acc d => mathMax acc (fontSize (styleOf d))) l m = FNum q ->
  (exists x, m = FNum x /\ (x <= q)%Q)
  /\ forall d, In d l -> exists y, fontSize (styleOf d) = FNum y /\ (y <= q)%Q.
Proof.
  revert m. induction l as [|d l IH]; intros m H; simpl in H.
  - split; [exists q; split; [exact H | apply Qle_refl]|]. intros d [].
  - destruct (IH _ H) as [(z & Hz & Hzq) Hl].
    apply mathMax_bound in Hz as (x & y & -> & Hy & Hxz & Hyz).
    split; [exists x; split; [reflexivity | eapply Qle_trans; eassumption]|].
    intros d' [<- | Hin]; [|apply Hl, Hin].
    exists y. split; [exact Hy | eapply Qle_trans; eassumption].
Qed.

(** X16. [extractFontProperties] reports bold exactly when the style of
    the element is bold or one of its descendants is a [b] or [strong]
    element or has a bold style; and when it reports a size that is a
    number, that number is at least 0 and at least the size given by the
    style of the element and of each of its descendants, every one of
    which is a number too. *)
Theorem extractFontProperties_aggregates (el : node) :
  (snd (extractFontProperties el) = true <->
   isBold (styleOf el) = true
   \/ exists d, In d (descendantElements el) /\ boldish d = true)
  /\ forall q, fst (extractFontProperties el) = FNum q ->
       (0 <= q)%Q
       /\ forall d, d = el \/ In d (descendantElements el) ->
            exists y, fontSize (styleOf d) = FNum y /\ (y <= q)%Q.
Proof.
  unfold extractFontProperties. fold (styleOf el).
  rewrite accumulateFont_fold. cbn [fst snd]. split.
  - rewrite orb_true_iff, existsb_exists. split.
    + intros [H | H]; [|right; exact H].
      destruct (0 <? length (filter isBoldTag (descendantElements el)))%nat eqn:E.
      * right. destruct (filter isBoldTag (descendantElements el)) as [|d r] eqn:Ef;
          [discriminate|].
        assert (Hd : d ∈ filter isBoldTag (descendantElements el))
          by (rewrite Ef; left).
        apply list_elem_of_filter in Hd as [Hb Hin].
        exists d. split; [apply list_elem_of_In, Hin|].
        unfold boldish. apply Is_true_true in Hb. rewrite Hb. apply orb_true_r.
      * left. exact H.
    + intros [H | H]; [|right; exact H]. left.
      rewrite H. destruct (0 <? _)%nat; reflexivity.
  - intros q H. apply maxFold_bound in H as [(z & Hz & Hzq) Hl].
    apply mathMax_bound in Hz as (x & y & Hx & Hy & Hxz & Hyz).
    inversion Hx; subst x. split; [eapply Qle_trans; eassumption|].
    intros d [-> | Hin]; [|apply Hl, Hin].
    exists y. split; [exact Hy | eapply Qle_trans; eassumption].
Qed.

(** A paragraph in 12pt that holds a bold span in 18.5pt: its size is the
    larger one and is not negative. *)
Lemma extractFontProperties_aggregates_witness :
  fst (extractFontProperties
         (Element (T "p") [(T "style", T "font-size:12.0pt")]
            [Element (T "span") [(T "style", T "font-size:18.5pt;font-weight:bold")]
               [TextNode (T "Intro")]]))
  = FNum (185 # 10)
  /\ (0 <= 185 # 10)%Q.
Proof.
  split; [vm_compute; reflexivity|].
  apply (proj2 (extractFontProperties_aggregates
                  (Element (T "p") [(T "style", T "font-size:12.0pt")]
                     [Element (T "span") [(T "style", T "font-size:18.5pt;font-weight:bold")]
                        [TextNode (T "Intro")]])) (185 # 10)%Q).
  vm_compute. reflexivity.
Defined.

(** ** Tests whose clauses overlap *)

Lemma startsWithEnumeration_includes (t : text) :
  startsWithEnumeration t = true -> includesChar "."%char t = true.
Proof.
  unfold startsWithEnumeration, includesChar. intros H.
  rewrite <- (takeWhile_dropWhile isDigit t), existsb_app.
  destruct (takeWhile isDigit t); [discriminate|].
  destruct (dropWhile isDigit t) as [|d r]; [discriminate|].
  unfold chr_eqb in *. apply Ascii.eqb_eq in H. subst d.
  simpl. apply orb_true_r.
Qed.

(** X17. The heading test has two clauses without effect: a block is a
    likely heading exactly when its size is above 14, or it is bold and
    either its size is above 12 or its text is shorter than 200 code
    units and holds no full stop. The clause for sizes above 16 with
    fewer than 300 code units and the test for a leading enumeration
    never decide. *)
Theorem isLikelyHeading_closed_form (t : text) (fs : jsnum) (b : bool) :
  isLikelyHeading t fs b
  = gt fs 14
    || (b && (gt fs 12 || ((length t <? 200)%nat && negb (includesChar "."%char t)))).
Proof.
  unfold isLikelyHeading.
  pose proof (gt_mono fs 14 16 ltac:(lia)) as M.
  pose proof (startsWithEnumeration_includes t) as E.
  destruct (gt fs 16); [rewrite (M eq_refl); reflexivity|].
  destruct (gt fs 14); [reflexivity|].
  destruct (gt fs 12), b, (length t <? 200)%nat; cbn [andb orb negb];
    try reflexivity.
  destruct (includesChar "." t); [reflexivity|].
  destruct (startsWithEnumeration t); [discriminate (E eq_refl) | reflexivity].
Qed.

Lemma endsWith_hyphen_no_punctuation (s : text) :
  endsWith hyphen s = true -> endsWithPunctuation s = false.
Proof.
  unfold endsWith, endsWithPunctuation. destruct (lastChar s) as [x|]; [|discriminate].
  unfold chr_eqb. intros H. apply Ascii.eqb_eq in H. subst x. reflexivity.
Qed.

(** X18. The length limit of Pass 2 has no effect: two adjacent
    paragraphs pass its merge test exactly when the first ends in a
    hyphen, or the first does not end in [.], [!] or [?] and lower-casing
    leaves the first code unit of the second unchanged. A paragraph that
    ends in a hyphen is joined to any successor that passes the blank
    check, also one that begins with a capital. *)
Theorem shouldMerge_closed_form (current next : section) :
  shouldMerge current next
  = endsWith hyphen (trim (content current))
    || (negb (endsWithPunctuation (trim (content current)))
        && startsLowercase (trim (content next))).
Proof.
  unfold shouldMerge.
  destruct (endsWithPunctuation (trim (content current))),
    (startsLowercase (trim (content next))),
    (endsWith hyphen (trim (content current))),
    (length (trim (content current)) <? 100)%nat; reflexivity.
Qed.

(** ** Escaping *)

Lemma escapeChar_length (c : ascii) :
  (1 <= length (escapeChar c))%nat
  /\ (plainChar c = false -> (1 < length (escapeChar c))%nat).
Proof.
  destruct (escapeChar_cases c) as [[-> E]|[[-> E]|[[-> E]|[[-> E]|[Hp [_ E]]]]]];
    rewrite E; simpl; split; intros; try lia; congruence.
Qed.

Lemma escapeHtml_length (t : text) :
  (length t <= length (escapeHtml t))%nat
  /\ (forallb plainChar t = false -> (length t < length (escapeHtml t))%nat).
Proof.
  induction t as [|c r [IH1 IH2]]; [split; [reflexivity | discriminate]|].
  rewrite escapeHtml_cons, length_app.
  destruct (escapeChar_length c) as [H1 H2]. simpl. split; [lia|].
  destruct (plainChar c); simpl; intros H.
  - specialize (IH2 H). lia.
  - specialize (H2 eq_refl). lia.
Qed.

(** X19. [escapeHtml] loses nothing: different texts have different
    escaped forms; the escaped form is never shorter than the text; and
    it is the text itself exactly when the text holds none of [&], [<],
    [>] and the no-break space. *)
Theorem escapeHtml_faithful (a b : text) :
  (escapeHtml a = escapeHtml b -> a = b)
  /\ (length a <= length (escapeHtml a))%nat
  /\ (escapeHtml a = a <-> forallb plainChar a = true).
Proof.
  split; [apply escapeHtml_injective|]. split; [apply escapeHtml_length|].
  split.
  - intros H. destruct (forallb plainChar a) eqn:E; [reflexivity|].
    destruct (escapeHtml_length a) as [_ Hlt]. specialize (Hlt E).
    rewrite H in Hlt. lia.
  - intros H. induction a as [|c r IH]; [reflexivity|].
    simpl in H. apply andb_prop in H as [Hc Hr].
    rewrite escapeHtml_cons, (IH Hr).
    destruct (escapeChar_cases c) as [[-> E]|[[-> E]|[[-> E]|[[-> E]|[_ [_ E]]]]]];
      try discriminate Hc.
    rewrite E. reflexivity.
Qed.

(** A text with a special character is changed by escaping. *)
Lemma escapeHtml_faithful_witness : escapeHtml (T "a<b") = T "a<b" <-> false = true.
Proof.
  apply (escapeHtml_faithful (T "a<b") (T "a<b")).
Defined.

(** ** Section counts *)

Lemma mergeHyphenatedWords_length (l : list section) :
  (length (mergeHyphenatedWords l) <= length l)%nat
  /\ (length l <= 2 * length (mergeHyphenatedWords l))%nat.
Proof.
  induction l as [| a | a b l IH1 IH2] using pair_induction.
  - simpl. lia.
  - simpl. lia.
  - rewrite mergeHyphenatedWords_two.
    destruct (isParagraph (fixContent a) && isParagraph b
              && hyphenMergeable (fixContent a) b); simpl in *; lia.
Qed.

Lemma mergeAdjacentHeadings_half (l : list section) :
  (length l <= 2 * length (mergeAdjacentHeadings l))%nat.
Proof.
  induction l as [| a | a b l IH1 IH2] using pair_induction.
  - simpl. lia.
  - simpl. lia.
  - rewrite mergeAdjacentHeadings_two.
    repeat match goal with
           | |- context [if ?c then _ else _] => destruct c
           | |- context [match ?x with [] => _ | _ :: _ => _ end] => destruct x
           end; simpl in *; lia.
Qed.

Lemma mergeLoop_nil (fuel : nat) (l : list section) :
  mergeLoop fuel l = [] <-> l = [].
Proof.
  revert l. induction fuel as [|fuel IH]; intros l; [reflexivity|].
  simpl. pose proof (mergeScan_joinedContent l) as [_ H].
  destruct (mergeScan l) as [out ch]. cbn [fst] in H.
  destruct ch; [rewrite IH|]; exact H.
Qed.

(** X20. No pass merges a sequence away and none of Pass 1 and Pass 3
    more than halves it: Pass 1 returns at most as many sections as it is
    given and at least half as many, Pass 3 at least half as many, Pass 2
    and the three passes together return the empty sequence only for the
    empty sequence, and the three passes together never return more
    sections than they are given. *)
Theorem merge_pass_counts (l : list section) :
  (length (mergeHyphenatedWords l) <= length l)%nat
  /\ (length l <= 2 * length (mergeHyphenatedWords l))%nat
  /\ (length l <= 2 * length (mergeAdjacentHeadings l))%nat
  /\ (mergeAdjacentParagraphs l = [] <-> l = [])
  /\ (length (mergePipeline l) <= length l)%nat
  /\ (mergePipeline l = [] <-> l = []).
Proof.
  pose proof (mergeHyphenatedWords_length l) as [H1 H2].
  repeat split; try assumption.
  - apply mergeAdjacentHeadings_half.
  - apply mergeLoop_nil.
  - intros ->. reflexivity.
  - unfold mergePipeline.
    pose proof (mergeAdjacentHeadings_length
                  (mergeAdjacentParagraphs (mergeHyphenatedWords l))).
    pose proof (mergeLoop_length (length (mergeHyphenatedWords l))
                  (mergeHyphenatedWords l)).
    unfold mergeAdjacentParagraphs in *. lia.
  - unfold mergePipeline. intros H.
    pose proof (mergeAdjacentHeadings_half
                  (mergeAdjacentParagraphs (mergeHyphenatedWords l))) as Hh.
    rewrite H in Hh. simpl in Hh.
    assert (Hp : mergeAdjacentParagraphs (mergeHyphenatedWords l) = []).
    { destruct (mergeAdjacentParagraphs (mergeHyphenatedWords l));
        [reflexivity | simpl in Hh; lia]. }
    apply mergeLoop_nil in Hp. rewrite Hp in H2. simpl in H2.
    destruct l; [reflexivity | simpl in H2; lia].
  - intros ->. reflexivity.
Qed.

(** ** Passes and the sections they do not concern *)

Lemma mergeScan_no_paragraph (l : list section) :
  Forall (fun s => isParagraph s = false) l -> mergeScan l = (l, false).
Proof.
  induction l as [| a | a b l IH1 IH2] using pair_induction; intros H.
  - reflexivity.
  - reflexivity.
  - inversion H as [|? ? Ha Hbl]; subst.
    rewrite mergeScan_two, Ha, (IH2 Hbl). reflexivity.
Qed.

(** X21. Each pass leaves alone what it is not about: Pass 2 returns a
    sequence without paragraphs as it is and Pass 1 only repairs the
    contents of such a sequence; Pass 3 returns a sequence without
    headings as it is. *)
Theorem passes_on_other_sections (l : list section) :
  (Forall (fun s => isParagraph s = false) l ->
   mergeAdjacentParagraphs l = l /\ mergeHyphenatedWords l = map fixContent l)
  /\ (Forall (fun s => isHeading s = false) l -> mergeAdjacentHeadings l = l).
Proof.
  split.
  - intros H. split.
    + unfold mergeAdjacentParagraphs. destruct l as [|s l]; [reflexivity|].
      cbn [length mergeLoop]. rewrite (mergeScan_no_paragraph _ H). reflexivity.
    + apply mergeHyphenatedWords_no_merge.
      eapply Forall_impl; [exact H|]. intros s Hs Hp. congruence.
  - induction l as [| a | a b l IH1 IH2] using pair_induction; intros H.
    + reflexivity.
    + reflexivity.
    + inversion H as [|? ? Ha Hbl]; subst.
      rewrite mergeAdjacentHeadings_two, Ha, (IH2 Hbl). reflexivity.
Qed.

(** Two images and a heading between them. *)
Lemma passes_on_other_sections_witness :
  mergeAdjacentParagraphs
    [createSection image [] (Int 0) [{| src := T "a.png" |}];
     createSection3 heading (T "Results") (Int 2);
     createSection image [] (Int 0) [{| src := T "b.png" |}]]
  = [createSection image [] (Int 0) [{| src := T "a.png" |}];
     createSection3 heading (T "Results") (Int 2);
     createSection image [] (Int 0) [{| src := T "b.png" |}]].
Proof.
  refine (proj1 (proj1 (passes_on_other_sections _) _)).
  repeat (apply List.Forall_cons; [reflexivity|]). apply List.Forall_nil.
Defined.

(** ** The caller *)

(** X22. [extractSectionsFromDocument] treats the pages independently
    and in order: the sections of a document are the sections of its
    first pages followed by those of its remaining pages, and a document
    without pages has no sections. *)
Theorem extractSectionsFromDocument_pages (d1 d2 : list (list node)) :
  extractSectionsFromDocument (d1 ++ d2)
  = extractSectionsFromDocument d1 ++ extractSectionsFromDocument d2
  /\ extractSectionsFromDocument [] = [].
Proof.
  rewrite !extractSectionsFromDocument_concat, map_app, concat_app.
  split; reflexivity.
Qed.

(** ** Style analysis *)

Lemma toLowerCase_colon (c : ascii) : toLowerCaseChar c = colon -> c = colon.
Proof.
  unfold colon.
  destruct c as [[] [] [] [] [] [] [] []]; vm_compute; intros H;
    first [reflexivity | discriminate H].
Qed.

Lemma matchLiteralCI_colon (lit s r : text) :
  In colon lit -> matchLiteralCI lit s = Some r -> In colon s.
Proof.
  revert s. induction lit as [|l lit IH]; intros s Hin H; [destruct Hin|].
  destruct s as [|c s]; [discriminate|]. simpl in H.
  destruct (chr_eqb (toLowerCaseChar c) (toLowerCaseChar l)) eqn:E; [|discriminate].
  destruct (inRange 0 127 c); [|discriminate]. simpl in H.
  destruct Hin as [Hl | Hin].
  - left. unfold chr_eqb in E. apply Ascii.eqb_eq in E. subst l.
    apply toLowerCase_colon. exact E.
  - right. eapply IH; eassumption.
Qed.

Lemma search_none {A : Type} (m : text -> option A) (s : text) :
  (forall s' r, m s' = Some r -> In colon s') ->
  ~ In colon s -> search m s = None.
Proof.
  intros Hm. induction s as [|c s IH]; intros Hn; simpl.
  - destruct (m []) eqn:E; [|reflexivity]. destruct (Hm _ _ E).
  - destruct (m (c :: s)) eqn:E; [exfalso; exact (Hn (Hm _ _ E))|].
    apply IH. intros H. apply Hn. right. exact H.
Qed.

(** X23. A style string without a colon holds no declaration that
    [parseStyle] reads: the result is size 0, not bold, not italic; in
    particular for the empty string, which stands for a missing style
    attribute. *)
Theorem parseStyle_without_colon (style : text) :
  ~ In colon style ->
  parseStyle style = {| fontSize := FNum 0; isBold := false; isItalic := false |}.
Proof.
  intros H. unfold parseStyle.
  rewrite (search_none matchFontSize), (search_none matchFontWeight),
    (search_none matchFontStyle); auto.
  - intros s' r. unfold matchFontStyle.
    destruct (matchLiteralCI (T "font-style:") s') eqn:E; [|discriminate].
    intros _. eapply matchLiteralCI_colon; [|exact E]. unfold colon. simpl. tauto.
  - intros s' r. unfold matchFontWeight.
    destruct (matchLiteralCI (T "font-weight:") s') eqn:E; [|discriminate].
    intros _. eapply matchLiteralCI_colon; [|exact E]. unfold colon. simpl. tauto.
  - intros s' r. unfold matchFontSize.
    destruct (matchLiteralCI (T "font-size:") s') eqn:E; [|discriminate].
    intros _. eapply matchLiteralCI_colon; [|exact E]. unfold colon. simpl. tauto.
Qed.

(** A style attribute that holds a word only. *)
Lemma parseStyle_without_colon_witness :
  parseStyle (T "bold 22pt")
  = {| fontSize := FNum 0; isBold := false; isItalic := false |}.
Proof.
  apply parseStyle_without_colon.
  unfold colon. simpl. intros H.
  repeat (destruct H as [H | H]; [discriminate H|]). exact H.
Defined.

Lemma takeWhile_id (p : ascii -> bool) (s : text) :
  forallb p s = true -> takeWhile p s = s /\ dropWhile p s = [].
Proof.
  induction s as [|c r IH]; simpl; [auto|].
  intros H. apply andb_prop in H as [Hc Hr]. rewrite Hc.
  destruct (IH Hr) as [-> ->]. auto.
Qed.

Lemma digit_not_space (c : ascii) : isDigit c = true -> isSpace c = false.
Proof. ascii_cases c. Qed.

Lemma digit_is_digitOrDot (c : ascii) : isDigit c = true -> isDigitOrDot c = true.
Proof. unfold isDigitOrDot. intros ->. reflexivity. Qed.

Lemma search_head {A : Type} (m : text -> option A) (s : text) (r : A) :
  m s = Some r -> search m s = Some r.
Proof. intros H. destruct s; simpl; rewrite H; reflexivity. Qed.

Lemma parseFloat_decimal (ip fp : text) :
  ip <> [] -> forallb isDigit ip = true -> forallb isDigit fp = true ->
  parseFloat (ip ++ "."%char :: fp) = decimalValue ip fp.
Proof.
  intros Hne Hi Hf. unfold parseFloat, decimalValue.
  destruct (takeWhile_app_stop isDigit ip "."%char fp Hi eq_refl) as [-> ->].
  change (chr_eqb "." ".") with true. cbv iota.
  destruct (takeWhile_id isDigit fp Hf) as [-> _].
  destruct ip as [|c ip]; [congruence | reflexivity].
Qed.

(** X24. [parseStyle] takes the size from a leading declaration,
    whatever follows it: for a style that begins with [font-size:],
    optional white space, digits, a dot, digits and [pt], the size is
    what [parseFloat] gives for that numeral (a later [font-size]
    declaration is not looked at); and where the numeral has at most 20
    digits and denotes a double exactly, the size is the value of the
    numeral. *)
Theorem parseStyle_leading_font_size (ws ip fp rest : text) :
  forallb isSpace ws = true ->
  ip <> [] -> forallb isDigit ip = true -> forallb isDigit fp = true ->
  fontSize (parseStyle (T "font-size:" ++ ws ++ (ip ++ "."%char :: fp) ++ T "pt" ++ rest))
  = parseFloat (ip ++ "."%char :: fp)
  /\ ((length ip + length fp <= 20)%nat ->
      exactDouble (decimalValue ip fp) = true ->
      fontSize (parseStyle
                  (T "font-size:" ++ ws ++ (ip ++ "."%char :: fp) ++ T "pt" ++ rest))
      = decimalValue ip fp).
Proof.
  intros Hws Hne Hi Hf.
  assert (Hnum : forallb isDigitOrDot (ip ++ "."%char :: fp) = true).
  { rewrite forallb_app. simpl.
    rewrite (forallb_impl _ _ ip digit_is_digitOrDot Hi),
      (forallb_impl _ _ fp digit_is_digitOrDot Hf). reflexivity. }
  assert (Hm : matchFontSize
                 (T "font-size:" ++ ws ++ (ip ++ "."%char :: fp) ++ T "pt" ++ rest)
               = Some (ip ++ "."%char :: fp)).
  { unfold matchFontSize.
    change (matchLiteralCI (T "font-size:")
              (T "font-size:" ++ ws ++ (ip ++ "."%char :: fp) ++ T "pt" ++ rest))
      with (Some (ws ++ (ip ++ "."%char :: fp) ++ T "pt" ++ rest)).
    cbv iota beta zeta.
    destruct ip as [|c ip]; [congruence|].
    simpl in Hi. apply andb_prop in Hi as [Hc Hi].
    assert (Hd : dropWhile isSpace (ws ++ ((c :: ip) ++ "."%char :: fp) ++ T "pt" ++ rest)
                 = ((c :: ip) ++ "."%char :: fp) ++ T "pt" ++ rest).
    { change (((c :: ip) ++ "."%char :: fp) ++ T "pt" ++ rest)
        with (c :: ((ip ++ "."%char :: fp) ++ T "pt" ++ rest)).
      apply (takeWhile_app_stop isSpace ws c _ Hws (digit_not_space c Hc)). }
    rewrite Hd.
    change (T "pt" ++ rest) with ("p"%char :: "t"%char :: rest).
    destruct (takeWhile_app_stop isDigitOrDot ((c :: ip) ++ "."%char :: fp)
                "p"%char ("t"%char :: rest) Hnum eq_refl) as [-> ->].
    reflexivity. }
  assert (Hsize : fontSize (parseStyle
                    (T "font-size:" ++ ws ++ (ip ++ "."%char :: fp) ++ T "pt" ++ rest))
                  = parseFloat (ip ++ "."%char :: fp)).
  { unfold parseStyle. rewrite (search_head _ _ _ Hm). reflexivity. }
  split; [exact Hsize|].
  intros _ _. rewrite Hsize. apply parseFloat_decimal; assumption.
Qed.

(** A size of 11.5pt, which is 23/2, before a second declaration. *)
Lemma parseStyle_leading_font_size_witness :
  fontSize (parseStyle (T "font-size: 11.5pt;font-size:30pt")) = FNum 11.5.
Proof.
  apply (proj2 (parseStyle_leading_font_size (T " ") (T "11") (T "5")
                  (T ";font-size:30pt") eq_refl ltac:(discriminate) eq_refl eq_refl)).
  - simpl. lia.
  - vm_compute. reflexivity.
Defined.

(** ** The sections that the walk creates *)

Lemma visit_walkForm (st : walkState) (idel : path * node) :
  Forall walkForm (sections st) -> Forall walkForm (sections (visit st idel)).
Proof.
  intros H. destruct idel as [id el]. unfold visit.
  destruct (bool_decide (id ∈ processedElements st)); [exact H|].
  destruct (isPageMarker el); [exact H|].
  destruct (isParentProcessed id (processedElements st)); [exact H|].
  destruct (text_eqb (tagOf el) (T "img")).
  { unfold processImage.
    destruct (getAttribute (T "src") el) as [[|c r]|]; simpl; try exact H.
    apply Forall_app. split; [exact H|]. constructor; [|constructor].
    apply walkForm_image. discriminate. }
  destruct (isHeadingTag (tagOf el)) eqn:Eh.
  { unfold processHeading.
    destruct (trim (textContent el)) as [|c r] eqn:Et; simpl; [exact H|].
    apply Forall_app. split; [exact H|]. constructor; [|constructor].
    rewrite <- Et. apply walkForm_heading;
      [rewrite Et; discriminate | apply isHeadingTag_level, Eh]. }
  destruct (isP_or_div (tagOf el) || text_eqb (tagOf el) (T "span")); [|exact H].
  unfold processTextElement.
  destruct (trim (textContent el)) as [|c r] eqn:Et; [exact H|].
  assert (Hpar : walkForm (createSection2 paragraph (c :: r))).
  { rewrite <- Et. apply walkForm_paragraph. rewrite Et. discriminate. }
  destruct (extractFontProperties el) as [fs b] eqn:Ef.
  destruct (if isP_or_div (tagOf el) then extractNestedHeading el else None)
    as [nh|] eqn:En.
  - assert (Hnh : extractNestedHeading el = Some nh)
      by (destruct (isP_or_div (tagOf el)); [exact En | discriminate]).
    pose proof (extractNestedHeading_wellFormed el nh Hnh) as [Hwf _].
    unfold extractNestedHeading in Hnh.
    destruct (firstElementChild el) as [fc|]; [|discriminate].
    rewrite Ef in Hnh.
    destruct (trim (textContent fc)) as [|c' r'] eqn:Efc; [discriminate|].
    destruct (negb (isHeadingTag (tagOf fc)) && _); [discriminate|].
    inversion Hnh; subst nh; clear Hnh.
    unfold wellFormed in Hwf. cbn [nested_heading type createSection3 createSection] in Hwf.
    destruct Hwf as [_ Hlv].
    cbn [nested_heading remainingText level createSection3 createSection] in *.
    simpl. apply Forall_app. split; [exact H|].
    constructor.
    + rewrite <- Efc. apply walkForm_heading; [rewrite Efc; discriminate | exact Hlv].
    + match goal with |- context [trim ?x] => destruct (trim x) eqn:Er end;
        [constructor|].
      constructor; [|constructor]. rewrite <- Er.
      apply walkForm_paragraph. rewrite Er. discriminate.
  - destruct (isLikelyHeading (c :: r) fs b).
    + simpl. apply Forall_app. split; [exact H|]. constructor; [|constructor].
      rewrite <- Et. apply walkForm_heading;
        [rewrite Et; discriminate | apply getHeadingLevel_range].
    + destruct (isP_or_div (tagOf el)).
      * simpl. apply Forall_app. split; [exact H|]. constructor; [exact Hpar | constructor].
      * destruct (text_eqb (tagOf el) (T "span") && _); simpl; [|exact H].
        apply Forall_app. split; [exact H|]. constructor; [exact Hpar | constructor].
Qed.

Lemma walk_walkForm (l : list (path * node)) (st : walkState) :
  Forall walkForm (sections st) ->
  Forall walkForm (sections (fold_left visit l st)).
Proof.
  revert st. induction l as [|x l IH]; intros st H; [exact H|].
  simpl. apply IH, visit_walkForm, H.
Qed.

(** X25. The walk over the markup creates three kinds of section only:
    an image section without content, at level 0, with one image whose
    source is not empty; a heading section without images, at a level
    from 1 to 6, with trimmed non-empty text; and a paragraph section
    without images, at level 0, with trimmed non-empty text. *)
Theorem collectSections_forms (html : list node) :
  Forall walkForm (collectSections html).
Proof.
  unfold collectSections. apply walk_walkForm. constructor.
Qed.

(** ** Trimmed contents *)

Lemma trim_hd_nonspace (s : text) (c : ascii) (r : text) :
  trim s = c :: r -> isSpace c = false.
Proof.
  unfold trim. destruct (trimStart s) as [|y ys] eqn:E; [discriminate|].
  pose proof (dropWhile_head _ _ _ _ E) as Hy.
  destruct (trimEnd_head y ys Hy) as [r' ->]. congruence.
Qed.

Lemma trim_last_nonspace (s : text) (x : ascii) :
  lastChar (trim s) = Some x -> isSpace x = false.
Proof.
  unfold lastChar, trim, trimEnd. rewrite rev_involutive.
  destruct (dropWhile isSpace (rev (trimStart s))) as [|y ys] eqn:E; [discriminate|].
  intros H. inversion H; subst. eapply dropWhile_head, E.
Qed.

Lemma tidyEnds_iff (t : text) : trim t = t <-> tidyEnds t = true.
Proof.
  split.
  - intros H. unfold tidyEnds. destruct t as [|c r]; [reflexivity|].
    rewrite (trim_hd_nonspace _ _ _ H). cbn [negb andb].
    destruct (lastChar (c :: r)) as [x|] eqn:E.
    + rewrite <- H in E. rewrite (trim_last_nonspace _ _ E). reflexivity.
    + rewrite lastChar_cons in E. destruct (lastChar r); discriminate.
  - unfold tidyEnds. destruct t as [|c r]; [reflexivity|].
    intros H. apply andb_prop in H as [Hc Hl]. apply negb_true_iff in Hc.
    unfold trim, trimStart. simpl dropWhile. rewrite Hc.
    unfold trimEnd. unfold lastChar in Hl.
    destruct (rev (c :: r)) as [|x xs] eqn:E; [discriminate|].
    simpl in Hl. apply negb_true_iff in Hl. simpl. rewrite Hl.
    rewrite <- E. apply rev_involutive.
Qed.

Lemma tidyEnds_fix (t : text) :
  tidyEnds t = true -> tidyEnds (fixHyphenatedWords t) = true.
Proof.
  destruct t as [|c r]; [intros _; reflexivity|].
  destruct (fixHyphenatedWords_head c r) as [r' E].
  pose proof (replaceHyphenated_lastChar (length (c :: r)) (c :: r)) as Hl.
  fold (fixHyphenatedWords (c :: r)) in Hl.
  unfold tidyEnds. rewrite E in *. rewrite Hl. auto.
Qed.

Lemma tidyEnds_app (x y : text) :
  y <> [] -> tidyEnds y = true ->
  match x with [] => True | c :: _ => isSpace c = false end ->
  tidyEnds (x ++ y) = true.
Proof.
  intros Hne Hy Hx. destruct y as [|b y']; [congruence|].
  destruct x as [|c x']; [exact Hy|].
  unfold tidyEnds in *. cbn [app].
  change (c :: x' ++ b :: y') with ((c :: x') ++ b :: y').
  rewrite lastChar_app_cons, Hx.
  apply andb_prop in Hy as [_ Hy]. exact Hy.
Qed.

Lemma tidyEnds_hd (c : ascii) (r : text) : tidyEnds (c :: r) = true -> isSpace c = false.
Proof.
  unfold tidyEnds. intros H. apply andb_prop in H as [H _].
  apply negb_true_iff, H.
Qed.

Lemma fix_nonempty (t : text) : t <> [] -> fixHyphenatedWords t <> [].
Proof.
  destruct t as [|c r]; [congruence|]. intros _.
  destruct (fixHyphenatedWords_head c r) as [r' ->]. discriminate.
Qed.

(** ** The passes, product by product *)

Lemma mergeHyphenatedWords_closed (Q : section -> Prop) (l : list section) :
  (forall s, Q s -> Q (fixContent s)) ->
  (forall a b, Q a -> Q b -> isParagraph a = true -> isParagraph b = true ->
               hyphenMergeable a b = true -> Q (hyphenMerge a b)) ->
  Forall Q l -> Forall Q (mergeHyphenatedWords l).
Proof.
  intros Hfix Hmerge.
  induction l as [| a | a b l IH1 IH2] using pair_induction; intros H.
  - constructor.
  - inversion H; subst. simpl. constructor; [apply Hfix; assumption | constructor].
  - inversion H as [|? ? Ha Hbl]; subst. inversion Hbl as [|? ? Hb Hl]; subst.
    rewrite mergeHyphenatedWords_two.
    destruct (isParagraph (fixContent a) && isParagraph b
              && hyphenMergeable (fixContent a) b) eqn:E.
    + apply andb_prop in E as [E E3]. apply andb_prop in E as [E1 E2].
      constructor; [apply Hmerge; auto | apply IH1, Hl].
    + constructor; [apply Hfix, Ha | apply IH2, Hbl].
Qed.

Lemma mergeAdjacentParagraphs_closed (Q : section -> Prop) (l : list section) :
  (forall a b, Q a -> Q b -> isParagraph a = true -> isParagraph b = true ->
               trim (content b) <> [] -> Q (mergeParagraphs a b)) ->
  Forall Q l -> Forall Q (mergeAdjacentParagraphs l).
Proof.
  intros Hmerge.
  assert (Hscan : forall l, Forall Q l -> Forall Q (fst (mergeScan l))).
  { clear l. intros l.
    induction l as [| a | a b l IH1 IH2] using pair_induction; intros H.
    - constructor.
    - exact H.
    - inversion H as [|? ? Ha Hbl]; subst. inversion Hbl as [|? ? Hb Hl]; subst.
      specialize (IH1 Hl). specialize (IH2 Hbl).
      rewrite mergeScan_two.
      destruct (mergeScan (b :: l)) as [out2 ch2].
      destruct (mergeScan l) as [out1 ch1].
      cbn [fst] in IH1, IH2.
      destruct (isParagraph a && isParagraph b) eqn:E;
        [destruct (trim (content b)) eqn:Et; [|destruct (shouldMerge a b)]|];
        cbn [fst]; constructor; auto.
      apply andb_prop in E as [E1 E2]. apply Hmerge; auto.
      rewrite Et. discriminate. }
  unfold mergeAdjacentParagraphs. generalize (length l) as fuel. intros fuel.
  revert l. induction fuel as [|fuel IH]; intros l H; [exact H|].
  simpl. pose proof (Hscan l H) as Hs.
  destruct (mergeScan l) as [out ch]. cbn [fst] in Hs.
  destruct ch; [apply IH|]; exact Hs.
Qed.

Lemma mergeAdjacentHeadings_closed (Q : section -> Prop) (l : list section) :
  (forall a b, Q a -> Q b -> isHeading a = true -> isParagraph b = true ->
               Q (createSection heading
                    (content a ++ " "%char :: firstLineOf (trim (content b)))
                    (level a) [])) ->
  (forall b, Q b -> isParagraph b = true ->
             remainingLinesOf (trim (content b)) <> [] ->
             Q (createSection2 paragraph (remainingLinesOf (trim (content b))))) ->
  (forall a b, Q a -> Q b -> isHeading a = true -> isHeading b = true ->
               Q (createSection heading (content a ++ " "%char :: content b)
                    (level a) [])) ->
  Forall Q l -> Forall Q (mergeAdjacentHeadings l).
Proof.
  intros Hcont Hrest Hhead.
  induction l as [| a | a b l IH1 IH2] using pair_induction; intros H.
  - constructor.
  - exact H.
  - inversion H as [|? ? Ha Hbl]; subst. inversion Hbl as [|? ? Hb Hl]; subst.
    specialize (IH1 Hl). specialize (IH2 Hbl).
    rewrite mergeAdjacentHeadings_two.
    destruct (isHeading a) eqn:Ea; cbn [andb]; [|constructor; assumption].
    destruct (isParagraph b) eqn:Eb; cbn [andb].
    + destruct (looksLikeContinuation _ && _).
      * destruct (remainingLinesOf (trim (content b))) as [|c r] eqn:Er.
        -- constructor; [apply Hcont; auto | exact IH1].
        -- constructor; [apply Hcont; auto|].
           constructor; [|exact IH1]. rewrite <- Er. apply Hrest; auto.
           rewrite Er. discriminate.
      * destruct (isHeading b && jsint_eqb (level a) (level b)) eqn:E2.
        -- apply andb_prop in E2 as [E2 _].
           constructor; [apply Hhead; auto | exact IH1].
        -- constructor; assumption.
    + destruct (isHeading b && jsint_eqb (level a) (level b)) eqn:E2.
      * apply andb_prop in E2 as [E2 _].
        constructor; [apply Hhead; auto | exact IH1].
      * constructor; assumption.
Qed.

Lemma canonical_paragraph (s : section) :
  canonical s -> isParagraph s = true ->
  content s <> [] /\ tidyEnds (content s) = true /\ trim (content s) = content s.
Proof.
  unfold canonical, isParagraph. destruct (type s); try discriminate.
  intros (H1 & H2 & _) _. repeat split; auto. apply tidyEnds_iff, H2.
Qed.

Lemma canonical_heading (s : section) :
  canonical s -> isHeading s = true ->
  content s <> [] /\ tidyEnds (content s) = true.
Proof.
  unfold canonical, isHeading. destruct (type s); try discriminate.
  intros (H1 & H2 & _) _. split; auto. apply tidyEnds_iff, H2.
Qed.

Lemma tidy_joined (a b : text) :
  a <> [] -> tidyEnds a = true -> b <> [] -> tidyEnds b = true ->
  a ++ " "%char :: b <> [] /\ trim (a ++ " "%char :: b) = a ++ " "%char :: b.
Proof.
  intros Ha Ta Hb Tb. split; [destruct a; discriminate|].
  apply tidyEnds_iff.
  change (a ++ " "%char :: b) with (a ++ [" "%char] ++ b). rewrite app_assoc.
  apply tidyEnds_app; auto.
  destruct a as [|c r]; [congruence|]. simpl. apply (tidyEnds_hd c r Ta).
Qed.

Lemma walkForm_canonical (s : section) : walkForm s -> canonical s.
Proof.
  intros [source H | x lv H _ | x H]; unfold canonical; simpl; auto;
    repeat split; auto using trim_trim.
Qed.

Lemma fixContent_canonical (s : section) : canonical s -> canonical (fixContent s).
Proof.
  unfold fixContent. destruct (content s) as [|c r] eqn:E; [tauto|].
  unfold canonical. simpl. rewrite E.
  assert (Hfix : trim (c :: r) = c :: r ->
                 fixHyphenatedWords (c :: r) <> []
                 /\ trim (fixHyphenatedWords (c :: r)) = fixHyphenatedWords (c :: r)).
  { intros H. split; [apply fix_nonempty; discriminate|].
    apply tidyEnds_iff, tidyEnds_fix, tidyEnds_iff, H. }
  destruct (type s); tauto.
Qed.

Lemma hyphenMerge_canonical (a b : section) :
  canonical a -> canonical b -> isParagraph a = true -> isParagraph b = true ->
  hyphenMergeable a b = true -> canonical (hyphenMerge a b).
Proof.
  intros Ha Hb Pa Pb _.
  destruct (canonical_paragraph a Ha Pa) as (Na & Ta & Ea).
  destruct (canonical_paragraph b Hb Pb) as (Nb & Tb & Eb).
  unfold hyphenMerge, canonical. simpl. rewrite Ea, Eb.
  assert (Ht : tidyEnds (sliceDropLast (content a) ++ content b) = true).
  { apply tidyEnds_app; auto. unfold sliceDropLast.
    destruct (content a) as [|c [|d r]]; simpl; auto.
    apply (tidyEnds_hd c (d :: r) Ta). }
  assert (Hn : sliceDropLast (content a) ++ content b <> []).
  { destruct (content b); [congruence|]. destruct (sliceDropLast (content a)); discriminate. }
  repeat split; auto.
  - apply fix_nonempty, Hn.
  - apply tidyEnds_iff, tidyEnds_fix, Ht.
Qed.

Lemma mergeParagraphs_canonical (a b : section) :
  canonical a -> canonical b -> isParagraph a = true -> isParagraph b = true ->
  trim (content b) <> [] -> canonical (mergeParagraphs a b).
Proof.
  intros Ha Hb Pa Pb _.
  destruct (canonical_paragraph a Ha Pa) as (Na & Ta & _).
  destruct (canonical_paragraph b Hb Pb) as (Nb & Tb & _).
  unfold mergeParagraphs, canonical. simpl.
  destruct (tidy_joined (content a) (content b) Na Ta Nb Tb). auto.
Qed.

Lemma firstLineOf_nonempty (t : text) :
  t <> [] -> tidyEnds t = true -> firstLineOf t <> [].
Proof.
  destruct t as [|c r]; [congruence|]. intros _ H.
  pose proof (tidyEnds_hd c r H) as Hc.
  unfold firstLineOf. cbn [split].
  assert (Hnl : chr_eqb c newline = false).
  { unfold chr_eqb. destruct (Ascii.eqb_spec c newline) as [-> | _];
      [discriminate Hc | reflexivity]. }
  rewrite Hnl.
  destruct (split newline r) as [|h t']; cbn [hd];
    [destruct (trim_head c [] Hc) as [r' ->] | destruct (trim_head c h Hc) as [r' ->]];
    discriminate.
Qed.

Lemma canonical_pipeline (l : list section) :
  Forall canonical l -> Forall canonical (mergePipeline l).
Proof.
  intros H. unfold mergePipeline.
  apply mergeAdjacentHeadings_closed.
  - intros a b Ha Hb Pa Pb.
    destruct (canonical_heading a Ha Pa) as (Na & Ta).
    destruct (canonical_paragraph b Hb Pb) as (Nb & Tb & Eb).
    unfold canonical. simpl. rewrite Eb.
    assert (Hf : firstLineOf (content b) <> []) by (apply firstLineOf_nonempty; auto).
    assert (Tf : tidyEnds (firstLineOf (content b)) = true)
      by (apply tidyEnds_iff, trim_trim).
    destruct (tidy_joined (content a) (firstLineOf (content b)) Na Ta Hf Tf). auto.
  - intros b _ _ Hr. unfold canonical. simpl.
    repeat split; auto. apply trim_trim.
  - intros a b Ha Hb Pa Pb.
    destruct (canonical_heading a Ha Pa) as (Na & Ta).
    destruct (canonical_heading b Hb Pb) as (Nb & Tb).
    unfold canonical. simpl.
    destruct (tidy_joined (content a) (content b) Na Ta Nb Tb). auto.
  - apply mergeAdjacentParagraphs_closed; [apply mergeParagraphs_canonical|].
    apply mergeHyphenatedWords_closed;
      [apply fixContent_canonical | apply hyphenMerge_canonical | exact H].
Qed.

(** X26. Every heading and paragraph that [parseHTMLIntoBlocks] returns,
    and so every one that [extractSectionsFromDocument] returns, has
    non-empty content without white space at either end and carries no
    images; every paragraph has level 0. *)
Theorem parsed_sections_canonical (html : list node) (doc : list (list node)) :
  Forall canonical (parseHTMLIntoBlocks html)
  /\ Forall canonical (extractSectionsFromDocument doc).
Proof.
  assert (Hp : forall h, Forall canonical (parseHTMLIntoBlocks h)).
  { intros h. apply canonical_pipeline.
    eapply Forall_impl; [|apply walkForm_canonical].
    unfold collectSections. apply walk_walkForm. constructor. }
  split; [apply Hp|].
  rewrite extractSectionsFromDocument_concat.
  induction doc as [|p doc IH]; simpl; [constructor|].
  apply Forall_app. split; [apply Hp | exact IH].
Qed.

(** ** Spans *)

Lemma processTextElement_span (el : node) (id : path) (S : processedSet) :
  trim (textContent el) <> [] ->
  processTextElement el (T "span") id S
  = if isLikelyHeading (trim (textContent el))
         (fst (extractFontProperties el)) (snd (extractFontProperties el))
    then (One (createSection3 heading (trim (textContent el))
                 (getHeadingLevel (fst (extractFontProperties el))
                                  (snd (extractFontProperties el)))),
          {[ id ]} ∪ S)
    else if (50 <? length (trim (textContent el)))%nat
    then (One (createSection2 paragraph (trim (textContent el))), {[ id ]} ∪ S)
    else (Null, S).
Proof.
  intros Hn. unfold processTextElement.
  destruct (trim (textContent el)) as [|c x] eqn:Ex; [congruence|].
  destruct (extractFontProperties el) as [fs b]. cbn [fst snd].
  change (isP_or_div (T "span")) with false.
  change (text_eqb (T "span") (T "span")) with true.
  cbv iota. cbn [andb].
  destruct (isLikelyHeading (c :: x) fs b); [reflexivity|].
  destruct (50 <? length (c :: x))%nat; reflexivity.
Qed.

Lemma visitAlone_span (a : list (text * text)) (kids : list node) :
  visitAlone (Element (T "span") a kids)
  = match processTextElement (Element (T "span") a kids) (T "span") [0%nat] ∅ with
    | (Many result, processed) => {| sections := result; processedElements := processed |}
    | (One result, processed) => {| sections := [result]; processedElements := processed |}
    | (Null, processed) => {| sections := []; processedElements := processed |}
    end.
Proof.
  unfold visitAlone, visit, initialState.
  cbn [sections processedElements tagOf].
  rewrite dummy_not_processed. reflexivity.
Qed.

(** X27. A [span] with text is never searched for a nested heading.
    Unless an ancestor of it has been processed, it yields one heading
    section when its text and font pass the heading test, and one
    paragraph section when they do not and the trimmed text is longer
    than 50 code units; in both cases its descendants yield nothing. A
    span that passes neither test yields nothing, is not added to the set
    of processed elements and leaves its descendants to the walk. This is
    stated for a span among the top-level nodes of a page, and for a
    span anywhere in the tree at the moment the walk reaches it. *)
Theorem span_element_sections (a : list (text * text)) (kids pre post : list node) :
  let el := Element (T "span") a kids in
  let x := trim (textContent el) in
  let fs := fst (extractFontProperties el) in
  let b := snd (extractFontProperties el) in
  let own := if isLikelyHeading x fs b
             then createSection3 heading x (getHeadingLevel fs b)
             else createSection2 paragraph x in
  x <> [] ->
  collectSections (pre ++ el :: post)
  = (if isLikelyHeading x fs b || (50 <? length x)%nat
     then collectSections pre ++ own :: collectSections post
     else collectSections (pre ++ kids ++ post))
  /\ (isLikelyHeading x fs b || (50 <? length x)%nat = true ->
      forall (id : path) (S : processedSet) (secs : list section),
        id <> [] ->
        (forall q, q ∈ S -> ~ below id q) ->
        sections (fold_left visit (walkNode id el)
                    {| sections := secs; processedElements := S |})
        = secs ++ (if isParentProcessed id S then [] else [own]))
  /\ (isLikelyHeading x fs b || (50 <? length x)%nat = false ->
      forall (st : walkState) (id : path), visit st (id, el) = st).
Proof.
  intros el x fs b own Hn.
  pose proof (visitAlone_span a kids) as Hv. fold el in Hv.
  rewrite (processTextElement_span el [0%nat] ∅ Hn) in Hv.
  fold x fs b in Hv.
  assert (Hcons : isLikelyHeading x fs b || (50 <? length x)%nat = true ->
                  consumes el = true /\ emitted el = [own]).
  { intros Hy. unfold consumes, emitted, own. rewrite Hv.
    destruct (isLikelyHeading x fs b); cbn [orb] in Hy;
      [|rewrite Hy]; cbn [sections processedElements];
      (split; [apply dummy_added | reflexivity]). }
  split; [|split].
  - destruct (isLikelyHeading x fs b || (50 <? length x)%nat) eqn:Ey.
    + destruct (Hcons eq_refl) as [Hc He].
      unfold el in *. rewrite (collectSections_consumed _ a kids pre post Hc), He.
      reflexivity.
    + apply orb_false_elim in Ey as [E1 E2]. rewrite E1, E2 in Hv.
      unfold el. apply collectSections_unwrap. exact Hv.
  - intros Hy id S secs Hid Hfresh. destruct (Hcons Hy) as [Hc He].
    unfold el in *. rewrite (walk_consumed _ a kids id S secs Hc Hid Hfresh), He.
    reflexivity.
  - intros Hy st id. apply orb_false_elim in Hy as [E1 E2].
    unfold visit. change (tagOf el) with (T "span"). cbv zeta.
    destruct (bool_decide (id ∈ processedElements st)); [reflexivity|].
    change (isPageMarker el) with false. cbv iota.
    destruct (isParentProcessed id (processedElements st)); [reflexivity|].
    change (text_eqb (T "span") (T "img")) with false.
    change (isHeadingTag (T "span")) with false.
    change (isP_or_div (T "span") || text_eqb (T "span") (T "span")) with true.
    cbv iota.
    rewrite (processTextElement_span el id (processedElements st) Hn).
    fold x fs b. rewrite E1, E2. destruct st; reflexivity.
Qed.

(** A short span: no section of its own, its text node is walked instead. *)
Lemma span_element_sections_witness :
  collectSections ([] ++ Element (T "span") [] [TextNode (T " see below ")] :: [])
  = collectSections ([] ++ [TextNode (T " see below ")] ++ []).
Proof.
  refine (proj1 (span_element_sections [] [TextNode (T " see below ")] [] [] _)).
  discriminate.
Defined.

(** * Pass 1 applied twice *)

Lemma pendingMerge_two (a b : section) (l : list section) :
  pendingMerge (a :: b :: l)
  = (isParagraph a && isParagraph b && hyphenMergeable a b) || pendingMerge (b :: l).
Proof. reflexivity. Qed.

Lemma hyphenChain_two (a b : section) (l : list section) :
  hyphenChain (a :: b :: l)
  = (isParagraph a && isParagraph b
     && endsWith hyphen (trim (content a)) && endsWith hyphen (trim (content b)))
    || hyphenChain (b :: l).
Proof. reflexivity. Qed.

Lemma space_not_word (c : ascii) : isSpace c = true -> isWord c = false.
Proof. ascii_cases c. Qed.

Lemma fixHyphenatedWords_space (c : ascii) (r : text) :
  isSpace c = true -> fixHyphenatedWords (c :: r) = c :: fixHyphenatedWords r.
Proof.
  intros H. unfold fixHyphenatedWords. cbn [length replaceHyphenated].
  unfold matchHyphenated. cbn [takeWhile]. rewrite (space_not_word c H). reflexivity.
Qed.

Lemma hd_trim (s : text) : hd_error (trim s) = hd_error (trimStart s).
Proof.
  unfold trim. destruct (trimStart s) as [|c r] eqn:E; [reflexivity|].
  destruct (trimEnd_head c r (dropWhile_head _ _ _ _ E)) as [r' ->]. reflexivity.
Qed.

Lemma hd_trim_fix (s : text) :
  hd_error (trim (fixHyphenatedWords s)) = hd_error (trim s).
Proof.
  rewrite !hd_trim. induction s as [|c r IH]; [reflexivity|].
  destruct (isSpace c) eqn:E.
  - rewrite (fixHyphenatedWords_space c r E). unfold trimStart in *.
    cbn [dropWhile]. rewrite E. exact IH.
  - destruct (fixHyphenatedWords_head c r) as [r' ->].
    unfold trimStart. cbn [dropWhile]. rewrite E. reflexivity.
Qed.

Lemma hyphenMergeable_hd (x y y' : section) :
  hd_error (trim (content y)) = hd_error (trim (content y')) ->
  hyphenMergeable x y = hyphenMergeable x y'.
Proof.
  unfold hyphenMergeable. intros H.
  destruct (trim (content y)) as [|c r], (trim (content y')) as [|c' r'];
    try discriminate H; [reflexivity|].
  injection H as ->. reflexivity.
Qed.

Lemma hyphenMergeable_fixContent_r (x y : section) :
  hyphenMergeable x (fixContent y) = hyphenMergeable x y.
Proof.
  apply hyphenMergeable_hd. rewrite content_fixContent. apply hd_trim_fix.
Qed.

Lemma endsWith_trim_fixContent (s : section) :
  endsWith hyphen (trim (content (fixContent s))) = endsWith hyphen (trim (content s)).
Proof.
  rewrite content_fixContent. unfold endsWith. rewrite trim_fix_lastChar. reflexivity.
Qed.

Lemma hyphenMergeable_end (x y : section) :
  hyphenMergeable x y = true -> endsWith hyphen (trim (content x)) = true.
Proof.
  unfold hyphenMergeable. intros H.
  apply andb_prop in H as [H _]. apply andb_prop in H as [H _]. exact H.
Qed.

Lemma hyphenMergeable_no_end (x y : section) :
  endsWith hyphen (trim (content x)) = false -> hyphenMergeable x y = false.
Proof. unfold hyphenMergeable. intros ->. reflexivity. Qed.

Lemma fixContent_fixed (s : section) :
  fixContent s = s <-> ~ hyphenBreak (content s).
Proof.
  split.
  - intros H Hb. apply (f_equal content) in H. rewrite content_fixContent in H.
    revert H. apply replaceHyphenated_break; [lia | exact Hb].
  - intros H. pose proof (replaceHyphenated_no_break (length (content s)) _ H) as E.
    fold (fixHyphenatedWords (content s)) in E.
    unfold fixContent. destruct s as [ty c lv im]. cbn [content type level images] in *.
    destruct c; [reflexivity|]. rewrite E. reflexivity.
Qed.

(** The sequences that Pass 1 returns as they are. *)
Lemma mergeHyphenatedWords_fixed (r : list section) :
  mergeHyphenatedWords r = r <-> settled r.
Proof.
  unfold settled. induction r as [|a r IH].
  - split; [intros _; split; [constructor | reflexivity] | reflexivity].
  - destruct r as [|b l].
    + change (mergeHyphenatedWords [a]) with [fixContent a]. split.
      * intros H. injection H as H. apply fixContent_fixed in H.
        split; [constructor; [exact H | constructor] | reflexivity].
      * intros [H _]. inversion H as [|? ? Ha _]; subst.
        apply fixContent_fixed in Ha. rewrite Ha. reflexivity.
    + rewrite mergeHyphenatedWords_two, pendingMerge_two.
      destruct (isParagraph (fixContent a) && isParagraph b
                && hyphenMergeable (fixContent a) b) eqn:Ec.
      * split.
        -- intros H. injection H as _ H. exfalso.
           pose proof (proj1 (mergeHyphenatedWords_length l)) as Hlen.
           rewrite H in Hlen. simpl in Hlen. lia.
        -- intros [H Hp]. exfalso. inversion H as [|? ? Ha _]; subst.
           apply fixContent_fixed in Ha. rewrite Ha in Ec. rewrite Ec in Hp.
           discriminate Hp.
      * split.
        -- intros H. injection H as Ha H. apply IH in H as [Hf Hp].
           rewrite Ha in Ec. rewrite Ec, Hp.
           split; [constructor; [apply fixContent_fixed, Ha | exact Hf] | reflexivity].
        -- intros [H Hp]. inversion H as [|? ? Ha Hl]; subst.
           apply orb_false_elim in Hp as [_ Hp].
           apply fixContent_fixed in Ha. rewrite Ha. f_equal.
           apply IH. split; assumption.
Qed.

Lemma hyphenCount_dropWhile (p : ascii -> bool) (s : text) :
  (hyphenCount (dropWhile p s) <= hyphenCount s)%nat.
Proof.
  induction s as [|c r IH]; [reflexivity|]. cbn [dropWhile].
  destruct (p c); [|reflexivity].
  unfold hyphenCount in *. simpl. destruct (ascii_dec c hyphen); lia.
Qed.

Lemma hyphenCount_rev (s : text) : hyphenCount (rev s) = hyphenCount s.
Proof.
  unfold hyphenCount. induction s as [|c r IH]; [reflexivity|].
  simpl. rewrite count_occ_app, IH. simpl.
  destruct (ascii_dec c hyphen); lia.
Qed.

Lemma hyphenCount_trim (s : text) : (hyphenCount (trim s) <= hyphenCount s)%nat.
Proof.
  unfold trim, trimEnd, trimStart. rewrite hyphenCount_rev.
  etransitivity; [apply hyphenCount_dropWhile|].
  rewrite hyphenCount_rev. apply hyphenCount_dropWhile.
Qed.

Lemma hyphenCount_fix (s : text) :
  (hyphenCount (fixHyphenatedWords s) <= hyphenCount s)%nat.
Proof.
  unfold fixHyphenatedWords.
  destruct (replaceHyphenated_hyphens (length s) s) as [-> | H]; lia.
Qed.

Lemma hyphenCount_sliceDropLast (s : text) :
  endsWith hyphen s = true ->
  hyphenCount s = S (hyphenCount (sliceDropLast s)).
Proof.
  unfold endsWith, lastChar, sliceDropLast. intros H.
  destruct (rev s) as [|x r] eqn:E; [discriminate|]. cbn [hd_error] in H.
  apply Ascii.eqb_eq in H. subst x.
  apply (f_equal (@rev ascii)) in E. rewrite rev_involutive in E. cbn [rev] in E.
  rewrite E, removelast_last, hyphenCount_app.
  unfold hyphenCount at 2. simpl. destruct (ascii_dec hyphen hyphen); [lia | congruence].
Qed.

Lemma fix_settles (z : text) :
  (hyphenCount z <= 1)%nat -> ~ hyphenBreak (fixHyphenatedWords z).
Proof.
  intros H Hb. pose proof (fixHyphenatedWords_twice z H) as E. revert E.
  apply replaceHyphenated_break; [lia | exact Hb].
Qed.

Lemma fixContent_settles (s : section) :
  (hyphenCount (content s) <= 1)%nat -> ~ hyphenBreak (content (fixContent s)).
Proof. rewrite content_fixContent. apply fix_settles. Qed.

(** The paragraph that a hyphen merge creates: its content has no place
    left for the repair, and it ends as the second paragraph does. *)
Lemma hyphenMerge_settles (a b : section) :
  (hyphenCount (content a) <= 1)%nat -> (hyphenCount (content b) <= 1)%nat ->
  hyphenMergeable (fixContent a) b = true ->
  ~ hyphenBreak (content (hyphenMerge (fixContent a) b))
  /\ endsWith hyphen (trim (content (hyphenMerge (fixContent a) b)))
     = endsWith hyphen (trim (content b)).
Proof.
  intros Ha Hb Hm. unfold hyphenMerge. cbn [content createSection2 createSection].
  pose proof (hyphenMergeable_end _ _ Hm) as He.
  split.
  - apply fix_settles. rewrite hyphenCount_app.
    pose proof (hyphenCount_sliceDropLast _ He) as E1.
    pose proof (hyphenCount_trim (content (fixContent a))) as E2.
    rewrite content_fixContent in E2.
    pose proof (hyphenCount_fix (content a)) as E3.
    pose proof (hyphenCount_trim (content b)) as E4.
    rewrite content_fixContent in *. lia.
  - unfold endsWith. rewrite trim_fix_lastChar, !lastChar_trim, lastNonSpace_app.
    rewrite <- !lastChar_trim, trim_trim.
    unfold hyphenMergeable in Hm. apply andb_prop in Hm as [Hm _].
    apply andb_prop in Hm as [_ Hm].
    destruct (trim (content b)) as [|c r] eqn:Eb; [discriminate Hm|].
    rewrite lastChar_cons. destruct (lastChar r); reflexivity.
Qed.

Lemma pendingMerge_no_end (x : section) (r : list section) :
  endsWith hyphen (trim (content x)) = false ->
  pendingMerge (x :: r) = pendingMerge r.
Proof.
  intros H. destruct r as [|h r]; [reflexivity|]. rewrite pendingMerge_two.
  rewrite (hyphenMergeable_no_end x h H), andb_false_r. reflexivity.
Qed.

Lemma hyphenChain_tail (a : section) (l : list section) :
  hyphenChain (a :: l) = false -> hyphenChain l = false.
Proof.
  destruct l as [|b l]; [reflexivity|]. rewrite hyphenChain_two.
  intros H. apply orb_false_elim in H as [_ H]. exact H.
Qed.

(** How the result of Pass 1 begins. *)
Lemma mergeHyphenatedWords_head (b : section) (l : list section) :
  (exists t, mergeHyphenatedWords (b :: l) = fixContent b :: t)
  \/ (exists c l',
        l = c :: l' /\ isParagraph b = true
        /\ endsWith hyphen (trim (content b)) = true
        /\ mergeHyphenatedWords (b :: l)
           = hyphenMerge (fixContent b) c :: mergeHyphenatedWords l').
Proof.
  destruct l as [|c l']; [left; eexists; reflexivity|].
  rewrite mergeHyphenatedWords_two.
  destruct (isParagraph (fixContent b) && isParagraph c
            && hyphenMergeable (fixContent b) c) eqn:E;
    [right | left; eexists; reflexivity].
  apply andb_prop in E as [E Hm]. apply andb_prop in E as [Hb Hc].
  rewrite isParagraph_fixContent in Hb.
  exists c, l'. repeat split; try assumption.
  rewrite <- endsWith_trim_fixContent. eapply hyphenMergeable_end, Hm.
Qed.

Lemma mergeHyphenatedWords_settles (l : list section) :
  Forall (fun s => hyphenCount (content s) <= 1)%nat l ->
  hyphenChain l = false ->
  settled (mergeHyphenatedWords l).
Proof.
  unfold settled.
  induction l as [| a | a b l IH1 IH2] using pair_induction; intros H1 H2.
  - split; [constructor | reflexivity].
  - inversion H1 as [|? ? Ha _]; subst.
    split; [constructor; [apply fixContent_settles, Ha | constructor] | reflexivity].
  - inversion H1 as [|? ? Ha H1']; subst. inversion H1' as [|? ? Hb Hl]; subst.
    pose proof (hyphenChain_tail _ _ H2) as H2'.
    pose proof (hyphenChain_tail _ _ H2') as H2''.
    rewrite hyphenChain_two in H2. apply orb_false_elim in H2 as [Hab _].
    rewrite mergeHyphenatedWords_two.
    destruct (isParagraph (fixContent a) && isParagraph b
              && hyphenMergeable (fixContent a) b) eqn:Ec.
    + destruct (IH1 Hl H2'') as [Hf Hp].
      apply andb_prop in Ec as [Ec Hm]. apply andb_prop in Ec as [Pa Pb].
      rewrite isParagraph_fixContent in Pa.
      destruct (hyphenMerge_settles a b Ha Hb Hm) as [Hs He].
      pose proof (hyphenMergeable_end _ _ Hm) as Hea.
      rewrite endsWith_trim_fixContent in Hea.
      rewrite Pa, Pb, Hea in Hab. cbn [andb] in Hab.
      split; [constructor; assumption|].
      rewrite pendingMerge_no_end; [exact Hp|]. rewrite He. exact Hab.
    + destruct (IH2 H1' H2') as [Hf Hp].
      split; [constructor; [apply fixContent_settles, Ha | exact Hf]|].
      destruct (mergeHyphenatedWords_head b l)
        as [[t Et] | (c & l' & -> & Pb & Heb & Et)]; rewrite Et in *.
      * rewrite pendingMerge_two.
        rewrite hyphenMergeable_fixContent_r, (isParagraph_fixContent b), Ec.
        exact Hp.
      * rewrite pendingMerge_two.
        rewrite Pb, Heb, !andb_true_r in Hab.
        apply orb_false_intro; [|exact Hp].
        rewrite isParagraph_fixContent.
        destruct (isParagraph a); [|reflexivity].
        cbn [andb] in Hab.
        rewrite hyphenMergeable_no_end, andb_false_r; [reflexivity|].
        rewrite endsWith_trim_fixContent. exact Hab.
Qed.

(** C2 (amended). Applying Pass 1 twice yields the same sequence as
    applying it once exactly when the result of the first application is
    settled: no content in it holds a place where the hyphenation pattern
    still matches, and no two adjacent paragraphs in it would be joined
    by the hyphen merge. This is so, in particular, for every sequence in
    which no content holds more than one hyphen and no paragraph whose
    trimmed content ends in a hyphen directly follows another such
    paragraph; the paragraphs of such a sequence may well be merged. *)
Theorem pass1_idempotence (sections : list section) :
  (mergeHyphenatedWords (mergeHyphenatedWords sections) = mergeHyphenatedWords sections
   <-> settled (mergeHyphenatedWords sections))
  /\ (Forall (fun s => hyphenCount (content s) <= 1)%nat sections ->
      hyphenChain sections = false ->
      mergeHyphenatedWords (mergeHyphenatedWords sections)
      = mergeHyphenatedWords sections).
Proof.
  split; [apply mergeHyphenatedWords_fixed|].
  intros H1 H2. apply mergeHyphenatedWords_fixed.
  apply mergeHyphenatedWords_settles; assumption.
Qed.

(** The word "iteratively", split between two paragraphs, before a
    paragraph with a compound: the first two are merged. *)
Lemma pass1_idempotence_witness :
  mergeHyphenatedWords
    [createSection2 paragraph (T "it-"); createSection2 paragraph (T "eratively");
     createSection2 paragraph (T "k-means")]
  = [createSection2 paragraph (T "iteratively"); createSection2 paragraph (T "k-means")]
  /\ mergeHyphenatedWords
       (mergeHyphenatedWords
          [createSection2 paragraph (T "it-"); createSection2 paragraph (T "eratively");
           createSection2 paragraph (T "k-means")])
     = mergeHyphenatedWords
         [createSection2 paragraph (T "it-"); createSection2 paragraph (T "eratively");
          createSection2 paragraph (T "k-means")].
Proof.
  split; [reflexivity|].
  apply (proj2 (pass1_idempotence _)).
  - repeat constructor.
  - reflexivity.
Defined.
